(** * Vehicle routing: instance reader, CPLEX model builder and route decoder

    A shallow embedding of
      - [src/ortools/vrp_instance.py]  (class [VRPInstance]),
      - [src/cplex/solver_.py]         (class [VRPSolver]: [__init__], [solve];
                                        [pretty_print_matrix]),
      - [src/cplex/main.py]            ([main]),
    and the properties of the specification that concern them.

    Conventions.  Python integers are [Z]; indices produced by [range] are
    [nat].  A Python [str] that comes from outside - the command line, the
    lines of a file, the messages that quote them - is the list of its code
    points, a [pystr]; the text the program makes itself from numbers and
    blanks is a [string].  A float is a value of a type the development
    leaves open, with the operations the program applies to it; the values
    the solver engine reports are the rationals they stand for.  What the
    machine and the libraries decide is asked of a [Platform].  A Python call
    that can raise returns a [result]; the one unbounded loop of the program
    ([while True] in [VRPSolver.solve]) takes fuel and returns [None] when
    the fuel is used up before the loop has left. *)

From Stdlib Require Import ZArith QArith Lia Ascii String.
From stdpp Require Import base tactics option list numbers strings pretty.
Close Scope Q_scope.

(** ** Text *)

(** A Python [str] as the list of its code points.  A text between quotes
    stands for the code points of its characters. *)
Definition pystr : Type := list N.

Definition chr (a : ascii) : N := N_of_ascii a.

Definition text (s : string) : pystr := chr <$> list_ascii_of_string s.
Coercion text : string >-> pystr.

(** [s + t] *)
Definition cat (s t : pystr) : pystr := s ++ t.

Declare Scope pystr_scope.
Delimit Scope pystr_scope with pystr.
Bind Scope pystr_scope with pystr.
Infix "+:+" := cat (at level 60, right associativity) : pystr_scope.

(** Texts between quotes are read as [pystr] under these constructors when
    one is expected. *)
Arguments cons {A} & _ _.
Arguments Some {A} & _.

(** ** Python exceptions and results *)

Inductive exn : Type :=
  | FileNotFoundError
  | IndexError                        (* sequence or array index out of range *)
  | ValueError (msg : pystr)          (* int(tok), float(tok): an invalid literal;
                                         [msg] is str(e) *)
  | AllocationError (msg : pystr)     (* [x] * n or np.zeros(shape) that cannot be
                                         made: OverflowError, ValueError or
                                         MemoryError; [msg] is str(e) *)
  | OverflowError                     (* float ** 2: result out of range *)
  | ValueError_index                  (* list.index(1): 1 is not in list *)
  | Exception (msg : pystr)           (* raise Exception(msg) *)
  | SystemExit (code : Z) (printed : pystr). (* print(printed); exit(code) *)

Inductive result (A : Type) : Type :=
  | Ok (a : A)
  | Raise (e : exn).
Arguments Ok {A} & a.
Arguments Raise {A} e.

Global Instance result_ret : MRet result := λ A a, Ok a.
Global Instance result_bind : MBind result := λ A B f r,
  match r with
  | Ok a => f a
  | Raise e => Raise e
  end.

Definition is_Ok {A} (r : result A) : Prop := ∃ a, r = Ok a.

(** [range(n)] for a Python integer [n]: empty when [n <= 0]. *)
Definition range (n : Z) : list nat := seq 0 (Z.to_nat n).

(** [for a in l: body], the loop state passed along; [for_r] when the body
    can raise. *)
Definition for_ {A S} (l : list A) (body : A → S → S) (s : S) : S :=
  foldl (λ s a, body a s) s l.

Fixpoint for_r {A S} (l : list A) (body : A → S → result S) (s : S) : result S :=
  match l with
  | [] => Ok s
  | a :: l' => s' ← body a s; for_r l' body s'
  end.

(** [l[i]] for a list and an index [i >= 0]. *)
Definition getitem {A} (l : list A) (i : nat) : result A :=
  match l !! i with
  | Some x => Ok x
  | None => Raise IndexError
  end.

Definition nl : string := String "010"%char "".

(** [str.split()] with no argument: the maximal runs of non-blank characters.
    The blanks are the code points of [str.isspace]: U+0009-000D,
    U+001C-001F, U+0020, U+0085, U+00A0, U+1680, U+2000-200A, U+2028, U+2029,
    U+202F, U+205F and U+3000.  [strip()] before [split()] changes nothing. *)
Definition py_isspace (c : N) : bool :=
  ((9 <=? c) && (c <=? 13) || (28 <=? c) && (c <=? 32)
   || (c =? 133) || (c =? 160) || (c =? 5760)
   || (8192 <=? c) && (c <=? 8202)
   || (c =? 8232) || (c =? 8233) || (c =? 8239) || (c =? 8287) || (c =? 12288))%N.

Definition flush (cur : pystr) : list pystr :=
  match cur with
  | [] => []
  | _ => [cur]
  end.

Fixpoint split_go (cur : pystr) (s : pystr) : list pystr :=
  match s with
  | [] => flush cur
  | a :: s' =>
      if py_isspace a then flush cur ++ split_go [] s'
      else split_go (cur ++ [a]) s'
  end.

Definition split (s : pystr) : list pystr := split_go [] s.

(** What the handlers of the reader print after the file name: the fixed
    text of the first handler, [str(e)] in the second.  The text of a
    ValueError and of a refused allocation is the one Python gave it. *)
Definition str_exn (e : exn) : pystr :=
  match e with
  | FileNotFoundError => "File not found"
  | IndexError => "list index out of range"
  | ValueError msg => msg
  | AllocationError msg => msg
  | OverflowError => "(34, 'Numerical result out of range')"
  | ValueError_index => "1 is not in list"
  | Exception msg => msg
  | SystemExit code _ => pretty code
  end.

(** ** The platform *)

(** What the program takes from the machine and the libraries under it.
    [list_refused n] is the text of the exception [[x] * n] raises when a
    list of [n] entries cannot be made (OverflowError when [n] does not fit
    an index, MemoryError when the machine has no room), [None] when it is
    made, the same for every list of that length; [array_refused shape] the
    same for [np.zeros(shape, dtype=object)], which refuses every shape with
    a negative dimension.  [float_sub] is [x - y] on floats, which never
    raises; [float_square x] is [x ** 2], [None] when it raises
    OverflowError. *)
Class Platform (float : Type) : Type := {
  list_refused : Z → option pystr;
  array_refused : list Z → option pystr;
  array_refused_negative (shape : list Z) :
    Exists (λ d, d < 0)%Z shape → is_Some (array_refused shape);
  float_sub : float → float → float;
  float_square : float → option float;
}.

(** [[x] * n] *)
Definition list_times {float : Type} `{!Platform float} {A} (x : A) (n : Z)
    : result (list A) :=
  match list_refused n with
  | Some msg => Raise (AllocationError msg)
  | None => Ok (replicate (Z.to_nat n) x)
  end.

(** [np.zeros(shape, dtype=object)]: the cells are written before they are
    read, only the making of the array is kept. *)
Definition np_zeros {float : Type} `{!Platform float} (shape : list Z) : result () :=
  match array_refused shape with
  | Some msg => Raise (AllocationError msg)
  | None => Ok ()
  end.

(** ** [vrp_instance.py] *)

Record VRPInstance (float : Type) : Type := mkVRPInstance {
  num_customers : Z;
  num_vehicles : Z;
  vehicle_capacity : Z;
  demand_of_customer : list Z;
  x_coord_of_customer : list float;
  y_coord_of_customer : list float;
}.
Arguments mkVRPInstance {float}.
Arguments num_customers {float} _.
Arguments num_vehicles {float} _.
Arguments vehicle_capacity {float} _.
Arguments demand_of_customer {float} _.
Arguments x_coord_of_customer {float} _.
Arguments y_coord_of_customer {float} _.

(** What [int(tok)] and [float(tok)] answer: the number, or the text of the
    ValueError. *)
Inductive parsed (A : Type) : Type :=
  | Parsed (a : A)
  | Invalid (msg : pystr).
Arguments Parsed {A} a.
Arguments Invalid {A} msg.

Section vrp_instance.
  (** The built-ins [int] and [float] on a token, and the float [0.0], are
      taken as they come: the reader only calls them. *)
  Context {float : Type} `{!Platform float} (float_zero : float).
  Context (py_int : pystr → parsed Z) (py_float : pystr → parsed float).

Definition int_ (tok : pystr) : result Z :=
  match py_int tok with
  | Parsed z => Ok z
  | Invalid msg => Raise (ValueError msg)
  end.

Definition float_ (tok : pystr) : result float :=
  match py_float tok with
  | Parsed x => Ok x
  | Invalid msg => Raise (ValueError msg)
  end.

(** Lines 8-11: the first line. *)
Definition parse_first_line (line : pystr) : result (Z * Z * Z) :=
  let first_line := split line in
  t0 ← getitem first_line 0; n ← int_ t0;
  t1 ← getitem first_line 1; nv ← int_ t1;
  t2 ← getitem first_line 2; cap ← int_ t2;
  Ok (n, nv, cap).

(** Lines 21-24: the three fields of one customer line. *)
Definition parse_customer_line (line : pystr) : result (Z * float * float) :=
  let customer_data := split line in
  t0 ← getitem customer_data 0; d ← int_ t0;
  t1 ← getitem customer_data 1; x ← float_ t1;
  t2 ← getitem customer_data 2; y ← float_ t2;
  Ok (d, x, y).

(** The three arrays under construction. *)
Definition arrays : Type := list Z * list float * list float.

(** Lines 20-24: one turn of the loop over [range(num_customers)]. *)
Definition parse_customer (lines : list pystr) (i : nat) (st : arrays) : result arrays :=
  let '(demand, xs, ys) := st in
  if bool_decide (i + 1 < length lines) then
    line ← getitem lines (i + 1);
    '(d, x, y) ← parse_customer_line line;
    Ok (<[i:=d]> demand, <[i:=x]> xs, <[i:=y]> ys)
  else Ok st.


(** Lines 5-24, inside the [try]. *)
Definition read_instance (lines : list pystr) : result (VRPInstance float) :=
  line0 ← getitem lines 0;
  '(n, nv, cap) ← parse_first_line line0;
  demand ← list_times 0%Z n;
  xs ← list_times float_zero n;
  ys ← list_times float_zero n;
  '(demand, xs, ys) ← for_r (range n) (parse_customer lines) (demand, xs, ys);
  Ok (mkVRPInstance n nv cap demand xs ys).

(** [VRPInstance(file_name)]: [file] is the content of the file as
    [readlines()] gives it, [None] when [open] raises FileNotFoundError.
    Both handlers print and call [exit(-1)]. *)
Definition VRPInstance_init (file_name : pystr) (file : option (list pystr))
    : result (VRPInstance float) :=
  let body := match file with
              | None => Raise FileNotFoundError
              | Some lines => read_instance lines
              end in
  match body with
  | Ok inst => Ok inst
  | Raise e =>
      Raise (SystemExit (-1)
               ("Error: in VRPInstance() " +:+ file_name +:+ nl +:+ str_exn e))
  end.

End vrp_instance.

(** ** A reference platform, for the closed examples *)

(** [repr] of a str: between single quotes, or between double quotes when
    the text holds a single quote and no double quote; the quote in use and
    the backslash are escaped; tab, newline and return are written \t, \n
    and \r; the other characters below 256 that are not printable (below
    32, from 127 to 160, and 173) are written \xNN, and the blanks above
    \uNNNN.  The other characters are written as they are, which is what
    Python does with those that are printable. *)
Definition hex_digit (k : N) : N :=
  chr (nth (N.to_nat k) (list_ascii_of_string "0123456789abcdef") "0"%char).

Definition backslash : N := 92.
Definition single_quote : N := chr "'".
Definition double_quote : N := 34.

Definition repr_char (quote c : N) : pystr :=
  if bool_decide (c = quote ∨ c = backslash) then [backslash; c]
  else if bool_decide (c = 9%N) then [backslash; chr "t"]
  else if bool_decide (c = 10%N) then [backslash; chr "n"]
  else if bool_decide (c = 13%N) then [backslash; chr "r"]
  else if bool_decide (c < 32 ∨ 127 ≤ c ≤ 160 ∨ c = 173)%N then
    [backslash; chr "x"; hex_digit (c / 16); hex_digit (c mod 16)]
  else if py_isspace c && negb (c =? 32)%N then
    [backslash; chr "u"; hex_digit (c / 4096); hex_digit (c / 256 mod 16);
     hex_digit (c / 16 mod 16); hex_digit (c mod 16)]
  else [c].

Definition py_repr (s : pystr) : pystr :=
  let quote :=
    if bool_decide (single_quote ∈ s ∧ double_quote ∉ s) then double_quote
    else single_quote in
  quote :: (s ≫= repr_char quote) ++ [quote].

(** A reference reading of tokens: [int] on an optional sign followed by
    decimal digits, [float] on an optional sign and decimal digits with at
    most one point, kept as the decimal it denotes; any other token is
    answered with the text of Python's ValueError (the repr of the token cut
    at 200 characters by [int], whole by [float]).  The examples keep to
    tokens on which Python answers the same: ASCII characters, no
    underscores, no exponent, no [inf] or [nan], no digit string longer than
    [int] converts. *)
Record decimal : Type := Dec { dec_mantissa : Z; dec_places : nat }.

Definition digit (c : N) : option N :=
  if bool_decide (chr "0" ≤ c ≤ chr "9")%N then Some (c - chr "0")%N else None.

Fixpoint digits_go (acc : N) (s : pystr) : option N :=
  match s with
  | [] => Some acc
  | c :: s' => d ← digit c; digits_go (10 * acc + d)%N s'
  end.

Definition ascii_nat (s : pystr) : option N :=
  match s with
  | [] => None
  | _ => digits_go 0%N s
  end.

(** The sign in front of a literal and what follows it. *)
Definition signed (s : pystr) : bool * pystr :=
  match s with
  | c :: s' =>
      if bool_decide (c = chr "-") then (true, s')
      else if bool_decide (c = chr "+") then (false, s')
      else (false, s)
  | [] => (false, s)
  end.

Definition int_literal (s : pystr) : option Z :=
  let '(minus, digits) := signed s in
  (λ n, if minus then - Z.of_N n else Z.of_N n)%Z <$> ascii_nat digits.

Definition ascii_int (s : pystr) : parsed Z :=
  match int_literal s with
  | Some z => Parsed z
  | None =>
      Invalid ("invalid literal for int() with base 10: " +:+ take 200 (py_repr s))
  end.

Fixpoint decimal_go (acc : N) (places : option nat) (seen : bool) (s : pystr)
    : option decimal :=
  match s with
  | [] =>
      if seen then Some (Dec (Z.of_N acc) (default 0 places)) else None
  | c :: s' =>
      if bool_decide (c = chr ".") then
        match places with
        | None => decimal_go acc (Some 0) seen s'
        | Some _ => None
        end
      else
        d ← digit c;
        decimal_go (10 * acc + d)%N (S <$> places) true s'
  end.

Definition float_literal (s : pystr) : option decimal :=
  let '(minus, digits) := signed s in
  (λ d, if minus then Dec (- dec_mantissa d) (dec_places d) else d)
    <$> decimal_go 0%N None false digits.

Definition ascii_float (s : pystr) : parsed decimal :=
  match float_literal s with
  | Some d => Parsed d
  | None => Invalid ("could not convert string to float: " +:+ py_repr s)
  end.

(** Arithmetic on the decimals, exact; a square is out of range from
    [2 ^ 1024] on, where that of a double is (up to rounding). *)
Definition decimal_sub (x y : decimal) : decimal :=
  let places := dec_places x `max` dec_places y in
  Dec (dec_mantissa x * 10 ^ Z.of_nat (places - dec_places x)
       - dec_mantissa y * 10 ^ Z.of_nat (places - dec_places y))%Z places.

Definition decimal_square (x : decimal) : option decimal :=
  if bool_decide (2 ^ 1024 * 10 ^ Z.of_nat (2 * dec_places x)
                  ≤ dec_mantissa x * dec_mantissa x)%Z
  then None
  else Some (Dec (dec_mantissa x * dec_mantissa x) (2 * dec_places x)).

(** A 64-bit machine with room for every list and array whose size fits an
    index. *)
Definition index_sized (k : Z) : Prop := (- 2 ^ 63 ≤ k ≤ 2 ^ 63 - 1)%Z.

Definition reference_list_refused (n : Z) : option pystr :=
  if bool_decide (index_sized n) then None
  else Some (text "cannot fit 'int' into an index-sized integer").

Definition reference_array_refused (shape : list Z) : option pystr :=
  if bool_decide (Exists (λ d, d < 0)%Z shape) then
    Some (text "negative dimensions are not allowed")
  else if bool_decide (index_sized (foldr Z.mul 1%Z shape)) then None
  else Some (text "Maximum allowed dimension exceeded").

#[global, refine] Instance reference_platform : Platform decimal := {|
  list_refused := reference_list_refused;
  array_refused := reference_array_refused;
  float_sub := decimal_sub;
  float_square := decimal_square;
|}.
Proof.
  intros shape Hneg. unfold reference_array_refused.
  rewrite bool_decide_eq_true_2 by done. by eexists.
Defined.

Definition read_file : pystr → option (list pystr) → result (VRPInstance decimal) :=
  VRPInstance_init (Dec 0 0) ascii_int ascii_float.


(** ** [solver_.py]: the model handed to the solver engine *)

(** The decision variables, named by the array cell that holds them:
    [edge_var v i j] is [self.edge_var[v][i][j]], [order_var v i] is
    [self.order_var[v][i]].  Cells are only read at indices drawn from
    [range] of the array's own dimension, the depot index [0] apart. *)
Inductive var : Type :=
  | edge_var (v i j : nat)
  | order_var (v i : nat).

Global Instance var_eq_dec : EqDecision var.
Proof. solve_decision. Defined.

(** A linear expression of docplex: coefficients on variables, in the order
    the operations met them, and a constant. *)
Record linexpr : Type := LinExpr { terms : list (Z * var); constant : Z }.

Definition lconst (k : Z) : linexpr := LinExpr [] k.
Definition lvar (x : var) : linexpr := LinExpr [(1%Z, x)] 0.
Definition ladd (a b : linexpr) : linexpr :=
  LinExpr (terms a ++ terms b) (constant a + constant b).
Definition lscale (k : Z) (a : linexpr) : linexpr :=
  LinExpr ((λ t, (k * t.1, t.2)%Z) <$> terms a) (k * constant a).
Definition lsub (a b : linexpr) : linexpr := ladd a (lscale (-1) b).

(** [model.sum(exprs)] and [model.scal_prod(terms, coefs)]. *)
Definition model_sum (l : list linexpr) : linexpr := foldr ladd (lconst 0) l.
Definition scal_prod (ts : list var) (coefs : list Z) : linexpr :=
  LinExpr (zip coefs ts) 0.

Inductive sense : Type := LE | GE | EQ.

Global Instance sense_eq_dec : EqDecision sense.
Proof. solve_decision. Defined.

Record constraint : Type := Constraint { lhs : linexpr; csense : sense; rhs : linexpr }.

Definition cle (a b : linexpr) : constraint := Constraint a LE b.   (* a <= b *)
Definition cge (a b : linexpr) : constraint := Constraint a GE b.   (* a >= b *)
Definition ceq (a b : linexpr) : constraint := Constraint a EQ b.   (* a == b *)

(** The docplex model as the builder fills it: variables with their bounds in
    creation order, constraints in the order of [add_constraint], and the
    objective, whose coefficient [distance(i, j)] is a float and is kept as
    the pair [(i, j)]. *)
Record Model : Type := mkModel {
  variables : list (var * (Z * Z));
  constraints : list constraint;
  objective : list (var * (nat * nat));
}.

Definition empty_model : Model := mkModel [] [] [].

Definition integer_var (lb ub : Z) (x : var) (m : Model) : Model :=
  mkModel (variables m ++ [(x, (lb, ub))]) (constraints m) (objective m).

Definition add_constraint (c : constraint) (m : Model) : Model :=
  mkModel (variables m) (constraints m ++ [c]) (objective m).

Definition minimize (obj : list (var * (nat * nat))) (m : Model) : Model :=
  mkModel (variables m) (constraints m) obj.

Section builder.
  Context {float : Type} `{!Platform float} (p : VRPInstance float).
  Local Abbreviation nv := (num_vehicles p).
  Local Abbreviation n := (num_customers p).

(** Lines 14-21. *)
Definition create_edge_vars : Model → Model :=
  for_ (range nv) (λ v,
    for_ (range n) (λ i,
      for_ (range n) (λ j,
        if bool_decide (i ≠ j) then integer_var 0 1 (edge_var v i j)
        else integer_var 0 0 (edge_var v i j)))).

(** Lines 23-29. *)
Definition create_order_vars : Model → Model :=
  for_ (range nv) (λ v,
    for_ (range n) (λ i,
      if bool_decide (i = 0) then integer_var 0 0 (order_var v i)
      else integer_var 1 (n - 1) (order_var v i))).

(** The slices of [self.edge_var] the builder sums over. *)
Definition into_all (c : nat) : list var :=       (* edge_var[:, :, c].flatten() *)
  v ← range nv; i ← range n; [edge_var v i c].
Definition from_all (c : nat) : list var :=       (* edge_var[:, c, :].flatten() *)
  v ← range nv; j ← range n; [edge_var v c j].
Definition into_of (v c : nat) : list var :=      (* edge_var[v, :, c] *)
  (λ i, edge_var v i c) <$> range n.
Definition from_of (v c : nat) : list var :=      (* edge_var[v, c, :] *)
  (λ j, edge_var v c j) <$> range n.

Definition sum_vars (xs : list var) : linexpr := model_sum (lvar <$> xs).

(** Lines 34-48: one turn of the flow loop. *)
Definition flow_body (c : nat) (m : Model) : Model :=
  let incoming_flow := sum_vars (into_all c) in
  let outgoing_flow := sum_vars (from_all c) in
  let m :=
    if bool_decide (c ≠ 0) then
      add_constraint (ceq outgoing_flow (lconst 1))
        (add_constraint (ceq incoming_flow (lconst 1)) m)
    else add_constraint (ceq incoming_flow outgoing_flow) m in
  for_ (range nv) (λ v,
    add_constraint (ceq (sum_vars (into_of v c)) (sum_vars (from_of v c)))) m.

Definition flow_loop : Model → Model := for_ (range n) flow_body.

(** Lines 51-54.  [edge_var[v, 0, :]] and [edge_var[v, :, 0]] index the
    customer axes with the literal 0: IndexError when they are empty. *)
Definition depot_body (v : nat) (m : Model) : result Model :=
  if bool_decide (n ≤ 0)%Z then Raise IndexError
  else
    let leave := sum_vars (from_of v 0) in
    let back := sum_vars (into_of v 0) in
    Ok (add_constraint (ceq leave back)
          (add_constraint (cle back (lconst 1))
             (add_constraint (cle leave (lconst 1)) m))).

Definition depot_loop : Model → result Model := for_r (range nv) depot_body.

(** Lines 57-64. *)
Definition capacity_body (v : nat) (m : Model) : Model :=
  let total_demand_served :=
    (λ c, scal_prod (from_of v c) (demand_of_customer p)) <$> range n in
  add_constraint (cle (model_sum total_demand_served) (lconst (vehicle_capacity p))) m.

Definition capacity_loop : Model → Model := for_ (range nv) capacity_body.

(** Lines 67-72; [range(1, n)] is [seq 1 (n - 1)]. *)
Definition mtz (v i j : nat) : constraint :=
  cge (lvar (order_var v i))
      (lsub (ladd (lvar (order_var v j)) (lconst 1))
            (lscale n (lsub (lconst 1) (lvar (edge_var v i j))))).

Definition mtz_loop : Model → Model :=
  for_ (range nv) (λ v,
    for_ (seq 1 (Z.to_nat n - 1)) (λ i,
      for_ (seq 1 (Z.to_nat n - 1)) (λ j,
        add_constraint (mtz v i j)))).

(** [x ** 2] on a float. *)
Definition square (x : float) : result float :=
  match float_square x with
  | Some y => Ok y
  | None => Raise OverflowError
  end.

(** Lines 114-117, [self.distance(i, j)]: the four reads of the coordinate
    lists and the two squares are made, each of which can raise.  The sum of
    the squares and its [math.sqrt] never raise (the argument is not
    negative); the float they give is kept as the pair [(i, j)] of the
    call. *)
Definition distance (i j : nat) : result (nat * nat) :=
  x1 ← getitem (x_coord_of_customer p) i; y1 ← getitem (y_coord_of_customer p) i;
  x2 ← getitem (x_coord_of_customer p) j; y2 ← getitem (y_coord_of_customer p) j;
  dx2 ← square (float_sub x1 x2);
  dy2 ← square (float_sub y1 y2);
  Ok (i, j).

(** Lines 74-79: the terms of the objective, in the order of the generator. *)
Definition distance_traveled : result (list (var * (nat * nat))) :=
  for_r (range nv) (λ v,
    for_r (range n) (λ i,
      for_r (range n) (λ j acc,
        d ← distance i j; Ok (acc ++ [(edge_var v i j, d)])))) [].

(** [VRPSolver.__init__].  The two arrays are made by [np.zeros] before
    their cells are filled.  docplex is taken as a store: [add_constraint]
    keeps every constraint it is given. *)
Definition build : result Model :=
  _ ← np_zeros [nv; n; n];
  let m := create_edge_vars empty_model in
  _ ← np_zeros [nv; n];
  let m := create_order_vars m in
  let m := flow_loop m in
  m ← depot_loop m;
  let m := capacity_loop m in
  let m := mtz_loop m in
  obj ← distance_traveled;
  Ok (minimize obj m).

End builder.

(** ** Assignments and what it means to satisfy the model *)

Definition Zsum (l : list Z) : Z := foldr Z.add 0%Z l.

Definition eval (sol : var → Z) (e : linexpr) : Z :=
  (Zsum ((λ t, t.1 * sol t.2)%Z <$> terms e) + constant e)%Z.

(** The coefficient an expression gives a variable. *)
Definition coef (e : linexpr) (x : var) : Z :=
  Zsum ((λ t, if bool_decide (t.2 = x) then t.1 else 0%Z) <$> terms e).

Definition mentions (c : constraint) (x : var) : Prop :=
  x ∈ (terms (lhs c)).*2 ++ (terms (rhs c)).*2.

Definition holds (sol : var → Z) (c : constraint) : Prop :=
  match csense c with
  | LE => (eval sol (lhs c) ≤ eval sol (rhs c))%Z
  | GE => (eval sol (rhs c) ≤ eval sol (lhs c))%Z
  | EQ => eval sol (lhs c) = eval sol (rhs c)
  end.

Global Instance holds_dec sol c : Decision (holds sol c).
Proof. unfold holds. destruct (csense c); apply _. Defined.

Definition in_bounds (sol : var → Z) (b : var * (Z * Z)) : Prop :=
  (b.2.1 ≤ sol b.1 ≤ b.2.2)%Z.

Global Instance in_bounds_dec sol b : Decision (in_bounds sol b).
Proof. unfold in_bounds. apply _. Defined.

Definition feasible (m : Model) (sol : var → Z) : Prop :=
  Forall (in_bounds sol) (variables m) ∧ Forall (holds sol) (constraints m).

Global Instance feasible_dec m sol : Decision (feasible m sol).
Proof. unfold feasible. apply _. Defined.

(** ** [solver_.py]: decoding the assignment ([VRPSolver.solve]) *)

(** The decoder reads the values of the variables and asks one thing of
    them: whether a value equals 1 ([x == 1], behind [1 in row] and
    [row.index(1)]).  [equals_1] is that test, on the values of the engine
    and on the integers of an assignment. *)
Class Value (A : Type) : Type := equals_1 : A → bool.
Global Hint Mode Value ! : typeclass_instances.

Global Instance Z_value : Value Z := λ z, bool_decide (z = 1%Z).

(** The engine reports floats, as it computed them: a float is the rational
    it stands for, and [==] compares exactly. *)
Global Instance Q_value : Value Q := λ x, Qeq_bool x 1.

(** What [self.model.solve()] hands back when it finds a solution: the value
    of every variable, a float, and the objective value, kept as the text
    [round(objective_value, 1)] prints. *)
Record Solution : Type := mkSolution {
  solution_value : var → Q;
  objective_text : string;
}.

Definition str (k : nat) : string := pretty k.

(** [1 in row] *)
Definition has_1 {A : Type} `{!Value A} (row : list A) : Prop :=
  Exists (λ x, equals_1 x = true) row.

Global Instance has_1_dec {A : Type} `{!Value A} (row : list A) : Decision (has_1 row).
Proof. unfold has_1. apply _. Defined.

(** [row.index(1)]: the first position whose value equals 1. *)
Definition index_1 {A : Type} `{!Value A} (row : list A) : result nat :=
  match list_find (λ x, equals_1 x = true) row with
  | Some (k, _) => Ok k
  | None => Raise ValueError_index
  end.

(** [sep.join(l)]. *)
Definition join (sep : string) (l : list string) : string :=
  match l with
  | [] => ""
  | x :: l' => foldl (λ acc y, acc +:+ sep +:+ y) x l'
  end.

Section decoder.
  Context {float : Type} (p : VRPInstance float).
  Context {A : Type} `{!Value A} (sol : var → A).
  Local Abbreviation nv := (num_vehicles p).
  Local Abbreviation n := (num_customers p).

(** [[x.solution_value for x in self.edge_var[v, current_node, :]]] *)
Definition edge_row (v current_node : nat) : list A :=
  (λ j, sol (edge_var v current_node j)) <$> range n.

(** Lines 97-102, the [while True] loop, [fuel] turns of it at most. *)
Fixpoint trace_route (fuel : nat) (v current_node : nat) (vehicle_i_route : list string)
    : option (result (list string)) :=
  match fuel with
  | 0 => None
  | S fuel' =>
      match index_1 (edge_row v current_node) with
      | Raise e => Some (Raise e)
      | Ok next_node =>
          let vehicle_i_route := vehicle_i_route ++ [str next_node] in
          if bool_decide (next_node = 0) then Some (Ok vehicle_i_route)
          else trace_route fuel' v next_node vehicle_i_route
      end
  end.

(** Lines 88-104 for one vehicle.  [pretty_print_matrix] reads [matrix[0]],
    which raises IndexError on the empty matrix. *)
Definition decode_vehicle (fuel : nat) (v : nat) : option (result (list string)) :=
  if bool_decide (n ≤ 0)%Z then Some (Raise IndexError)
  else
    let first_row_of_edge_matrix := edge_row v 0 in
    if bool_decide (¬ has_1 first_row_of_edge_matrix) then Some (Ok ["0"; "0"])
    else trace_route fuel v 0 [str 0].

(** Lines 87-104: the loop over the vehicles, [vehicle_routes] passed along. *)
Fixpoint decode_vehicles (fuel : nat) (vs : list nat) (vehicle_routes : list (list string))
    : option (result (list (list string))) :=
  match vs with
  | [] => Some (Ok vehicle_routes)
  | v :: vs' =>
      match decode_vehicle fuel v with
      | None => None
      | Some (Raise e) => Some (Raise e)
      | Some (Ok vehicle_i_route) =>
          decode_vehicles fuel vs' (vehicle_routes ++ [vehicle_i_route])
      end
  end.

End decoder.

(** Lines 106-109. *)
Definition sol_string (objective : string) (vehicle_routes : list (list string)) : string :=
  foldl (λ acc vehicle_route, acc +:+ join " " vehicle_route +:+ nl)
        (objective +:+ " 1" +:+ nl) vehicle_routes.

(** [VRPSolver.solve], given what the engine answers. *)
Definition solve {float : Type} (p : VRPInstance float) (answer : option Solution)
    (fuel : nat) : option (result string) :=
  match answer with
  | Some s =>
      match decode_vehicles p (solution_value s) fuel (range (num_vehicles p)) [] with
      | None => None
      | Some (Raise e) => Some (Raise e)
      | Some (Ok vehicle_routes) => Some (Ok (sol_string (objective_text s) vehicle_routes))
      end
  | None => Some (Raise (Exception "no solution found"))
  end.

(** An answer of the engine that reports an integer assignment exactly. *)
Definition exactly (sol : var → Z) : var → Q := λ x, inject_Z (sol x).
Definition answer (sol : var → Z) (objective : string) : Solution :=
  mkSolution (exactly sol) objective.

(** The values [s] equal 1 on the variables where the integer assignment
    [sol] is 1, and on no other. *)
Definition same_ones {A : Type} `{!Value A} (s : var → A) (sol : var → Z) : Prop :=
  ∀ x, equals_1 (s x) = true ↔ sol x = 1%Z.

(** The integer assignment that is 1 where [s] equals 1, and 0 elsewhere. *)
Definition ones {A : Type} `{!Value A} (s : var → A) : var → Z :=
  λ x, if equals_1 (s x) then 1%Z else 0%Z.

(** ** Small instances used in the examples *)

Definition toy (n nv cap : Z) (demand : list Z) : VRPInstance decimal :=
  mkVRPInstance n nv cap demand
    (replicate (Z.to_nat n) (Dec 0 0)) (replicate (Z.to_nat n) (Dec 0 0)).

(** Values 1 on the listed variables, [order] on the order variables, 0 elsewhere. *)
Definition arcs (l : list (nat * nat * nat)) (order : nat → nat → Z) (x : var) : Z :=
  match x with
  | edge_var v i j => if bool_decide ((v, i, j) ∈ l) then 1%Z else 0%Z
  | order_var v i => order v i
  end.

(** ** Notions used in the statements *)

(** The exceptions reading a line can raise. *)
Definition parse_error (e : exn) : Prop :=
  match e with
  | IndexError | ValueError _ => True
  | _ => False
  end.

(** What a piece of the builder adds to the model. *)
Definition adds_vars (f : Model → Model) (vs : list (var * (Z * Z))) : Prop :=
  ∀ m, f m = mkModel (variables m ++ vs) (constraints m) (objective m).
Definition adds_cons (f : Model → Model) (cs : list constraint) : Prop :=
  ∀ m, f m = mkModel (variables m) (constraints m ++ cs) (objective m).

(** The model in closed form, one list per loop of [VRPSolver.__init__]. *)
Section model_parts.
  Context {float : Type} (p : VRPInstance float).
  Local Abbreviation nv := (num_vehicles p).
  Local Abbreviation n := (num_customers p).

Definition edge_bounds (i j : nat) : Z * Z :=
  if bool_decide (i ≠ j) then (0, 1)%Z else (0, 0)%Z.

Definition order_bounds (i : nat) : Z * Z :=
  if bool_decide (i = 0) then (0, 0)%Z else (1, n - 1)%Z.

Definition edge_variables : list (var * (Z * Z)) :=
  v ← range nv; i ← range n; j ← range n; [(edge_var v i j, edge_bounds i j)].

Definition order_variables : list (var * (Z * Z)) :=
  v ← range nv; i ← range n; [(order_var v i, order_bounds i)].

(** The constraints of the flow loop for node [c]. *)
Definition incoming_degree (c : nat) : constraint :=
  ceq (sum_vars (into_all p c)) (lconst 1).
Definition outgoing_degree (c : nat) : constraint :=
  ceq (sum_vars (from_all p c)) (lconst 1).
Definition depot_balance : constraint :=
  ceq (sum_vars (into_all p 0)) (sum_vars (from_all p 0)).
Definition conservation (v c : nat) : constraint :=
  ceq (sum_vars (into_of p v c)) (sum_vars (from_of p v c)).

Definition flow_constraints : list constraint :=
  c ← range n;
  (if bool_decide (c ≠ 0) then [incoming_degree c; outgoing_degree c] else [depot_balance])
  ++ (v ← range nv; [conservation v c]).

Definition depot_constraints : list constraint :=
  v ← range nv;
  [cle (sum_vars (from_of p v 0)) (lconst 1);
   cle (sum_vars (into_of p v 0)) (lconst 1);
   ceq (sum_vars (from_of p v 0)) (sum_vars (into_of p v 0))].

Definition capacity_constraint (v : nat) : constraint :=
  cle (model_sum ((λ c, scal_prod (from_of p v c) (demand_of_customer p)) <$> range n))
      (lconst (vehicle_capacity p)).

Definition capacity_constraints : list constraint :=
  v ← range nv; [capacity_constraint v].

Definition mtz_constraints : list constraint :=
  v ← range nv; i ← seq 1 (Z.to_nat n - 1); j ← seq 1 (Z.to_nat n - 1); [mtz p v i j].

Definition objective_terms : list (var * (nat * nat)) :=
  v ← range nv; i ← range n; j ← range n; [(edge_var v i j, (i, j))].

Definition built_model : Model :=
  mkModel (edge_variables ++ order_variables)
          (flow_constraints ++ depot_constraints ++ capacity_constraints ++ mtz_constraints)
          objective_terms.

(** The coordinate lists reach every node. *)
Definition coords_reach : Prop :=
  (n ≤ Z.of_nat (length (x_coord_of_customer p))
   ∧ n ≤ Z.of_nat (length (y_coord_of_customer p)))%Z.

Global Instance coords_reach_dec : Decision coords_reach.
Proof. unfold coords_reach. apply _. Defined.

(** The lengths [VRPInstance.__init__] gives the three lists. *)
Definition sized : Prop :=
  length (demand_of_customer p) = Z.to_nat n
  ∧ length (x_coord_of_customer p) = Z.to_nat n
  ∧ length (y_coord_of_customer p) = Z.to_nat n.

(** [demand[j]], 0 past the end of the list. *)
Definition demand_at (j : nat) : Z := default 0%Z (demand_of_customer p !! j).

End model_parts.

(** Every square that [distance] takes between two nodes is in range. *)
Definition squares_in_range {float : Type} `{!Platform float} (p : VRPInstance float)
    : Prop :=
  ∀ i j a b,
    (Z.of_nat i < num_customers p)%Z → (Z.of_nat j < num_customers p)%Z →
    (x_coord_of_customer p !! i = Some a ∧ x_coord_of_customer p !! j = Some b)
    ∨ (y_coord_of_customer p !! i = Some a ∧ y_coord_of_customer p !! j = Some b) →
    is_Some (float_square (float_sub a b)).

(** [sum(f(a) for a in l)]. *)
Definition sum_over {A} (l : list A) (f : A → Z) : Z := Zsum (f <$> l).

(** The capacity load as the specification words it: the demand of the
    source [c] times the outgoing flow of vehicle [v] from [c]. *)
Definition spec_capacity_load {float : Type} (p : VRPInstance float) (v : nat)
    (sol : var → Z) : Z :=
  sum_over (range (num_customers p)) (λ c,
    demand_at p c * sum_over (range (num_customers p)) (λ j, sol (edge_var v c j)))%Z.

(** Three nodes, two vehicles; three nodes, one vehicle and demands 3, 3
    under capacity 5; two nodes with a demand above the capacity. *)
Definition toy_two_vehicles : VRPInstance decimal := toy 3 2 10 [0; 4; 6]%Z.
Definition toy_one_vehicle : VRPInstance decimal := toy 3 1 5 [0; 3; 3]%Z.
Definition toy_oversized : VRPInstance decimal := toy 2 1 5 [0; 7]%Z.

(** Vehicle 0 leaves the depot twice, towards 1 and towards 2. *)
Definition fan_out : var → Z := arcs [(0, 0, 1); (0, 0, 2)] (λ _ _, 0%Z).

(** The routes [solve] decodes before it prints them. *)
Definition decoded {float : Type} (p : VRPInstance float) (s : Solution) (fuel : nat)
    : option (result (list (list string))) :=
  decode_vehicles p (solution_value s) fuel (range (num_vehicles p)) [].

(** The load and the arcs of a route given by its nodes, as section 4.3 of
    the specification derives them: the demand of every node the route enters
    that is not the depot, and the pairs of consecutive nodes. *)
Definition route_load {float : Type} (p : VRPInstance float) (nodes : list nat) : Z :=
  sum_over (filter (λ c, c ≠ 0) (tail nodes)) (demand_at p).
Definition route_arcs (nodes : list nat) : list (nat * nat) := zip nodes (tail nodes).

(** Assignments for vehicle 0 on three nodes: the tour 0 -> 2 -> 1 -> 0 with
    positions 2 and 1; a way out of the depot that ends in the cycle
    1 -> 2 -> 1; two selected arcs out of the depot; a tour that leaves
    customer 2 out. *)
Definition tour_021 : var → Z := arcs [(0, 0, 2); (0, 2, 1); (0, 1, 0)] (λ _ i, Z.of_nat i).
Definition two_ways : var → Z := arcs [(0, 0, 1); (0, 0, 2); (0, 1, 0)] (λ _ _, 0%Z).
Definition tour_01 : var → Z := arcs [(0, 0, 1); (0, 1, 0)] (λ _ _, 0%Z).

(** The tour 0 -> 2 -> 1 -> 0 as an engine may report it after rounding:
    with the arc out of the depot at 0.9999999999999999, and with the arc
    2 -> 1 at 1.0000000000000018. *)
Definition rounded_start : var → Q := λ x,
  match x with
  | edge_var 0 0 2 => (9999999999999999 # 10000000000000000)%Q
  | _ => exactly tour_021 x
  end.
Definition rounded_inside : var → Q := λ x,
  match x with
  | edge_var 0 2 1 => (10000000000000018 # 10000000000000000)%Q
  | _ => exactly tour_021 x
  end.

(** Three nodes, one vehicle of capacity 5, demands 9 and 9. *)
Definition toy_heavy : VRPInstance decimal := toy 3 1 5 [0; 9; 9]%Z.

(** Two nodes, the customer at [x = 1e200]. *)
Definition toy_far : VRPInstance decimal :=
  mkVRPInstance 2 1 5 [0; 1]%Z [Dec 0 0; Dec (10 ^ 200) 0] [Dec 0 0; Dec 0 0].

(** ** Tactics *)

(** Case analysis on the first call of a chain of binds that raises. *)
Ltac step_bind H :=
  match type of H with
  | (match ?r with Ok _ => _ | Raise _ => _ end) = Raise _ =>
      let E := fresh "E" in destruct r eqn:E; simpl in H
  end.

(** Case analysis on membership in a list written out. *)
Ltac mem_cases H :=
  repeat match type of H with
    | _ ∈ _ ++ _ => apply elem_of_app in H as [H|H]
    | _ ∈ _ :: _ => apply elem_of_cons in H as [H|H]
    | _ ∈ [] => by apply elem_of_nil in H
    | _ ∈ (if bool_decide _ then _ else _) => case_bool_decide
    end.

(** ** Notions used in the further properties *)

(** The two ends of the arc an edge variable stands for. *)
Definition arc_ends (x : var) : nat * nat :=
  match x with
  | edge_var _ i j => (i, j)
  | order_var _ i => (i, i)
  end.

(** The three constraints of lines 52-54 for vehicle [v]. *)
Definition leaves_once {float : Type} (p : VRPInstance float) (v : nat) : constraint :=
  cle (sum_vars (from_of p v 0)) (lconst 1).
Definition returns_once {float : Type} (p : VRPInstance float) (v : nat) : constraint :=
  cle (sum_vars (into_of p v 0)) (lconst 1).
Definition returns_if_leaves {float : Type} (p : VRPInstance float) (v : nat) : constraint :=
  ceq (sum_vars (from_of p v 0)) (sum_vars (into_of p v 0)).

(** The pairs (vehicle, node) of an instance. *)
Definition vehicle_nodes {float : Type} (p : VRPInstance float) : list (nat * nat) :=
  v ← range (num_vehicles p); i ← range (num_customers p); [(v, i)].

(** [chain p sol v current l]: from [current], the nodes of [l] are the
    successive answers of [row.index(1)] on the rows of vehicle [v]. *)
Fixpoint chain {float : Type} (p : VRPInstance float) {A : Type} `{!Value A}
    (sol : var → A) (v current : nat) (l : list nat) : Prop :=
  match l with
  | [] => True
  | c :: l' => index_1 (edge_row p sol v current) = Ok c ∧ chain p sol v c l'
  end.

(** The route the decoder writes for a tour: the depot, the nodes of the
    tour, the depot, each as [str] prints it. *)
Definition route_of (nodes : list nat) : list string := str <$> (0 :: nodes ++ [0]).

(** ** [solver_.py]: [pretty_print_matrix] *)

(** [s.rjust(width)]: blanks on the left up to [width] characters, [s] itself
    when it is that long already. *)
Fixpoint blanks (k : nat) : string :=
  match k with
  | 0 => ""
  | S k' => String " " (blanks k')
  end.

Definition rjust (s : string) (width : nat) : string :=
  blanks (width - String.length s) +:+ s.

(** [[f(a) for a in l]] when [f] can raise. *)
Fixpoint comprehension {A B} (f : A → result B) (l : list A) : result (list B) :=
  match l with
  | [] => Ok []
  | a :: l' => b ← f a; bs ← comprehension f l'; Ok (b :: bs)
  end.

(** [enumerate(row)] *)
Definition enumerate {A} (row : list A) : list (nat * A) := imap pair row.

Section pretty_print.
  Context {A : Type} (str_of : A → string).

(** [max(len(str(row[col])) for row in matrix)].  [max] is never given an
    empty sequence here: [matrix[0]] has been read before. *)
Definition col_width (matrix : list (list A)) (col : nat) : result nat :=
  lens ← comprehension (λ row, val ← getitem row col; Ok (String.length (str_of val))) matrix;
  Ok (max_list lens).

(** The argument of [print] for one row. *)
Definition print_row (col_widths : list nat) (sep : string) (row : list A) : result string :=
  cells ← comprehension (λ iv, w ← getitem col_widths iv.1; Ok (rjust (str_of iv.2) w))
                        (enumerate row);
  Ok (join sep cells).

(** The loop of lines 127-129: the lines printed, and how the loop ends. *)
Fixpoint print_rows (col_widths : list nat) (sep : string) (rows : list (list A))
    : list string * result () :=
  match rows with
  | [] => ([], Ok ())
  | row :: rows' =>
      match print_row col_widths sep row with
      | Raise e => ([], Raise e)
      | Ok line =>
          let out := print_rows col_widths sep rows' in (line :: out.1, out.2)
      end
  end.

(** [pretty_print_matrix(matrix, sep)], the cells shown by [str_of]: the
    lines printed, and how the call ends. *)
Definition pretty_print_matrix (matrix : list (list A)) (sep : string)
    : list string * result () :=
  match (row0 ← getitem matrix 0;
         let num_cols := length row0 in
         comprehension (col_width matrix) (seq 0 num_cols)) with
  | Raise e => ([], Raise e)
  | Ok col_widths => print_rows col_widths sep matrix
  end.

End pretty_print.

(** The matrix [solve] prints for vehicle [v] (line 89). *)
Definition edge_matrix {float : Type} (p : VRPInstance float) {A : Type} (sol : var → A)
    (v : nat) : list (list A) :=
  (λ i, edge_row p sol v i) <$> range (num_customers p).

(** ** [main.py] *)

(** [main], given the world around it: the command line, the text files by
    path (none where no file is), and what the engine answers on a model.
    The result is what is written to [./vrp.sol], nothing after the usage
    line.  The prints are left out, and so is [Timer], of a module that is
    not in the repository: a stopwatch whose reading only enters the JSON
    line printed last. *)
Section main_py.
  Context {float : Type} `{!Platform float} (float_zero : float).
  Context (py_int : pystr → parsed Z) (py_float : pystr → parsed float).
  Context (files : pystr → option (list pystr)) (engine : Model → option Solution).

Definition main (argv : list pystr) (fuel : nat) : option (result (option string)) :=
  if bool_decide (length argv < 2) then Some (Ok None)
  else
    match (input_file ← getitem argv 1;
           instance ← VRPInstance_init float_zero py_int py_float input_file
                        (files input_file);
           solver ← build instance;
           Ok (instance, solver)) with
    | Raise e => Some (Raise e)
    | Ok (instance, solver) =>
        match solve instance (engine solver) fuel with
        | None => None
        | Some (Raise e) => Some (Raise e)
        | Some (Ok sol_string) => Some (Ok (Some sol_string))
        end
    end.

End main_py.

(** ** Notions used for the printed routes *)

(** A token: not empty, no blank in it. *)
Fixpoint blank_free (s : pystr) : bool :=
  match s with
  | [] => true
  | a :: s' => negb (py_isspace a) && blank_free s'
  end.

Definition token (s : pystr) : Prop := s ≠ [] ∧ blank_free s = true.

(** The file of the instance [toy_two_vehicles] with coordinates, and an
    engine that answers the tour 0 -> 2 -> 1 -> 0 where it satisfies the
    model. *)
Definition toy_file : list pystr := ["3 2 10"; "0 0 0"; "4 1 0"; "6 0 1"].
Definition toy_read : VRPInstance decimal :=
  mkVRPInstance 3 2 10 [0; 4; 6]%Z [Dec 0 0; Dec 1 0; Dec 0 0] [Dec 0 0; Dec 0 0; Dec 1 0].
Definition toy_engine (m : Model) : option Solution :=
  if bool_decide (feasible m tour_021) then Some (answer tour_021 "3.4") else None.

(** ** Plans *)

(** A plan gives every vehicle its tour: the customers it visits, in order;
    none for a vehicle that stays at the depot. *)

(** The arcs of a tour. *)
Definition tour_arcs (nodes : list nat) : list (nat * nat) :=
  match nodes with
  | [] => []
  | _ => route_arcs (0 :: nodes ++ [0])
  end.

(** The place of customer [i] on a tour, counted from its end; 1 for a
    customer that is not on it. *)
Definition place (nodes : list nat) (i : nat) : Z :=
  match list_find (λ c, c = i) nodes with
  | Some (k, _) => Z.of_nat (length nodes - k)
  | None => 1
  end.

(** The assignment of a plan: 1 on the arcs of the tours, the places as
    positions. *)
Definition plan_assignment (tours : list (list nat)) (x : var) : Z :=
  match x with
  | edge_var v i j =>
      if bool_decide ((i, j) ∈ tour_arcs (default [] (tours !! v))) then 1%Z else 0%Z
  | order_var v i =>
      if bool_decide (i = 0) then 0%Z else place (default [] (tours !! v)) i
  end.

(** A plan for an instance: one tour per vehicle, every customer on one tour
    and once on it, no tour above the capacity. *)
Definition valid_plan {float : Type} (p : VRPInstance float) (tours : list (list nat)) : Prop :=
  length tours = Z.to_nat (num_vehicles p)
  ∧ mjoin tours ≡ₚ seq 1 (Z.to_nat (num_customers p) - 1)
  ∧ Forall (λ nodes, (route_load p (0%nat :: nodes ++ [0%nat]) ≤ vehicle_capacity p)%Z)
           tours.


(** * Properties *)

(** ** Sanity checks of the embedding *)

Example read_file_ok :
  read_file "toy.vrp" (Some ["3 2 10" +:+ nl; "0 0 0" +:+ nl; "4 1.5 -2" +:+ nl; "6 3 4." +:+ nl])
  = Ok (mkVRPInstance 3 2 10 [0; 4; 6]%Z
          [Dec 0 0; Dec 15 1; Dec 3 0] [Dec 0 0; Dec (-2) 0; Dec 4 0]).
Proof. vm_compute. reflexivity. Qed.

(** Blanks outside ASCII separate the fields as well: here U+00A0 and
    U+2003 on the first line. *)
Example wide_blanks :
  split ("3" +:+ [160%N] +:+ "1" +:+ [8195%N] +:+ "10" +:+ nl) = ["3"; "1"; "10"]
  ∧ read_file "f.vrp" (Some [("3" +:+ [160%N] +:+ "1" +:+ [8195%N] +:+ "10" +:+ nl)%pystr;
                            "7 2.5 4"])
    = Ok (mkVRPInstance 3 1 10 [7; 0; 0]%Z
            [Dec 25 1; Dec 0 0; Dec 0 0] [Dec 4 0; Dec 0 0; Dec 0 0]).
Proof. split; vm_compute; reflexivity. Qed.

Example build_toy_counts :
  (λ m, (length (variables m), length (constraints m), length (objective m)))
    <$> match build (toy 3 2 10 [0; 4; 6]%Z) with Ok m => Some m | Raise _ => None end
  = Some (24, 5 + 6 + 6 + 2 + 8, 18).
Proof. vm_compute. reflexivity. Qed.

Example solve_toy :
  solve (toy 3 2 10 [0; 4; 6]%Z)
    (Some (answer (arcs [(0, 0, 2); (0, 2, 1); (0, 1, 0)] (λ _ i, Z.of_nat i)) "7.5")) 3
  = Some (Ok ("7.5 1" +:+ nl +:+ "0 2 1 0" +:+ nl +:+ "0 0" +:+ nl)).
Proof. vm_compute. reflexivity. Qed.

Example feasible_toy :
  ∃ m, build (toy 3 2 10 [0; 4; 6]%Z) = Ok m
       ∧ feasible m (arcs [(0, 0, 2); (0, 2, 1); (0, 1, 0)] (λ _ i, Z.of_nat i)).
Proof. eexists. split; [vm_compute; reflexivity|]. apply (bool_decide_unpack _). vm_compute. exact I. Qed.

(** ** Results and loops *)

Lemma bind_Ok {A B} (f : A → result B) (a : A) : Ok a ≫= f = f a.
Proof. reflexivity. Qed.

Lemma for_r_cons {A S} (a : A) (l : list A) (body : A → S → result S) (s : S) :
  for_r (a :: l) body s = body a s ≫= for_r l body.
Proof. reflexivity. Qed.

(** A loop whose body never raises on its items is the plain loop. *)
Lemma for_r_pure {A S} (l : list A) (body : A → S → result S) (body' : A → S → S) (s : S) :
  (∀ a s, a ∈ l → body a s = Ok (body' a s)) →
  for_r l body s = Ok (for_ l body' s).
Proof.
  revert s. induction l as [|a l IH]; intros s Hb; [reflexivity|].
  simpl. rewrite Hb by left. simpl. apply IH. intros b s' Hin. apply Hb. by right.
Qed.

(** A loop one of whose items always raises, raises (at that item or before). *)
Lemma for_r_raise {A S} (P : exn → Prop) (l : list A) (body : A → S → result S) (i : A) :
  i ∈ l →
  (∀ s, ∃ e, body i s = Raise e) →
  (∀ a s e, body a s = Raise e → P e) →
  ∀ s, ∃ e, for_r l body s = Raise e ∧ P e.
Proof.
  intros Hin Hbad HP. induction l as [|a l IH]; intros s.
  { by apply elem_of_nil in Hin. }
  simpl. destruct (body a s) as [s'|e] eqn:Hbody.
  - apply elem_of_cons in Hin as [->|Hin].
    + destruct (Hbad s) as [e He]. congruence.
    + simpl. by apply IH.
  - exists e. split; [reflexivity|]. by eapply HP.
Qed.

(** What a loop raises, its body raised. *)
Lemma for_r_Raise {A S} (P : exn → Prop) (l : list A) (body : A → S → result S) :
  (∀ a s e, body a s = Raise e → P e) →
  ∀ s e, for_r l body s = Raise e → P e.
Proof.
  intros HP. induction l as [|a l IH]; intros s e; [discriminate|].
  rewrite for_r_cons. destruct (body a s) as [s'|e'] eqn:Hb; simpl.
  - apply IH.
  - intros [= <-]. by eapply HP.
Qed.

(** What a loop raises, its body raised at one of the items. *)
Lemma for_r_Raise_elem {A S} (P : exn → Prop) (l : list A) (body : A → S → result S) :
  (∀ a s e, a ∈ l → body a s = Raise e → P e) →
  ∀ s e, for_r l body s = Raise e → P e.
Proof.
  induction l as [|a l IH]; intros HP s e; [discriminate|].
  rewrite for_r_cons. destruct (body a s) as [s'|e'] eqn:Hb; simpl.
  - apply IH. intros b s0 e0 Hin. apply HP. by right.
  - intros [= <-]. apply (HP a s); [by left|done].
Qed.

(** A loop that returns has had every turn return. *)
Lemma for_r_Ok_elem {A S} (l : list A) (body : A → S → result S) (s s' : S) (a : A) :
  for_r l body s = Ok s' → a ∈ l → ∃ s1 s2, body a s1 = Ok s2.
Proof.
  revert s. induction l as [|b l IH]; intros s Hloop Hin.
  { by apply elem_of_nil in Hin. }
  rewrite for_r_cons in Hloop.
  destruct (body b s) as [s1|e] eqn:Hb; simpl in Hloop; [|discriminate].
  apply elem_of_cons in Hin as [->|Hin]; [by exists s, s1|]. by apply (IH s1).
Qed.

(** A loop that raises does so at a first item, after the turns before it. *)
Lemma for_r_Raise_first {A S} (l : list A) (body : A → S → result S) (s : S) (e : exn) :
  for_r l body s = Raise e →
  ∃ l1 a l2 s', l = l1 ++ a :: l2 ∧ for_r l1 body s = Ok s' ∧ body a s' = Raise e.
Proof.
  revert s. induction l as [|a l IH]; intros s; [discriminate|].
  rewrite for_r_cons. destruct (body a s) as [s1|e1] eqn:Hb; simpl.
  - intros (l1 & b & l2 & s' & -> & Hl1 & Hb')%IH.
    exists (a :: l1), b, l2, s'. split_and!; [done| |done].
    by rewrite for_r_cons, Hb.
  - intros [= <-]. by exists [], a, l, s.
Qed.

Lemma elem_of_range (n : Z) (k : nat) : k ∈ range n ↔ (Z.of_nat k < n)%Z.
Proof. unfold range. rewrite elem_of_seq. lia. Qed.

Lemma length_range (n : Z) : length (range n) = Z.to_nat n.
Proof. apply length_seq. Qed.

Lemma lookup_range (n : Z) (k : nat) : (Z.of_nat k < n)%Z → range n !! k = Some k.
Proof. intros. unfold range. rewrite lookup_seq. split; [done|lia]. Qed.

(** The items of a range before one of them. *)
Lemma range_split (n : Z) (l1 l2 : list nat) (a : nat) :
  range n = l1 ++ a :: l2 → (Z.of_nat a < n)%Z ∧ ∀ j, j < a → j ∈ l1.
Proof.
  intros Hsplit.
  assert (range n !! length l1 = Some a) as Ha
    by (rewrite Hsplit; apply list_lookup_middle; done).
  unfold range in Ha. apply lookup_seq in Ha as [Ha Hlt]. simpl in Ha. subst a.
  split; [lia|]. intros j Hj.
  assert (range n !! j = Some j) as Hjj by (apply lookup_range; lia).
  rewrite Hsplit, lookup_app_l in Hjj by done. by eapply list_elem_of_lookup_2.
Qed.

(** ** The instance reader *)

Section vrp_instance_facts.
  Context {float : Type} `{!Platform float} (float_zero : float).
  Context (py_int : pystr → parsed Z) (py_float : pystr → parsed float).

Lemma getitem_error {A} (l : list A) (i : nat) (e : exn) :
  getitem l i = Raise e → parse_error e.
Proof. unfold getitem. destruct (l !! i); [discriminate|]. by intros [= <-]. Qed.

Lemma int_error (tok : pystr) (e : exn) : int_ py_int tok = Raise e → parse_error e.
Proof. unfold int_. destruct (py_int tok); [discriminate|]. by intros [= <-]. Qed.

Lemma float_error (tok : pystr) (e : exn) : float_ py_float tok = Raise e → parse_error e.
Proof. unfold float_. destruct (py_float tok); [discriminate|]. by intros [= <-]. Qed.

Lemma parse_first_line_error (line : pystr) (e : exn) :
  parse_first_line py_int line = Raise e → parse_error e.
Proof.
  unfold parse_first_line, mbind, result_bind. intros H.
  repeat (step_bind H;
          [|injection H as <-; eauto using @getitem_error, int_error]).
  discriminate.
Qed.

Lemma parse_customer_line_error (line : pystr) (e : exn) :
  parse_customer_line py_int py_float line = Raise e → parse_error e.
Proof.
  unfold parse_customer_line, mbind, result_bind. intros H.
  repeat (step_bind H;
          [|injection H as <-; eauto using @getitem_error, int_error, float_error]).
  discriminate.
Qed.

Lemma parse_customer_error (lines : list pystr) (i : nat) (st : arrays) (e : exn) :
  parse_customer py_int py_float lines i st = Raise e → parse_error e.
Proof.
  destruct st as [[demand xs] ys]. unfold parse_customer.
  case_bool_decide; [|discriminate].
  destruct (getitem lines (i + 1)) as [line|e'] eqn:Hline; simpl.
  - destruct (parse_customer_line py_int py_float line) as [[[d x] y]|e'] eqn:Hp;
      simpl; [discriminate|].
    intros [= <-]. by eapply parse_customer_line_error.
  - intros [= <-]. by eapply @getitem_error.
Qed.

(** A customer line that is there and does not parse stops the loop turn. *)
Lemma parse_customer_bad (lines : list pystr) (i : nat) (line : pystr) (e : exn) :
  lines !! (i + 1) = Some line →
  parse_customer_line py_int py_float line = Raise e →
  ∀ st, parse_customer py_int py_float lines i st = Raise e.
Proof.
  intros Hl Hp [[demand xs] ys]. unfold parse_customer.
  apply lookup_lt_Some in Hl as Hlt. rewrite bool_decide_eq_true_2 by done.
  unfold getitem. rewrite Hl. simpl. by rewrite Hp.
Qed.

(** What a turn of the loop does to the arrays. *)
Lemma parse_customer_Ok (lines : list pystr) (i : nat) (demand : list Z) (xs ys : list float) :
  (∀ line, lines !! (i + 1) = Some line → is_Ok (parse_customer_line py_int py_float line)) →
  ∃ demand' xs' ys',
    parse_customer py_int py_float lines i (demand, xs, ys) = Ok (demand', xs', ys')
    ∧ length demand' = length demand ∧ length xs' = length xs ∧ length ys' = length ys
    ∧ ∀ k, (k ≠ i ∨ length lines ≤ i + 1) →
        demand' !! k = demand !! k ∧ xs' !! k = xs !! k ∧ ys' !! k = ys !! k.
Proof.
  intros Hok. unfold parse_customer. case_bool_decide as Hlt.
  - destruct (lookup_lt_is_Some_2 lines (i + 1) Hlt) as [line Hl].
    destruct (Hok line Hl) as [[[d x] y] Hp].
    unfold getitem. rewrite Hl. simpl. rewrite Hp. simpl.
    eexists _, _, _. split; [reflexivity|]. rewrite !length_insert.
    split_and!; [done..|]. intros k [Hk|Hk]; [|lia].
    by rewrite !list_lookup_insert_ne.
  - eexists _, _, _. split; [reflexivity|]. by split_and!.
Qed.

Lemma parse_customers_Ok (lines : list pystr) (idx : list nat)
    (demand : list Z) (xs ys : list float) :
  (∀ i line, i ∈ idx → lines !! (i + 1) = Some line →
             is_Ok (parse_customer_line py_int py_float line)) →
  ∃ demand' xs' ys',
    for_r idx (parse_customer py_int py_float lines) (demand, xs, ys) = Ok (demand', xs', ys')
    ∧ length demand' = length demand ∧ length xs' = length xs ∧ length ys' = length ys
    ∧ ∀ k, length lines ≤ k + 1 →
        demand' !! k = demand !! k ∧ xs' !! k = xs !! k ∧ ys' !! k = ys !! k.
Proof.
  revert demand xs ys. induction idx as [|i idx IH]; intros demand xs ys Hok.
  { eexists _, _, _. split; [reflexivity|]. by split_and!. }
  destruct (parse_customer_Ok lines i demand xs ys) as (d1 & x1 & y1 & H1 & Ld & Lx & Ly & Hk1).
  { intros line Hl. apply (Hok i line); [by left|done]. }
  destruct (IH d1 x1 y1) as (d2 & x2 & y2 & H2 & Ld2 & Lx2 & Ly2 & Hk2).
  { intros j line Hj. apply Hok. by right. }
  exists d2, x2, y2. rewrite for_r_cons, H1, bind_Ok. split; [done|].
  split_and!; [congruence..|]. intros k Hk.
  destruct (Hk2 k Hk) as (-> & -> & ->).
  destruct (decide (k = i)) as [->|Hne]; apply Hk1; auto.
Qed.

(** The reader leaves the three lists at the length it gave them. *)
Lemma parse_customer_length (lines : list pystr) (i : nat) (st st' : arrays) :
  parse_customer py_int py_float lines i st = Ok st' →
  length st'.1.1 = length st.1.1 ∧ length st'.1.2 = length st.1.2
  ∧ length st'.2 = length st.2.
Proof.
  destruct st as [[demand xs] ys]. unfold parse_customer.
  case_bool_decide; [|by intros [= <-]].
  destruct (getitem lines (i + 1)) as [line|e]; simpl; [|discriminate].
  destruct (parse_customer_line py_int py_float line) as [[[d x] y]|e]; simpl; [|discriminate].
  intros [= <-]. simpl. by rewrite !length_insert.
Qed.

Lemma parse_customers_length (lines : list pystr) (idx : list nat) (st st' : arrays) :
  for_r idx (parse_customer py_int py_float lines) st = Ok st' →
  length st'.1.1 = length st.1.1 ∧ length st'.1.2 = length st.1.2
  ∧ length st'.2 = length st.2.
Proof.
  revert st. induction idx as [|i idx IH]; intros st; [by intros [= <-]|].
  rewrite for_r_cons.
  destruct (parse_customer py_int py_float lines i st) as [st1|e] eqn:H1; simpl; [|discriminate].
  intros H2. apply parse_customer_length in H1 as (<- & <- & <-). by apply IH.
Qed.

(** The reader after its first line: the three lists are made, or none. *)
Lemma read_instance_eq (lines : list pystr) (line0 : pystr) (n nv cap : Z) :
  lines !! 0 = Some line0 →
  parse_first_line py_int line0 = Ok (n, nv, cap) →
  read_instance float_zero py_int py_float lines
  = match list_refused n with
    | Some msg => Raise (AllocationError msg)
    | None =>
        st ← for_r (range n) (parse_customer py_int py_float lines)
               (replicate (Z.to_nat n) 0%Z, replicate (Z.to_nat n) float_zero,
                replicate (Z.to_nat n) float_zero);
        Ok (mkVRPInstance n nv cap st.1.1 st.1.2 st.2)
    end.
Proof.
  intros H0 Hh. unfold read_instance, getitem, list_times.
  rewrite H0, bind_Ok, Hh, bind_Ok.
  destruct (list_refused n) as [msg|]; [done|]. rewrite !bind_Ok.
  by destruct (for_r _ _ _) as [[[demand xs] ys]|e].
Qed.

Lemma VRPInstance_init_sized (file_name : pystr) (file : option (list pystr))
    (inst : VRPInstance float) :
  VRPInstance_init float_zero py_int py_float file_name file = Ok inst → sized inst.
Proof.
  unfold VRPInstance_init. destruct file as [lines|]; [|discriminate].
  destruct (read_instance float_zero py_int py_float lines) as [inst'|e] eqn:Hr; [|discriminate].
  intros [= ->].
  destruct (lines !! 0) as [line0|] eqn:H0.
  2:{ unfold read_instance, getitem in Hr. rewrite H0 in Hr. discriminate. }
  destruct (parse_first_line py_int line0) as [[[n nv] cap]|e] eqn:Hh.
  2:{ unfold read_instance, getitem in Hr. rewrite H0, bind_Ok, Hh in Hr. discriminate. }
  rewrite (read_instance_eq lines line0 n nv cap H0 Hh) in Hr.
  destruct (list_refused n); [discriminate|].
  destruct (for_r _ _ _) as [[[demand xs] ys]|e] eqn:Hloop; simpl in Hr; [|discriminate].
  injection Hr as <-. apply parse_customers_length in Hloop. simpl in Hloop.
  rewrite !length_replicate in Hloop. done.
Qed.

(** A turn of the loop raises what the line it reads raises. *)
Lemma parse_customer_Raise (lines : list pystr) (i : nat) (st : arrays) (e : exn) :
  parse_customer py_int py_float lines i st = Raise e →
  ∃ line, lines !! (i + 1) = Some line
          ∧ parse_customer_line py_int py_float line = Raise e.
Proof.
  destruct st as [[demand xs] ys]. unfold parse_customer, getitem.
  case_bool_decide as Hlt; [|discriminate].
  destruct (lookup_lt_is_Some_2 lines (i + 1) Hlt) as [line Hl]. rewrite Hl. simpl.
  destruct (parse_customer_line py_int py_float line) as [[[d x] y]|e'] eqn:Hp;
    simpl; [discriminate|].
  intros [= <-]. by exists line.
Qed.

(** C9 (as amended).  A first line that is missing or does not parse, or a
    customer line that is read (index [i < num_customers], line [i + 1] in the
    file) and has a missing or non-numeric field, makes the construction
    fail: the handler prints the file name and the text of the exception
    raised and exits with -1; no instance comes back.  The exception is the
    one of the first line, or the error of the three lists when they cannot
    be made, or the one of the first customer line that does not parse: the
    IndexError of a missing field or the ValueError of [int] or [float], with
    the text Python gives it; no line number. *)
Theorem malformed_field_exits (file_name : pystr) (lines : list pystr) :
  ((∃ e, getitem lines 0 ≫= parse_first_line py_int = Raise e)
   ∨ (∃ line0 n nv cap i line e,
        lines !! 0 = Some line0 ∧ parse_first_line py_int line0 = Ok (n, nv, cap)
        ∧ (Z.of_nat i < n)%Z ∧ lines !! (i + 1) = Some line
        ∧ parse_customer_line py_int py_float line = Raise e)) →
  ∃ e,
    (getitem lines 0 ≫= parse_first_line py_int = Raise e
     ∨ ∃ line0 n nv cap,
         lines !! 0 = Some line0 ∧ parse_first_line py_int line0 = Ok (n, nv, cap)
         ∧ ((∃ msg, list_refused n = Some msg ∧ e = AllocationError msg)
            ∨ (list_refused n = None
               ∧ ∃ i line,
                   (Z.of_nat i < n)%Z ∧ lines !! (i + 1) = Some line
                   ∧ parse_customer_line py_int py_float line = Raise e
                   ∧ ∀ j line', j < i → lines !! (j + 1) = Some line' →
                       is_Ok (parse_customer_line py_int py_float line'))))
    ∧ (parse_error e ∨ ∃ msg, e = AllocationError msg)
    ∧ VRPInstance_init float_zero py_int py_float file_name (Some lines)
      = Raise (SystemExit (-1)
                 ("Error: in VRPInstance() " +:+ file_name +:+ nl +:+ str_exn e)).
Proof.
  intros Hbad.
  assert (∃ e,
            (getitem lines 0 ≫= parse_first_line py_int = Raise e
             ∨ ∃ line0 n nv cap,
                 lines !! 0 = Some line0 ∧ parse_first_line py_int line0 = Ok (n, nv, cap)
                 ∧ ((∃ msg, list_refused n = Some msg ∧ e = AllocationError msg)
                    ∨ (list_refused n = None
                       ∧ ∃ i line,
                           (Z.of_nat i < n)%Z ∧ lines !! (i + 1) = Some line
                           ∧ parse_customer_line py_int py_float line = Raise e
                           ∧ ∀ j line', j < i → lines !! (j + 1) = Some line' →
                               is_Ok (parse_customer_line py_int py_float line'))))
            ∧ (parse_error e ∨ ∃ msg, e = AllocationError msg)
            ∧ read_instance float_zero py_int py_float lines = Raise e)
    as (e & Hwhy & He & Hr).
  { destruct Hbad as [[e He]|(line0 & n & nv & cap & i & line & e & H0 & Hh & Hi & Hl & Hp)].
    - exists e. split; [by left|]. unfold read_instance.
      destruct (getitem lines 0) as [line0|e0] eqn:H0; simpl in He |- *.
      + rewrite He. split; [left; by eapply parse_first_line_error|done].
      + injection He as <-. split; [left; by eapply @getitem_error|done].
    - rewrite (read_instance_eq lines line0 n nv cap H0 Hh).
      destruct (list_refused n) as [msg|] eqn:Hn.
      { exists (AllocationError msg). split_and!; [|right; by exists msg|done].
        right. exists line0, n, nv, cap. split_and!; [done..|]. left. by exists msg. }
      destruct (for_r_raise parse_error (range n) (parse_customer py_int py_float lines) i) with
        (s := (replicate (Z.to_nat n) 0%Z, replicate (Z.to_nat n) float_zero,
               replicate (Z.to_nat n) float_zero)) as (e' & He' & HP).
      + by apply elem_of_range.
      + intros st. exists e. by eapply parse_customer_bad.
      + apply parse_customer_error.
      + exists e'. rewrite He'. split_and!; [|by left|done].
        right. exists line0, n, nv, cap. split_and!; [done..|]. right. split; [done|].
        apply for_r_Raise_first in He' as (l1 & a & l2 & st & Hsplit & Hl1 & Ha).
        apply range_split in Hsplit as [Han Hbefore].
        apply parse_customer_Raise in Ha as (line_a & Hla & Hpa).
        exists a, line_a. split_and!; [done..|].
        intros j line' Hj Hl'.
        destruct (parse_customer_line py_int py_float line') as [r|e''] eqn:Hp'';
          [by exists r|].
        destruct (for_r_Ok_elem _ _ _ _ j Hl1 (Hbefore j Hj)) as (s1 & s2 & Hok).
        by rewrite (parse_customer_bad lines j line' e'' Hl' Hp'' s1) in Hok. }
  exists e. split_and!; [done..|]. unfold VRPInstance_init. by rewrite Hr.
Qed.

(** C10 (as amended).  A file whose first line declares [n] customers and
    which has fewer than [n + 1] lines is accepted exactly when the three
    lists of [n] entries can be made and the customer lines that are there
    parse; the instance then has the three numbers of the first line, and
    every customer index with no line of its own keeps demand 0 and
    coordinates (0.0, 0.0). *)
Theorem missing_lines_get_defaults (file_name : pystr) (lines : list pystr)
    (line0 : pystr) (n nv cap : Z) :
  lines !! 0 = Some line0 →
  parse_first_line py_int line0 = Ok (n, nv, cap) →
  (Z.of_nat (length lines) < n + 1)%Z →
  (is_Ok (VRPInstance_init float_zero py_int py_float file_name (Some lines))
   ↔ list_refused n = None
     ∧ ∀ i line, lines !! (i + 1) = Some line →
                 is_Ok (parse_customer_line py_int py_float line))
  ∧ ∀ inst,
      VRPInstance_init float_zero py_int py_float file_name (Some lines) = Ok inst →
      num_customers inst = n ∧ num_vehicles inst = nv ∧ vehicle_capacity inst = cap
      ∧ ∀ i, (Z.of_nat i < n)%Z → length lines ≤ i + 1 →
          demand_of_customer inst !! i = Some 0%Z
          ∧ x_coord_of_customer inst !! i = Some float_zero
          ∧ y_coord_of_customer inst !! i = Some float_zero.
Proof.
  intros H0 Hh Hshort. unfold VRPInstance_init.
  rewrite (read_instance_eq lines line0 n nv cap H0 Hh).
  destruct (list_refused n) as [msg|] eqn:Hroom.
  { split; [|discriminate]. split; [intros [inst Hinst]; discriminate|].
    intros [? _]. discriminate. }
  destruct (for_r (range n) (parse_customer py_int py_float lines) _)
    as [[[demand xs] ys]|e] eqn:Hloop; simpl.
  - assert (∀ i line, lines !! (i + 1) = Some line →
                      is_Ok (parse_customer_line py_int py_float line)) as Hok.
    { intros i line Hl.
      destruct (parse_customer_line py_int py_float line) as [r|e] eqn:Hp; [by exists r|].
      apply lookup_lt_Some in Hl as Hlt.
      destruct (for_r_raise (λ _, True) (range n) (parse_customer py_int py_float lines) i)
        with (s := (replicate (Z.to_nat n) 0%Z, replicate (Z.to_nat n) float_zero,
                    replicate (Z.to_nat n) float_zero)) as (e' & He' & _).
      + apply elem_of_range. lia.
      + intros st. exists e. by eapply parse_customer_bad.
      + done.
      + rewrite He' in Hloop. discriminate. }
    split; [split; [done|intros _; by eexists]|].
    intros inst [= <-]. simpl. split_and!; [done..|]. intros i Hi Hmiss.
    destruct (parse_customers_Ok lines (range n) (replicate (Z.to_nat n) 0%Z)
                (replicate (Z.to_nat n) float_zero) (replicate (Z.to_nat n) float_zero))
      as (demand' & xs' & ys' & Hloop' & _ & _ & _ & Hkeep).
    { intros j line _. apply Hok. }
    rewrite Hloop' in Hloop. injection Hloop as <- <- <-.
    destruct (Hkeep i Hmiss) as (-> & -> & ->).
    by rewrite !lookup_replicate_2 by lia.
  - split; [|discriminate]. split; [intros [inst Hinst]; discriminate|].
    intros [_ Hok].
    destruct (parse_customers_Ok lines (range n) (replicate (Z.to_nat n) 0%Z)
                (replicate (Z.to_nat n) float_zero) (replicate (Z.to_nat n) float_zero))
      as (demand' & xs' & ys' & Hloop' & _).
    { intros j line _. apply Hok. }
    rewrite Hloop' in Hloop. discriminate.
Qed.

End vrp_instance_facts.

(** C9, witness: a non-numeric demand on the second customer line. *)
Lemma malformed_field_exits_witness :
  ∃ e,
    (getitem (["2 1 10"; "0 0 0"; "x 1 1"] : list pystr) 0 ≫= parse_first_line ascii_int
     = Raise e
     ∨ ∃ line0 n nv cap,
         (["2 1 10"; "0 0 0"; "x 1 1"] : list pystr) !! 0 = Some line0
         ∧ parse_first_line ascii_int line0 = Ok (n, nv, cap)
         ∧ ((∃ msg, list_refused n = Some msg ∧ e = AllocationError msg)
            ∨ (list_refused n = None
               ∧ ∃ i line,
                   (Z.of_nat i < n)%Z
                   ∧ (["2 1 10"; "0 0 0"; "x 1 1"] : list pystr) !! (i + 1) = Some line
                   ∧ parse_customer_line ascii_int ascii_float line = Raise e
                   ∧ ∀ j line', j < i →
                       (["2 1 10"; "0 0 0"; "x 1 1"] : list pystr) !! (j + 1) = Some line' →
                       is_Ok (parse_customer_line ascii_int ascii_float line'))))
    ∧ (parse_error e ∨ ∃ msg, e = AllocationError msg)
    ∧ read_file "bad.vrp" (Some ["2 1 10"; "0 0 0"; "x 1 1"])
      = Raise (SystemExit (-1)
                 ("Error: in VRPInstance() " +:+ "bad.vrp" +:+ nl +:+ str_exn e)).
Proof.
  apply (malformed_field_exits (Dec 0 0) ascii_int ascii_float).
  right. exists "2 1 10", 2%Z, 1%Z, 10%Z, 1, "x 1 1",
           (ValueError "invalid literal for int() with base 10: 'x'").
  split_and!; [reflexivity|reflexivity|lia|reflexivity|reflexivity].
Defined.

(** C9 as stated fails.  A file that declares 3 customers and has one
    customer line is read without any error; and the error text of a
    non-numeric field is the same whichever line holds it. *)
Lemma short_file_is_accepted :
  read_file "short.vrp" (Some ["3 1 10"; "0 0 0"])
  = Ok (mkVRPInstance 3 1 10 [0; 0; 0]%Z
          [Dec 0 0; Dec 0 0; Dec 0 0] [Dec 0 0; Dec 0 0; Dec 0 0])
  ∧ read_file "f.vrp" (Some ["3 1 10"; "x 0 0"; "1 1 1"; "1 2 2"])
    = read_file "f.vrp" (Some ["3 1 10"; "0 0 0"; "1 1 1"; "x 2 2"])
  ∧ read_file "f.vrp" (Some ["3 1 10"; "x 0 0"; "1 1 1"; "1 2 2"])
    = Raise (SystemExit (-1)
               ("Error: in VRPInstance() f.vrp" +:+ nl
                +:+ "invalid literal for int() with base 10: 'x'")).
Proof. split_and!; vm_compute; reflexivity. Qed.

(** C10, witness: three customers declared, one customer line present; the
    file is accepted. *)
Lemma missing_lines_get_defaults_witness :
  ((is_Ok (read_file "short.vrp" (Some ["3 1 10"; "7 2.5 4"]))
    ↔ list_refused 3 = None
      ∧ ∀ i line, (["3 1 10"; "7 2.5 4"] : list pystr) !! (i + 1) = Some line →
                  is_Ok (parse_customer_line ascii_int ascii_float line))
   ∧ ∀ inst,
       read_file "short.vrp" (Some ["3 1 10"; "7 2.5 4"]) = Ok inst →
       num_customers inst = 3%Z ∧ num_vehicles inst = 1%Z ∧ vehicle_capacity inst = 10%Z
       ∧ ∀ i, (Z.of_nat i < 3)%Z → length (["3 1 10"; "7 2.5 4"] : list pystr) ≤ i + 1 →
           demand_of_customer inst !! i = Some 0%Z
           ∧ x_coord_of_customer inst !! i = Some (Dec 0 0)
           ∧ y_coord_of_customer inst !! i = Some (Dec 0 0))
  ∧ read_file "short.vrp" (Some ["3 1 10"; "7 2.5 4"])
    = Ok (mkVRPInstance 3 1 10 [7; 0; 0]%Z
            [Dec 25 1; Dec 0 0; Dec 0 0] [Dec 4 0; Dec 0 0; Dec 0 0]).
Proof.
  split.
  - apply (missing_lines_get_defaults (Dec 0 0) ascii_int ascii_float
             "short.vrp" ["3 1 10"; "7 2.5 4"] "3 1 10" 3 1 10).
    + reflexivity.
    + reflexivity.
    + simpl. lia.
  - vm_compute. reflexivity.
Defined.

(** C10 as stated fails.  A file that declares 3 customers and has 2 lines
    is refused when the customer line that is there does not parse; and a
    file that declares more customers than a list can have entries is
    refused whatever its lines. *)
Lemma short_file_is_refused :
  read_file "f.vrp" (Some ["3 1 10"; "x 0 0"])
  = Raise (SystemExit (-1)
             ("Error: in VRPInstance() f.vrp" +:+ nl
              +:+ "invalid literal for int() with base 10: 'x'"))
  ∧ read_file "f.vrp" (Some ["99999999999999999999 1 10"; "0 0 0"])
    = Raise (SystemExit (-1)
               ("Error: in VRPInstance() f.vrp" +:+ nl
                +:+ "cannot fit 'int' into an index-sized integer")).
Proof. split; vm_compute; reflexivity. Qed.

(** ** The model builder *)

Lemma for_cons {A S} (a : A) (l : list A) (body : A → S → S) (s : S) :
  for_ (a :: l) body s = for_ l body (body a s).
Proof. reflexivity. Qed.

Lemma adds_vars_integer_var (lb ub : Z) (x : var) :
  adds_vars (integer_var lb ub x) [(x, (lb, ub))].
Proof. by intros m. Qed.

Lemma adds_cons_add_constraint (c : constraint) : adds_cons (add_constraint c) [c].
Proof. by intros m. Qed.

Lemma adds_vars_for {A} (l : list A) (body : A → Model → Model)
    (vs : A → list (var * (Z * Z))) :
  (∀ a, adds_vars (body a) (vs a)) → adds_vars (for_ l body) (l ≫= vs).
Proof.
  intros Hb. induction l as [|a l IH]; intros m.
  - destruct m. simpl. by rewrite app_nil_r.
  - rewrite for_cons, IH, Hb. simpl. by rewrite app_assoc.
Qed.

Lemma adds_cons_for {A} (l : list A) (body : A → Model → Model)
    (cs : A → list constraint) :
  (∀ a, adds_cons (body a) (cs a)) → adds_cons (for_ l body) (l ≫= cs).
Proof.
  intros Hb. induction l as [|a l IH]; intros m.
  - destruct m. simpl. by rewrite app_nil_r.
  - rewrite for_cons, IH, Hb. simpl. by rewrite app_assoc.
Qed.

Lemma adds_cons_then (f g : Model → Model) (cs cs' : list constraint) :
  adds_cons f cs → adds_cons g cs' → adds_cons (λ m, g (f m)) (cs ++ cs').
Proof. intros Hf Hg m. rewrite Hg, Hf. simpl. by rewrite app_assoc. Qed.

Section builder_facts.
  Context {float : Type} `{!Platform float} (p : VRPInstance float).
  Local Abbreviation nv := (num_vehicles p).
  Local Abbreviation n := (num_customers p).

Lemma create_edge_vars_adds : adds_vars (create_edge_vars p) (edge_variables p).
Proof.
  apply adds_vars_for; intros v. apply adds_vars_for; intros i.
  apply adds_vars_for; intros j. unfold edge_bounds.
  case_bool_decide; apply adds_vars_integer_var.
Qed.

Lemma create_order_vars_adds : adds_vars (create_order_vars p) (order_variables p).
Proof.
  apply adds_vars_for; intros v. apply adds_vars_for; intros i. unfold order_bounds.
  case_bool_decide; apply adds_vars_integer_var.
Qed.

Lemma flow_loop_adds : adds_cons (flow_loop p) (flow_constraints p).
Proof.
  apply adds_cons_for; intros c. unfold flow_body.
  apply (adds_cons_then (λ m, if bool_decide (c ≠ 0) then _ else _)).
  - case_bool_decide.
    + intros m0. unfold add_constraint. simpl. by rewrite <- !app_assoc.
    + subst c. apply adds_cons_add_constraint.
  - apply adds_cons_for; intros v. apply adds_cons_add_constraint.
Qed.

Lemma capacity_loop_adds : adds_cons (capacity_loop p) (capacity_constraints p).
Proof. apply adds_cons_for; intros v. apply adds_cons_add_constraint. Qed.

Lemma mtz_loop_adds : adds_cons (mtz_loop p) (mtz_constraints p).
Proof.
  apply adds_cons_for; intros v. apply adds_cons_for; intros i.
  apply adds_cons_for; intros j. apply adds_cons_add_constraint.
Qed.

Lemma depot_loop_Ok (m : Model) :
  (0 < n ∨ nv ≤ 0)%Z →
  depot_loop p m
  = Ok (mkModel (variables m) (constraints m ++ depot_constraints p) (objective m)).
Proof.
  intros Hdim. unfold depot_loop.
  rewrite (for_r_pure _ _ (λ v m,
    add_constraint (ceq (sum_vars (from_of p v 0)) (sum_vars (into_of p v 0)))
      (add_constraint (cle (sum_vars (into_of p v 0)) (lconst 1))
         (add_constraint (cle (sum_vars (from_of p v 0)) (lconst 1)) m)))).
  - f_equal. apply adds_cons_for. intros v.
    intros m0. unfold add_constraint. simpl. by rewrite <- !app_assoc.
  - intros v m' Hv%elem_of_range. unfold depot_body.
    rewrite bool_decide_eq_false_2 by lia. done.
Qed.

Lemma depot_loop_Raise (m : Model) :
  (n ≤ 0)%Z → (0 < nv)%Z → depot_loop p m = Raise IndexError.
Proof.
  intros Hn Hnv. unfold depot_loop, range.
  destruct (Z.to_nat nv) as [|k] eqn:Hk; [lia|]. simpl.
  unfold depot_body. by rewrite bool_decide_eq_true_2.
Qed.

Lemma getitem_Raise {A} (l : list A) (i : nat) (e : exn) :
  getitem l i = Raise e → e = IndexError ∧ length l ≤ i.
Proof.
  unfold getitem. destruct (l !! i) eqn:Hl; [discriminate|].
  intros [= <-]. split; [done|]. by apply lookup_ge_None.
Qed.

Lemma getitem_Ok {A} (l : list A) (i : nat) : i < length l → ∃ x, getitem l i = Ok x.
Proof.
  intros Hi. unfold getitem. destruct (lookup_lt_is_Some_2 l i Hi) as [x ->]. by exists x.
Qed.

Lemma square_Ok (x : float) : is_Some (float_square x) → ∃ y, square x = Ok y.
Proof. intros [y Hy]. exists y. unfold square. by rewrite Hy. Qed.

Lemma distance_Ok (i j : nat) :
  (Z.of_nat i < n)%Z → (Z.of_nat j < n)%Z → coords_reach p → squares_in_range p →
  distance p i j = Ok (i, j).
Proof.
  intros Hi Hj [Hx Hy] Hsq. unfold distance, getitem.
  destruct (lookup_lt_is_Some_2 (x_coord_of_customer p) i) as [x1 Hx1]; [lia|].
  destruct (lookup_lt_is_Some_2 (y_coord_of_customer p) i) as [y1 Hy1]; [lia|].
  destruct (lookup_lt_is_Some_2 (x_coord_of_customer p) j) as [x2 Hx2]; [lia|].
  destruct (lookup_lt_is_Some_2 (y_coord_of_customer p) j) as [y2 Hy2]; [lia|].
  rewrite Hx1, Hy1, Hx2, Hy2. simpl.
  destruct (square_Ok (float_sub x1 x2)) as [dx2 ->]; [apply (Hsq i j); auto|].
  destruct (square_Ok (float_sub y1 y2)) as [dy2 ->]; [apply (Hsq i j); auto|].
  done.
Qed.

(** What [distance] returns and what makes it raise. *)
Lemma distance_inv (i j : nat) :
  (∀ d, distance p i j = Ok d →
        d = (i, j)
        ∧ ∃ x1 y1 x2 y2,
            x_coord_of_customer p !! i = Some x1 ∧ y_coord_of_customer p !! i = Some y1
            ∧ x_coord_of_customer p !! j = Some x2 ∧ y_coord_of_customer p !! j = Some y2
            ∧ is_Some (float_square (float_sub x1 x2))
            ∧ is_Some (float_square (float_sub y1 y2)))
  ∧ (∀ e, distance p i j = Raise e →
          (e = IndexError
           ∧ (length (x_coord_of_customer p) ≤ i ∨ length (y_coord_of_customer p) ≤ i
              ∨ length (x_coord_of_customer p) ≤ j ∨ length (y_coord_of_customer p) ≤ j))
          ∨ (e = OverflowError
             ∧ ∃ a b,
                 ((x_coord_of_customer p !! i = Some a ∧ x_coord_of_customer p !! j = Some b)
                  ∨ (y_coord_of_customer p !! i = Some a
                     ∧ y_coord_of_customer p !! j = Some b))
                 ∧ float_square (float_sub a b) = None)).
Proof.
  unfold distance, getitem, square.
  destruct (x_coord_of_customer p !! i) as [x1|] eqn:Hx1; simpl.
  2:{ apply lookup_ge_None in Hx1. split; [discriminate|]. intros e [= <-]. left. auto. }
  destruct (y_coord_of_customer p !! i) as [y1|] eqn:Hy1; simpl.
  2:{ apply lookup_ge_None in Hy1. split; [discriminate|]. intros e [= <-]. left. auto. }
  destruct (x_coord_of_customer p !! j) as [x2|] eqn:Hx2; simpl.
  2:{ apply lookup_ge_None in Hx2. split; [discriminate|]. intros e [= <-]. left. auto. }
  destruct (y_coord_of_customer p !! j) as [y2|] eqn:Hy2; simpl.
  2:{ apply lookup_ge_None in Hy2. split; [discriminate|]. intros e [= <-]. left. auto. }
  destruct (float_square (float_sub x1 x2)) as [dx2|] eqn:Hdx; simpl.
  2:{ split; [discriminate|]. intros e [= <-]. right. split; [done|].
      exists x1, x2. auto. }
  destruct (float_square (float_sub y1 y2)) as [dy2|] eqn:Hdy; simpl.
  2:{ split; [discriminate|]. intros e [= <-]. right. split; [done|].
      exists y1, y2. auto. }
  split; [|discriminate]. intros d [= <-]. split; [done|].
  exists x1, y1, x2, y2. rewrite Hdx, Hdy. by split_and!.
Qed.

(** A loop that appends to a list. *)
Lemma for_r_collect {A B} (l : list A) (body : A → list B → result (list B))
    (g : A → list B) (acc : list B) :
  (∀ a acc, a ∈ l → body a acc = Ok (acc ++ g a)) →
  for_r l body acc = Ok (acc ++ (l ≫= g)).
Proof.
  revert acc. induction l as [|a l IH]; intros acc Hb.
  - simpl. by rewrite app_nil_r.
  - rewrite for_r_cons, Hb, bind_Ok by left. rewrite IH.
    + by rewrite bind_cons, app_assoc.
    + intros b acc' Hin. apply Hb. by right.
Qed.

Lemma distance_traveled_Ok :
  ((0 < nv)%Z → coords_reach p ∧ squares_in_range p) →
  distance_traveled p = Ok (objective_terms p).
Proof.
  intros Hreach. unfold distance_traveled, objective_terms.
  rewrite (for_r_collect _ _ (λ v, i ← range n; j ← range n; [(edge_var v i j, (i, j))]));
    [done|].
  intros v acc Hv%elem_of_range.
  apply (for_r_collect _ _ (λ i, j ← range n; [(edge_var v i j, (i, j))])).
  intros i acc' Hi%elem_of_range.
  apply (for_r_collect _ _ (λ j, [(edge_var v i j, (i, j))])).
  intros j acc'' Hj%elem_of_range.
  destruct Hreach as [Hc Hs]; [lia|]. by rewrite distance_Ok.
Qed.

(** The objective is made only when every distance is. *)
Lemma distance_traveled_Ok_inv (obj : list (var * (nat * nat))) :
  distance_traveled p = Ok obj → (0 < nv)%Z →
  ((0 < n)%Z → coords_reach p) ∧ squares_in_range p.
Proof.
  intros Hobj Hnv.
  assert (∀ i j, (Z.of_nat i < n)%Z → (Z.of_nat j < n)%Z → ∃ d, distance p i j = Ok d)
    as Hcell.
  { intros i j Hi Hj. unfold distance_traveled in Hobj.
    destruct (for_r_Ok_elem _ _ _ _ 0 Hobj) as (s1 & s2 & Hv); [apply elem_of_range; lia|].
    destruct (for_r_Ok_elem _ _ _ _ i Hv) as (s3 & s4 & Hi'); [by apply elem_of_range|].
    destruct (for_r_Ok_elem _ _ _ _ j Hi') as (s5 & s6 & Hj'); [by apply elem_of_range|].
    destruct (distance p i j) as [d|e]; [by exists d|discriminate]. }
  split.
  - intros Hn. unfold coords_reach.
    destruct (decide (n ≤ Z.of_nat (length (x_coord_of_customer p))
                      ∧ n ≤ Z.of_nat (length (y_coord_of_customer p)))%Z) as [|Hshort];
      [done|].
    set (i0 := length (x_coord_of_customer p) `min` length (y_coord_of_customer p)).
    destruct (Hcell i0 0) as [d Hd]; [lia..|].
    apply distance_inv in Hd as (_ & x1 & y1 & _ & _ & Hx1%lookup_lt_Some & Hy1%lookup_lt_Some & _).
    lia.
  - intros i j a b Hi Hj Hab. destruct (Hcell i j Hi Hj) as [d Hd].
    apply distance_inv in Hd as (_ & x1 & y1 & x2 & y2 & Hx1 & Hy1 & Hx2 & Hy2 & Hdx & Hdy).
    destruct Hab as [[Ha Hb]|[Ha Hb]]; congruence.
Qed.

(** What the objective raises. *)
Lemma distance_traveled_Raise (e : exn) :
  distance_traveled p = Raise e →
  (0 < nv)%Z ∧ (0 < n)%Z
  ∧ ((e = IndexError ∧ ¬ coords_reach p) ∨ (e = OverflowError ∧ ¬ squares_in_range p)).
Proof.
  unfold distance_traveled. revert e.
  set (P := λ e, (0 < nv)%Z ∧ (0 < n)%Z
                 ∧ ((e = IndexError ∧ ¬ coords_reach p)
                    ∨ (e = OverflowError ∧ ¬ squares_in_range p))).
  intros e. apply (for_r_Raise_elem P).
  intros v acc e0 Hv%elem_of_range. apply (for_r_Raise_elem P).
  intros i acc' e1 Hi%elem_of_range. apply (for_r_Raise_elem P).
  intros j acc'' e2 Hj%elem_of_range. unfold P.
  destruct (distance p i j) as [d|e'] eqn:Hd; simpl; [discriminate|].
  intros [= <-]. split; [lia|]. split; [lia|].
  apply distance_inv in Hd as [[-> Hshort]|(-> & a & b & Hab & Hnone)]; [left|right].
  - split; [done|]. unfold coords_reach. lia.
  - split; [done|]. intros Hsq. destruct (Hsq i j a b Hi Hj Hab) as [y Hy]. congruence.
Qed.

(** The arrays the builder makes have no negative dimension. *)
Lemma arrays_made :
  array_refused [nv; n; n] = None → (0 ≤ nv)%Z ∧ (0 ≤ n)%Z.
Proof.
  intros Hmade.
  destruct (decide (0 ≤ nv ∧ 0 ≤ n)%Z) as [|Hneg]; [done|].
  destruct (array_refused_negative [nv; n; n]) as [msg Hmsg]; [|congruence].
  destruct (decide (nv < 0)%Z); [by left|]. right. left. lia.
Qed.

(** [VRPSolver.__init__] in closed form. *)
Lemma build_eq :
  build p =
    match array_refused [nv; n; n], array_refused [nv; n] with
    | Some msg, _ => Raise (AllocationError msg)
    | None, Some msg => Raise (AllocationError msg)
    | None, None =>
        if bool_decide (n = 0 ∧ 0 < nv)%Z then Raise IndexError
        else
          match distance_traveled p with
          | Ok _ => Ok (built_model p)
          | Raise e => Raise e
          end
    end.
Proof.
  unfold build, np_zeros.
  destruct (array_refused [nv; n; n]) as [msg|] eqn:H3; [done|].
  destruct (array_refused [nv; n]) as [msg|] eqn:H2; [done|]. rewrite !bind_Ok.
  pose proof (arrays_made H3) as [Hnv Hn].
  rewrite create_edge_vars_adds, create_order_vars_adds, flow_loop_adds.
  case_bool_decide as Hdepot.
  - rewrite depot_loop_Raise by lia. done.
  - rewrite depot_loop_Ok by lia. simpl.
    rewrite capacity_loop_adds, mtz_loop_adds.
    destruct (distance_traveled p) as [obj|e] eqn:Hobj; [|done]. simpl.
    destruct (decide (0 < nv)%Z) as [Hpos|Hzero].
    + apply (distance_traveled_Ok_inv obj) in Hobj as Hinv; [|done].
      rewrite distance_traveled_Ok in Hobj by (intros _; split; [apply Hinv; lia|apply Hinv]).
      injection Hobj as <-.
      unfold minimize, built_model. simpl. by rewrite <- !app_assoc.
    + rewrite distance_traveled_Ok in Hobj by lia. injection Hobj as <-.
      unfold minimize, built_model. simpl. by rewrite <- !app_assoc.
Qed.

Lemma build_Ok_inv (m : Model) :
  build p = Ok m → m = built_model p ∧ (0 ≤ nv)%Z ∧ (0 ≤ n)%Z ∧ (n = 0 → nv = 0)%Z.
Proof.
  rewrite build_eq.
  destruct (array_refused [nv; n; n]) as [msg|] eqn:H3; [discriminate|].
  destruct (array_refused [nv; n]) as [msg|]; [discriminate|].
  pose proof (arrays_made H3) as [Hnv Hn].
  case_bool_decide; [discriminate|].
  destruct (distance_traveled p); [|discriminate].
  intros [= <-]. split; [done|lia].
Qed.

End builder_facts.

(** ** Linear expressions *)

Lemma Zsum_app (l1 l2 : list Z) : Zsum (l1 ++ l2) = (Zsum l1 + Zsum l2)%Z.
Proof. induction l1 as [|x l1 IH]; simpl; lia. Qed.

Lemma sum_over_cons {A} (a : A) (l : list A) (f : A → Z) :
  sum_over (a :: l) f = (f a + sum_over l f)%Z.
Proof. reflexivity. Qed.

Lemma sum_over_ext {A} (l : list A) (f g : A → Z) :
  (∀ a, a ∈ l → f a = g a) → sum_over l f = sum_over l g.
Proof.
  intros H. unfold sum_over. f_equal. apply list_fmap_ext. intros i a Hi.
  apply H. by eapply list_elem_of_lookup_2.
Qed.

Lemma sum_over_zero {A} (l : list A) : sum_over l (λ _, 0%Z) = 0%Z.
Proof. induction l as [|a l IH]; [done|]. rewrite sum_over_cons. lia. Qed.

Lemma sum_over_bind {A B} (l : list A) (g : A → list B) (f : B → Z) :
  sum_over (l ≫= g) f = sum_over l (λ a, sum_over (g a) f).
Proof.
  induction l as [|a l IH]; [done|].
  rewrite bind_cons, sum_over_cons, <- IH. unfold sum_over.
  by rewrite fmap_app, Zsum_app.
Qed.

Lemma sum_over_fmap {A B} (l : list A) (g : A → B) (f : B → Z) :
  sum_over (g <$> l) f = sum_over l (f ∘ g).
Proof. unfold sum_over. by rewrite <- list_fmap_compose. Qed.

Lemma sum_over_nonneg {A} (l : list A) (f : A → Z) :
  (∀ a, a ∈ l → 0 ≤ f a)%Z → (0 ≤ sum_over l f)%Z.
Proof.
  induction l as [|a l IH]; intros H; [done|]. rewrite sum_over_cons.
  assert (0 ≤ f a)%Z by (apply H; by left).
  assert (0 ≤ sum_over l f)%Z by (apply IH; intros b Hb; apply H; by right). lia.
Qed.

(** A member of a sum of non-negative terms is at most the sum. *)
Lemma sum_over_member {A} (l : list A) (f : A → Z) (a : A) :
  (∀ b, b ∈ l → 0 ≤ f b)%Z → a ∈ l → (f a ≤ sum_over l f)%Z.
Proof.
  induction l as [|b l IH]; intros H Hin; [by apply elem_of_nil in Hin|].
  rewrite sum_over_cons.
  assert (0 ≤ f b)%Z by (apply H; by left).
  assert (0 ≤ sum_over l f)%Z by (apply sum_over_nonneg; intros c Hc; apply H; by right).
  apply elem_of_cons in Hin as [->|Hin]; [lia|].
  assert (f a ≤ sum_over l f)%Z by (apply IH; [intros c Hc; apply H; by right|done]). lia.
Qed.

(** A positive sum has a positive term. *)
Lemma sum_over_positive {A} (l : list A) (f : A → Z) :
  (0 < sum_over l f)%Z → ∃ a, a ∈ l ∧ (0 < f a)%Z.
Proof.
  induction l as [|b l IH]; [unfold sum_over; simpl; lia|].
  rewrite sum_over_cons. intros H.
  destruct (decide (0 < f b)%Z) as [Hb|Hb].
  - exists b. split; [by left|done].
  - destruct IH as (a & Ha & Hpos); [lia|]. exists a. split; [by right|done].
Qed.

Lemma sum_over_add {A} (l : list A) (f g : A → Z) :
  sum_over l (λ a, f a + g a)%Z = (sum_over l f + sum_over l g)%Z.
Proof. induction l as [|a l IH]; [done|]. rewrite !sum_over_cons, IH. lia. Qed.

Lemma sum_over_scale {A} (l : list A) (k : Z) (f : A → Z) :
  sum_over l (λ a, k * f a)%Z = (k * sum_over l f)%Z.
Proof.
  induction l as [|a l IH]; [unfold sum_over; simpl; lia|].
  rewrite !sum_over_cons, IH. lia.
Qed.

Lemma sum_over_swap {A B} (l1 : list A) (l2 : list B) (f : A → B → Z) :
  sum_over l1 (λ a, sum_over l2 (λ b, f a b))
  = sum_over l2 (λ b, sum_over l1 (λ a, f a b)).
Proof.
  induction l1 as [|a l1 IH].
  - symmetry. apply (sum_over_zero l2).
  - rewrite sum_over_cons, IH, <- sum_over_add. by apply sum_over_ext.
Qed.

Lemma eval_lconst (sol : var → Z) (k : Z) : eval sol (lconst k) = k.
Proof. reflexivity. Qed.

Lemma eval_lvar (sol : var → Z) (x : var) : eval sol (lvar x) = sol x.
Proof. unfold eval, lvar, Zsum. cbn [terms constant fmap list_fmap foldr fst snd]. lia. Qed.

Lemma eval_ladd (sol : var → Z) (a b : linexpr) :
  eval sol (ladd a b) = (eval sol a + eval sol b)%Z.
Proof. unfold eval, ladd. cbn [terms constant]. rewrite fmap_app, Zsum_app. lia. Qed.

Lemma eval_lscale (sol : var → Z) (k : Z) (a : linexpr) :
  eval sol (lscale k a) = (k * eval sol a)%Z.
Proof.
  destruct a as [ts c]. unfold eval, lscale. cbn [terms constant].
  assert (Zsum ((λ t, t.1 * sol t.2)%Z <$> ((λ t, (k * t.1, t.2)%Z) <$> ts))
          = (k * Zsum ((λ t, t.1 * sol t.2)%Z <$> ts))%Z) as ->; [|lia].
  induction ts as [|t ts IH]; [unfold Zsum; simpl; lia|].
  rewrite !fmap_cons. unfold Zsum in *. cbn [foldr fst snd]. rewrite IH. lia.
Qed.

Lemma eval_lsub (sol : var → Z) (a b : linexpr) :
  eval sol (lsub a b) = (eval sol a - eval sol b)%Z.
Proof. unfold lsub. rewrite eval_ladd, eval_lscale. lia. Qed.

Lemma eval_model_sum (sol : var → Z) (l : list linexpr) :
  eval sol (model_sum l) = sum_over l (eval sol).
Proof.
  induction l as [|a l IH]; [done|].
  rewrite sum_over_cons, <- IH. apply eval_ladd.
Qed.

Lemma eval_sum_vars (sol : var → Z) (xs : list var) :
  eval sol (sum_vars xs) = sum_over xs sol.
Proof.
  unfold sum_vars. rewrite eval_model_sum, sum_over_fmap.
  apply sum_over_ext. intros x _. apply eval_lvar.
Qed.

(** [scal_prod] pairs the [k]-th variable with the [k]-th coefficient. *)
Lemma eval_scal_prod (sol : var → Z) (g : nat → var) (coefs : list Z) (a k : nat) :
  eval sol (scal_prod (g <$> seq a k) coefs)
  = sum_over (seq a k) (λ j, (default 0 (coefs !! (j - a)%nat) * sol (g j))%Z).
Proof.
  unfold eval, scal_prod. simpl. rewrite Z.add_0_r.
  revert a coefs. induction k as [|k IH]; intros a coefs.
  { simpl. by rewrite zip_with_nil_r. }
  destruct coefs as [|d coefs].
  - transitivity 0%Z; [done|]. symmetry.
    etrans; [|apply (sum_over_zero (seq a (S k)))].
    apply sum_over_ext. intros j _. by rewrite lookup_nil.
  - simpl. rewrite IH, sum_over_cons, Nat.sub_diag. simpl. f_equal.
    apply sum_over_ext. intros j [Hj _]%elem_of_seq.
    by replace (j - a) with (S (j - S a)) by lia.
Qed.

(** ** The constraints of the built model *)

Lemma bind_singleton_fmap {A B} (f : A → B) (l : list A) :
  l ≫= (λ a, [f a]) = f <$> l.
Proof. induction l as [|a l IH]; [done|]. by rewrite bind_cons, IH. Qed.

Section model_facts.
  Context {float : Type} `{!Platform float} (p : VRPInstance float).
  Local Abbreviation nv := (num_vehicles p).
  Local Abbreviation n := (num_customers p).

Lemma eval_into_of (sol : var → Z) (v c : nat) :
  eval sol (sum_vars (into_of p v c)) = sum_over (range n) (λ i, sol (edge_var v i c)).
Proof. unfold into_of. by rewrite eval_sum_vars, sum_over_fmap. Qed.

Lemma eval_from_of (sol : var → Z) (v c : nat) :
  eval sol (sum_vars (from_of p v c)) = sum_over (range n) (λ j, sol (edge_var v c j)).
Proof. unfold from_of. by rewrite eval_sum_vars, sum_over_fmap. Qed.

Lemma eval_into_all (sol : var → Z) (c : nat) :
  eval sol (sum_vars (into_all p c))
  = sum_over (range nv) (λ v, sum_over (range n) (λ i, sol (edge_var v i c))).
Proof.
  unfold into_all. rewrite eval_sum_vars, sum_over_bind.
  apply sum_over_ext. intros v _. by rewrite bind_singleton_fmap, sum_over_fmap.
Qed.

Lemma eval_from_all (sol : var → Z) (c : nat) :
  eval sol (sum_vars (from_all p c))
  = sum_over (range nv) (λ v, sum_over (range n) (λ j, sol (edge_var v c j))).
Proof.
  unfold from_all. rewrite eval_sum_vars, sum_over_bind.
  apply sum_over_ext. intros v _. by rewrite bind_singleton_fmap, sum_over_fmap.
Qed.

Lemma eval_capacity_lhs (sol : var → Z) (v : nat) :
  eval sol (lhs (capacity_constraint p v))
  = sum_over (range n) (λ c,
      sum_over (range n) (λ j, demand_at p j * sol (edge_var v c j))%Z).
Proof.
  unfold capacity_constraint, cle. cbn [lhs].
  rewrite eval_model_sum, sum_over_fmap. apply sum_over_ext. intros c _.
  unfold compose, from_of, range. rewrite eval_scal_prod.
  apply sum_over_ext. intros j _. unfold demand_at. by rewrite Nat.sub_0_r.
Qed.

Lemma holds_mtz (sol : var → Z) (v i j : nat) :
  holds sol (mtz p v i j)
  ↔ (sol (order_var v j) + 1 - n * (1 - sol (edge_var v i j)) ≤ sol (order_var v i))%Z.
Proof.
  unfold holds, mtz, cge. cbn [csense lhs rhs].
  by rewrite !eval_lsub, eval_lscale, eval_ladd, eval_lsub, !eval_lvar, !eval_lconst.
Qed.

Lemma holds_conservation (sol : var → Z) (v c : nat) :
  holds sol (conservation p v c)
  ↔ sum_over (range n) (λ i, sol (edge_var v i c))
    = sum_over (range n) (λ j, sol (edge_var v c j)).
Proof.
  unfold holds, conservation, ceq. cbn [csense lhs rhs].
  by rewrite eval_into_of, eval_from_of.
Qed.

(** Where the constraints and variables sit in the built model. *)
Lemma mtz_in_model (v i j : nat) :
  (Z.of_nat v < nv)%Z → 1 ≤ i → (Z.of_nat i < n)%Z → 1 ≤ j → (Z.of_nat j < n)%Z →
  mtz p v i j ∈ constraints (built_model p).
Proof.
  intros Hv Hi Hi' Hj Hj'. unfold built_model. cbn [constraints].
  rewrite !elem_of_app. do 3 right. unfold mtz_constraints.
  apply list_elem_of_bind. exists v. split; [|by apply elem_of_range].
  apply list_elem_of_bind. exists i. split; [|apply elem_of_seq; lia].
  apply list_elem_of_bind. exists j. split; [|apply elem_of_seq; lia].
  by left.
Qed.

Lemma conservation_in_model (v c : nat) :
  (Z.of_nat v < nv)%Z → (Z.of_nat c < n)%Z →
  conservation p v c ∈ constraints (built_model p).
Proof.
  intros Hv Hc. unfold built_model. cbn [constraints].
  rewrite !elem_of_app. left. unfold flow_constraints.
  apply list_elem_of_bind. exists c. split; [|by apply elem_of_range].
  apply elem_of_app. right.
  apply list_elem_of_bind. exists v. split; [by left|by apply elem_of_range].
Qed.

Lemma edge_var_in_model (v i j : nat) :
  (Z.of_nat v < nv)%Z → (Z.of_nat i < n)%Z → (Z.of_nat j < n)%Z →
  (edge_var v i j, edge_bounds i j) ∈ variables (built_model p).
Proof.
  intros Hv Hi Hj. unfold built_model. cbn [variables].
  apply elem_of_app. left. unfold edge_variables.
  apply list_elem_of_bind. exists v. split; [|by apply elem_of_range].
  apply list_elem_of_bind. exists i. split; [|by apply elem_of_range].
  apply list_elem_of_bind. exists j. split; [by left|by apply elem_of_range].
Qed.

Lemma order_var_in_model (v i : nat) :
  (Z.of_nat v < nv)%Z → (Z.of_nat i < n)%Z →
  (order_var v i, order_bounds p i) ∈ variables (built_model p).
Proof.
  intros Hv Hi. unfold built_model. cbn [variables].
  apply elem_of_app. right. unfold order_variables.
  apply list_elem_of_bind. exists v. split; [|by apply elem_of_range].
  apply list_elem_of_bind. exists i. split; [by left|by apply elem_of_range].
Qed.

(** Every [>=] constraint of the model comes from the MTZ loop. *)
Lemma ge_constraint_is_mtz (c : constraint) :
  c ∈ constraints (built_model p) → csense c = GE →
  ∃ v i j, (Z.of_nat v < nv)%Z ∧ 1 ≤ i ∧ (Z.of_nat i < n)%Z
           ∧ 1 ≤ j ∧ (Z.of_nat j < n)%Z ∧ c = mtz p v i j.
Proof.
  unfold built_model. cbn [constraints]. intros Hc Hge.
  apply elem_of_app in Hc as [Hc|Hc]; [|apply elem_of_app in Hc as [Hc|Hc];
                                         [|apply elem_of_app in Hc as [Hc|Hc]]].
  - apply list_elem_of_bind in Hc as (c0 & Hc & _).
    apply elem_of_app in Hc as [Hc|Hc].
    + mem_cases Hc; by subst c.
    + apply list_elem_of_bind in Hc as (v & Hc & _). mem_cases Hc; by subst c.
  - apply list_elem_of_bind in Hc as (v & Hc & _). mem_cases Hc; by subst c.
  - apply list_elem_of_bind in Hc as (v & Hc & _). mem_cases Hc; by subst c.
  - apply list_elem_of_bind in Hc as (v & Hc & Hv%elem_of_range).
    apply list_elem_of_bind in Hc as (i & Hc & Hi%elem_of_seq).
    apply list_elem_of_bind in Hc as (j & Hc & Hj%elem_of_seq).
    apply list_elem_of_singleton in Hc. exists v, i, j. split_and!; [lia..|done].
Qed.

Lemma mtz_mentions (v i j : nat) (x : var) :
  mentions (mtz p v i j) x → x = order_var v i ∨ x = order_var v j ∨ x = edge_var v i j.
Proof.
  unfold mentions, mtz. cbn. intros H. mem_cases H; auto.
Qed.

(** Under the conservation of the flow of vehicle [v] at every node, the
    left-hand side of the built capacity constraint is the load as the
    specification words it. *)
Lemma capacity_load_under_conservation (sol : var → Z) (v : nat) :
  (∀ c, (Z.of_nat c < n)%Z → holds sol (conservation p v c)) →
  eval sol (lhs (capacity_constraint p v)) = spec_capacity_load p v sol.
Proof.
  intros Hcons. rewrite eval_capacity_lhs, sum_over_swap. unfold spec_capacity_load.
  apply sum_over_ext. intros j Hj%elem_of_range.
  rewrite sum_over_scale. f_equal. by apply holds_conservation, Hcons.
Qed.

(** C1 (as amended).  The capacity loop gives the model one constraint per
    vehicle, the [v]-th for vehicle [v]: the sum over all arcs [c -> j] of
    [demand[j] * edge_var[v][c][j]] - the demand of the arc's destination -
    is at most [vehicle_capacity]. *)
Theorem capacity_constraints_built (m : Model) :
  build p = Ok m →
  constraints m
  = flow_constraints p ++ depot_constraints p ++ capacity_constraints p ++ mtz_constraints p
  ∧ length (capacity_constraints p) = Z.to_nat nv
  ∧ ∀ v, (Z.of_nat v < nv)%Z →
      capacity_constraints p !! v = Some (capacity_constraint p v)
      ∧ csense (capacity_constraint p v) = LE
      ∧ ∀ sol,
          eval sol (rhs (capacity_constraint p v)) = vehicle_capacity p
          ∧ eval sol (lhs (capacity_constraint p v))
            = sum_over (range n) (λ c,
                sum_over (range n) (λ j, demand_at p j * sol (edge_var v c j))%Z).
Proof.
  intros [-> _]%build_Ok_inv. split; [done|].
  unfold capacity_constraints. rewrite bind_singleton_fmap.
  split; [by rewrite length_fmap, length_range|].
  intros v Hv. split_and!.
  - by rewrite list_lookup_fmap, lookup_range.
  - done.
  - intros sol. split; [done|apply eval_capacity_lhs].
Qed.

(** C2.  For every vehicle and every pair of non-depot customers the model
    holds the MTZ constraint, which says
    [order_var[v][i] >= order_var[v][j] + 1 - n * (1 - edge_var[v][i][j])];
    the model's [>=] constraints are these and no others, and none of them
    mentions an order variable of the depot. *)
Theorem mtz_constraints_built (m : Model) :
  build p = Ok m →
  (∀ v i j,
     (Z.of_nat v < nv)%Z → 1 ≤ i → (Z.of_nat i < n)%Z → 1 ≤ j → (Z.of_nat j < n)%Z →
     mtz p v i j ∈ constraints m
     ∧ ∀ sol, holds sol (mtz p v i j)
              ↔ (sol (order_var v j) + 1 - n * (1 - sol (edge_var v i j))
                 ≤ sol (order_var v i))%Z)
  ∧ (∀ c, c ∈ constraints m → csense c = GE →
       (∃ v i j, (Z.of_nat v < nv)%Z ∧ 1 ≤ i ∧ (Z.of_nat i < n)%Z
                 ∧ 1 ≤ j ∧ (Z.of_nat j < n)%Z ∧ c = mtz p v i j)
       ∧ ∀ v, ¬ mentions c (order_var v 0)).
Proof.
  intros [-> _]%build_Ok_inv. split.
  - intros v i j Hv Hi Hi' Hj Hj'. split; [by apply mtz_in_model|].
    intros sol. apply holds_mtz.
  - intros c Hc Hge.
    destruct (ge_constraint_is_mtz c Hc Hge) as (v & i & j & Hv & Hi & Hi' & Hj & Hj' & ->).
    split; [by exists v, i, j|].
    intros v' [H|[H|H]]%mtz_mentions; simplify_eq; lia.
Qed.

(** C3.  For every non-depot customer [c] the model holds the constraint
    that the arcs into [c], over all vehicles and all sources, sum to 1, and
    the constraint that the arcs out of [c], over all vehicles and all
    destinations, sum to 1. *)
Theorem degree_constraints_built (m : Model) (c : nat) :
  build p = Ok m → 1 ≤ c → (Z.of_nat c < n)%Z →
  incoming_degree p c ∈ constraints m
  ∧ outgoing_degree p c ∈ constraints m
  ∧ ∀ sol,
      (holds sol (incoming_degree p c)
       ↔ sum_over (range nv) (λ v, sum_over (range n) (λ i, sol (edge_var v i c))) = 1%Z)
      ∧ (holds sol (outgoing_degree p c)
         ↔ sum_over (range nv) (λ v, sum_over (range n) (λ j, sol (edge_var v c j))) = 1%Z).
Proof.
  intros [-> _]%build_Ok_inv Hc Hc'.
  assert (∀ x, x ∈ [incoming_degree p c; outgoing_degree p c] →
               x ∈ constraints (built_model p)) as Hin.
  { intros x Hx. unfold built_model. cbn [constraints]. apply elem_of_app. left.
    unfold flow_constraints. apply list_elem_of_bind.
    exists c. split; [|by apply elem_of_range].
    apply elem_of_app. left. rewrite bool_decide_eq_true_2 by lia. done. }
  split_and!.
  - apply Hin. by left.
  - apply Hin. right. by left.
  - intros sol. unfold holds, incoming_degree, outgoing_degree, ceq. cbn [csense lhs rhs].
    by rewrite eval_into_all, eval_from_all, eval_lconst.
Qed.

(** C5 (as amended).  The builder checks nothing about the instance.  It
    succeeds exactly when its two arrays are made (so neither dimension is
    negative) and, under a vehicle, the customer axis is not empty, the
    coordinate lists reach every node - which they do in an instance with the
    lists of the length the reader gives them - and no squared coordinate
    difference is out of range; it then yields the full model, whatever the
    demands and the capacity.  Its only failures are the error of an array
    allocation, which a negative dimension always gives, the IndexError of
    the depot slices or of a coordinate read, and the OverflowError of a
    square. *)
Theorem build_checks_dimensions_only :
  (is_Ok (build p)
   ↔ array_refused [nv; n; n] = None ∧ array_refused [nv; n] = None
     ∧ ((0 < nv)%Z → (0 < n)%Z ∧ coords_reach p ∧ squares_in_range p))
  ∧ (is_Ok (build p) → build p = Ok (built_model p) ∧ (0 ≤ nv)%Z ∧ (0 ≤ n)%Z)
  ∧ (∀ e, build p = Raise e →
       (∃ msg, e = AllocationError msg
               ∧ (array_refused [nv; n; n] = Some msg ∨ array_refused [nv; n] = Some msg))
       ∨ (e = IndexError ∧ (0 < nv)%Z ∧ (n = 0%Z ∨ ¬ coords_reach p))
       ∨ (e = OverflowError ∧ (0 < nv)%Z ∧ ¬ squares_in_range p))
  ∧ ((nv < 0 ∨ n < 0)%Z → ∃ msg, build p = Raise (AllocationError msg))
  ∧ (sized p →
     (is_Ok (build p)
      ↔ array_refused [nv; n; n] = None ∧ array_refused [nv; n] = None
        ∧ ((0 < nv)%Z → (0 < n)%Z ∧ squares_in_range p))).
Proof.
  rewrite build_eq. unfold is_Ok.
  destruct (array_refused [nv; n; n]) as [msg3|] eqn:H3.
  { split_and!.
    - split; [intros [m Hm]; discriminate|intros (? & _); discriminate].
    - intros [m Hm]; discriminate.
    - intros e [= <-]. left. exists msg3. auto.
    - intros _. by exists msg3.
    - intros _. split; [intros [m Hm]; discriminate|intros (? & _); discriminate]. }
  pose proof (arrays_made p H3) as [Hnv Hn].
  destruct (array_refused [nv; n]) as [msg2|] eqn:H2.
  { split_and!.
    - split; [intros [m Hm]; discriminate|intros (_ & ? & _); discriminate].
    - intros [m Hm]; discriminate.
    - intros e [= <-]. left. exists msg2. auto.
    - intros _. by exists msg2.
    - intros _. split; [intros [m Hm]; discriminate|intros (_ & ? & _); discriminate]. }
  case_bool_decide as Hdepot.
  { split_and!.
    - split; [intros [m Hm]; discriminate|]. intros (_ & _ & Hr). lia.
    - intros [m Hm]; discriminate.
    - intros e [= <-]. right. left. split; [done|]. split; [lia|]. left. lia.
    - lia.
    - intros _. split; [intros [m Hm]; discriminate|]. intros (_ & _ & Hr). lia. }
  destruct (distance_traveled p) as [obj|e0] eqn:Hobj.
  - assert ((0 < nv)%Z → (0 < n)%Z ∧ coords_reach p ∧ squares_in_range p) as Hr.
    { intros Hpos. destruct (distance_traveled_Ok_inv p obj Hobj Hpos) as [Hc Hs].
      split; [lia|]. split; [apply Hc; lia|done]. }
    split_and!.
    + split; [done|]. intros _. by eexists.
    + done.
    + discriminate.
    + lia.
    + intros _. split; [|intros _; by eexists]. intros _. split_and!; [done..|].
      intros Hpos. destruct (Hr Hpos) as (? & _ & ?). done.
  - destruct (distance_traveled_Raise p e0 Hobj) as (Hpos & Hn' & Hwhy). split_and!.
    + split; [intros [m Hm]; discriminate|]. intros (_ & _ & Hr).
      destruct (Hr Hpos) as (_ & Hc & Hs). destruct Hwhy as [[_ ?]|[_ ?]]; done.
    + intros [m Hm]; discriminate.
    + intros e [= <-]. right.
      destruct Hwhy as [[-> Hc]|[-> Hs]]; [left|right]; split_and!; auto.
    + lia.
    + intros (_ & Hx & Hy). split; [intros [m Hm]; discriminate|]. intros (_ & _ & Hr).
      destruct (Hr Hpos) as (_ & Hs). destruct Hwhy as [[_ Hc]|[_ ?]]; [|done].
      destruct Hc. unfold coords_reach. lia.
Qed.

End model_facts.

(** C1, witness. *)
Lemma capacity_constraints_built_witness :
  constraints (built_model toy_two_vehicles)
  = flow_constraints toy_two_vehicles ++ depot_constraints toy_two_vehicles
    ++ capacity_constraints toy_two_vehicles ++ mtz_constraints toy_two_vehicles
  ∧ length (capacity_constraints toy_two_vehicles) = Z.to_nat 2
  ∧ ∀ v, (Z.of_nat v < 2)%Z →
      capacity_constraints toy_two_vehicles !! v = Some (capacity_constraint toy_two_vehicles v)
      ∧ csense (capacity_constraint toy_two_vehicles v) = LE
      ∧ ∀ sol,
          eval sol (rhs (capacity_constraint toy_two_vehicles v)) = 10%Z
          ∧ eval sol (lhs (capacity_constraint toy_two_vehicles v))
            = sum_over (range 3) (λ c,
                sum_over (range 3) (λ j,
                  demand_at toy_two_vehicles j * sol (edge_var v c j))%Z).
Proof.
  apply (capacity_constraints_built toy_two_vehicles (built_model toy_two_vehicles)).
  vm_compute. reflexivity.
Defined.

(** C1 as stated fails: the built constraint weighs an arc by the demand of
    its destination.  With demands 0, 3, 3 and capacity 5, the assignment
    that selects the arcs 0 -> 1 and 0 -> 2 of vehicle 0 gives the built
    left-hand side 6, which breaks the constraint, and gives the load of the
    specification's wording 0, which would satisfy it; the coefficient of
    [edge_var[0][0][1]] is [demand[1]], not [demand[0]]. *)
Lemma capacity_weighs_destination :
  build toy_one_vehicle = Ok (built_model toy_one_vehicle)
  ∧ constraints (built_model toy_one_vehicle) !! 11
    = Some (capacity_constraint toy_one_vehicle 0)
  ∧ coef (lhs (capacity_constraint toy_one_vehicle 0)) (edge_var 0 0 1) = 3%Z
  ∧ demand_at toy_one_vehicle 1 = 3%Z
  ∧ demand_at toy_one_vehicle 0 = 0%Z
  ∧ eval fan_out (lhs (capacity_constraint toy_one_vehicle 0)) = 6%Z
  ∧ spec_capacity_load toy_one_vehicle 0 fan_out = 0%Z
  ∧ bool_decide (holds fan_out
                   (capacity_constraint toy_one_vehicle 0)) = false
  ∧ bool_decide (spec_capacity_load toy_one_vehicle 0 fan_out
                 ≤ vehicle_capacity toy_one_vehicle)%Z = true.
Proof. split_and!; vm_compute; reflexivity. Qed.

(** C2, witness. *)
Lemma mtz_constraints_built_witness :
  (∀ v i j,
     (Z.of_nat v < 2)%Z → 1 ≤ i → (Z.of_nat i < 3)%Z → 1 ≤ j → (Z.of_nat j < 3)%Z →
     mtz toy_two_vehicles v i j ∈ constraints (built_model toy_two_vehicles)
     ∧ ∀ sol, holds sol (mtz toy_two_vehicles v i j)
              ↔ (sol (order_var v j) + 1 - 3 * (1 - sol (edge_var v i j))
                 ≤ sol (order_var v i))%Z)
  ∧ (∀ c, c ∈ constraints (built_model toy_two_vehicles) → csense c = GE →
       (∃ v i j, (Z.of_nat v < 2)%Z ∧ 1 ≤ i ∧ (Z.of_nat i < 3)%Z
                 ∧ 1 ≤ j ∧ (Z.of_nat j < 3)%Z ∧ c = mtz toy_two_vehicles v i j)
       ∧ ∀ v, ¬ mentions c (order_var v 0)).
Proof.
  apply (mtz_constraints_built toy_two_vehicles (built_model toy_two_vehicles)).
  vm_compute. reflexivity.
Defined.

(** C3, witness: customer 1. *)
Lemma degree_constraints_built_witness :
  incoming_degree toy_two_vehicles 1 ∈ constraints (built_model toy_two_vehicles)
  ∧ outgoing_degree toy_two_vehicles 1 ∈ constraints (built_model toy_two_vehicles)
  ∧ ∀ sol,
      (holds sol (incoming_degree toy_two_vehicles 1)
       ↔ sum_over (range 2) (λ v, sum_over (range 3) (λ i, sol (edge_var v i 1))) = 1%Z)
      ∧ (holds sol (outgoing_degree toy_two_vehicles 1)
         ↔ sum_over (range 2) (λ v, sum_over (range 3) (λ j, sol (edge_var v 1 j))) = 1%Z).
Proof.
  apply (degree_constraints_built toy_two_vehicles (built_model toy_two_vehicles) 1).
  - vm_compute. reflexivity.
  - lia.
  - simpl. lia.
Defined.

(** C5 as stated fails: with a demand of 7 under capacity 5 the builder
    raises nothing and returns the full model, capacity constraint included. *)
Lemma oversized_demand_is_built :
  build toy_oversized = Ok (built_model toy_oversized)
  ∧ demand_at toy_oversized 1 = 7%Z
  ∧ vehicle_capacity toy_oversized = 5%Z
  ∧ constraints (built_model toy_oversized) !! 8 = Some (capacity_constraint toy_oversized 0).
Proof. split_and!; vm_compute; reflexivity. Qed.

(** Neither a single node nor an empty fleet is refused. *)
Example small_instances_are_built :
  build (toy 1 1 5 [0]%Z) = Ok (built_model (toy 1 1 5 [0]%Z))
  ∧ build (toy 2 0 5 [0; 1]%Z) = Ok (built_model (toy 2 0 5 [0; 1]%Z))
  ∧ build (toy 0 0 5 []) = Ok (built_model (toy 0 0 5 [])).
Proof. split_and!; vm_compute; reflexivity. Qed.

(** The failures of the builder on the reference platform: a negative
    number of customers, no customer axis under a vehicle, a customer too far
    from the depot for the square of its distance. *)
Example build_failures :
  build (toy (-1) 1 5 []) = Raise (AllocationError "negative dimensions are not allowed")
  ∧ build (toy 0 1 5 []) = Raise IndexError
  ∧ build toy_far = Raise OverflowError.
Proof. split_and!; vm_compute; reflexivity. Qed.

(** ** The decoder *)

Lemma str_0 : str 0 = "0".
Proof. vm_compute. reflexivity. Qed.

(** The test [x == 1] on an integer, on a float, and on the float that
    reports an integer. *)
Lemma equals_1_Z (z : Z) : equals_1 z = true ↔ z = 1%Z.
Proof. unfold equals_1, Z_value. by rewrite bool_decide_eq_true. Qed.

Lemma equals_1_Q (x : Q) : equals_1 x = true ↔ Qeq x 1.
Proof. apply Qeq_bool_iff. Qed.

Lemma equals_1_exactly (sol : var → Z) (x : var) :
  equals_1 (exactly sol x) = true ↔ sol x = 1%Z.
Proof.
  rewrite equals_1_Q. unfold exactly. change 1%Q with (inject_Z 1).
  rewrite inject_Z_injective. done.
Qed.

Lemma exactly_same_ones (sol : var → Z) : same_ones (exactly sol) sol.
Proof. intros x. apply equals_1_exactly. Qed.

Lemma same_ones_refl (sol : var → Z) : same_ones sol sol.
Proof. intros x. apply equals_1_Z. Qed.

Lemma has_1_Z (row : list Z) : has_1 row ↔ 1%Z ∈ row.
Proof.
  unfold has_1. rewrite Exists_exists. split.
  - intros (x & Hin & ->%equals_1_Z). done.
  - intros Hin. exists 1%Z. done.
Qed.

Lemma index_1_cons {A} `{!Value A} (x : A) (row : list A) :
  index_1 (x :: row)
  = if equals_1 x then Ok 0
    else match index_1 row with Ok k => Ok (S k) | Raise e => Raise e end.
Proof.
  unfold index_1. cbn [list_find]. case_decide as Hx.
  - by rewrite Hx.
  - apply not_true_is_false in Hx. rewrite Hx.
    by destruct (list_find _ row) as [[k y]|].
Qed.

(** [row.index(1)] is the first position that holds 1. *)
Lemma index_1_Ok (row : list Z) (k : nat) :
  index_1 row = Ok k ↔ row !! k = Some 1%Z ∧ ∀ j, j < k → row !! j ≠ Some 1%Z.
Proof.
  unfold index_1. destruct (list_find _ row) as [[i x]|] eqn:Hf.
  - apply list_find_Some in Hf as (Hi & ->%equals_1_Z & Hleast). split.
    + intros [= ->]. split; [done|]. intros j Hj Hrow.
      by apply (Hleast j 1%Z Hrow Hj), equals_1_Z.
    + intros [Hk Hfirst]. f_equal.
      destruct (Nat.lt_total i k) as [Hlt|[->|Hlt]]; [|done|].
      * by destruct (Hfirst i Hlt).
      * by destruct (Hleast k 1%Z Hk Hlt).
  - split; [discriminate|]. intros [Hk _].
    apply list_find_None in Hf. apply Forall_lookup_1 with (i := k) (x := 1%Z) in Hf; done.
Qed.

Lemma index_1_Raise (row : list Z) (e : exn) :
  index_1 row = Raise e ↔ e = ValueError_index ∧ 1%Z ∉ row.
Proof.
  unfold index_1. destruct (list_find _ row) as [[i x]|] eqn:Hf.
  - apply list_find_Some in Hf as (Hi & ->%equals_1_Z & _). split; [discriminate|].
    intros [_ Hno]. destruct Hno. by eapply list_elem_of_lookup_2.
  - apply list_find_None in Hf. split.
    + intros [= <-]. split; [done|]. intros Hin.
      by apply (proj1 (Forall_forall _ _) Hf 1%Z Hin).
    + by intros [-> _].
Qed.

Lemma index_1_elem_of (row : list Z) : 1%Z ∈ row → ∃ k, index_1 row = Ok k.
Proof.
  intros Hin. destruct (index_1 row) as [k|e] eqn:Hi; [by exists k|].
  apply index_1_Raise in Hi as [_ Hno]. done.
Qed.

(** The decoder asks of a value only whether it equals 1. *)
Section decoder_tests.
  Context {float : Type} (p : VRPInstance float).
  Context {A B : Type} `{!Value A, !Value B} (s : var → A) (s' : var → B).
  Hypothesis same_tests : ∀ x, equals_1 (s x) = equals_1 (s' x).

Lemma index_1_tests (v current : nat) :
  index_1 (edge_row p s v current) = index_1 (edge_row p s' v current).
Proof.
  unfold edge_row. induction (range (num_customers p)) as [|j l IH]; [done|].
  rewrite !fmap_cons, !index_1_cons, same_tests, IH. done.
Qed.

Lemma has_1_tests (v current : nat) :
  has_1 (edge_row p s v current) ↔ has_1 (edge_row p s' v current).
Proof.
  unfold has_1, edge_row. rewrite !Exists_fmap, !Exists_exists.
  split; intros (j & Hj & H1); exists j; (split; [done|]); simpl in *; congruence.
Qed.

Lemma trace_route_tests (fuel v current : nat) (route : list string) :
  trace_route p s fuel v current route = trace_route p s' fuel v current route.
Proof.
  revert current route. induction fuel as [|fuel IH]; intros current route; [done|].
  simpl. rewrite index_1_tests. destruct (index_1 _) as [next|e]; [|done].
  case_bool_decide; [done|apply IH].
Qed.

Lemma decode_vehicle_tests (fuel v : nat) :
  decode_vehicle p s fuel v = decode_vehicle p s' fuel v.
Proof.
  unfold decode_vehicle. case_bool_decide; [done|].
  rewrite (bool_decide_ext _ _ (not_iff_compat (has_1_tests v 0))), trace_route_tests. done.
Qed.

Lemma chain_tests (v current : nat) (l : list nat) :
  chain p s v current l ↔ chain p s' v current l.
Proof.
  revert current. induction l as [|c l IH]; intros current; [done|].
  simpl. by rewrite index_1_tests, IH.
Qed.

Lemma decode_vehicles_tests (fuel : nat) (vs : list nat) (routes : list (list string)) :
  decode_vehicles p s fuel vs routes = decode_vehicles p s' fuel vs routes.
Proof.
  revert routes. induction vs as [|v vs IH]; intros routes; [done|].
  simpl. rewrite decode_vehicle_tests.
  destruct (decode_vehicle p s' fuel v) as [[r|e]|]; [apply IH|done..].
Qed.

End decoder_tests.

(** An answer with the ones of an integer assignment is decoded as that
    assignment is. *)
Lemma same_ones_tests {A} `{!Value A} (s : var → A) (sol : var → Z) :
  same_ones s sol → ∀ x, equals_1 (s x) = equals_1 (sol x).
Proof.
  intros Hs x. specialize (Hs x). pose proof (equals_1_Z (sol x)) as Hz.
  destruct (equals_1 (s x)), (equals_1 (sol x)); try done.
  - symmetry. apply Hz, Hs. done.
  - apply Hs, Hz. done.
Qed.

(** The integer assignment with the ones of an answer. *)
Lemma ones_same_ones {A} `{!Value A} (s : var → A) : same_ones s (ones s).
Proof. intros x. unfold ones. by destruct (equals_1 (s x)). Qed.

Lemma index_1_raises {A} `{!Value A} (row : list A) (e : exn) :
  index_1 row = Raise e → e = ValueError_index.
Proof. unfold index_1. destruct (list_find _ row) as [[k x]|]; [discriminate|]. by intros [= <-]. Qed.

Section decoder_facts.
  Context {float : Type} (p : VRPInstance float).
  Context {A : Type} `{!Value A} (sol : var → A).
  Local Abbreviation nv := (num_vehicles p).
  Local Abbreviation n := (num_customers p).

Lemma edge_row_lookup (v current k : nat) (x : A) :
  edge_row p sol v current !! k = Some x
  ↔ (Z.of_nat k < n)%Z ∧ x = sol (edge_var v current k).
Proof.
  unfold edge_row, range. rewrite list_lookup_fmap_Some. split.
  - intros (j & -> & [-> Hj]%lookup_seq). split; [lia|done].
  - intros [Hk ->]. exists k. split; [done|apply lookup_seq; lia].
Qed.

Lemma elem_of_edge_row (v current : nat) (x : A) :
  x ∈ edge_row p sol v current
  ↔ ∃ j, (Z.of_nat j < n)%Z ∧ x = sol (edge_var v current j).
Proof.
  rewrite list_elem_of_lookup. split.
  - intros [k Hk]. exists k. by apply edge_row_lookup.
  - intros [j Hj]. exists j. by apply edge_row_lookup.
Qed.

(** One turn of the loop when the row of the current node holds a 1. *)
Lemma trace_route_step (fuel v current next : nat) (route : list string) :
  index_1 (edge_row p sol v current) = Ok next →
  trace_route p sol (S fuel) v current route
  = if bool_decide (next = 0) then Some (Ok (route ++ [str next]))
    else trace_route p sol fuel v next (route ++ [str next]).
Proof. intros H. simpl. by rewrite H. Qed.

(** Whatever a trace raises comes from [list.index]. *)
Lemma trace_route_Raise (fuel v current : nat) (route : list string) (e : exn) :
  trace_route p sol fuel v current route = Some (Raise e) → e = ValueError_index.
Proof.
  revert current route. induction fuel as [|fuel IH]; intros current route; [discriminate|].
  simpl. destruct (index_1 _) as [next|e'] eqn:Hi.
  - case_bool_decide; [discriminate|apply IH].
  - intros [= <-]. by apply index_1_raises in Hi.
Qed.

Lemma decode_vehicle_Raise (fuel v : nat) (e : exn) :
  decode_vehicle p sol fuel v = Some (Raise e) → e = IndexError ∨ e = ValueError_index.
Proof.
  unfold decode_vehicle. case_bool_decide; [intros [= <-]; by left|].
  case_bool_decide; [discriminate|]. intros He%trace_route_Raise. by right.
Qed.

Lemma decode_vehicles_Raise (fuel : nat) (vs : list nat) (routes : list (list string))
    (e : exn) :
  decode_vehicles p sol fuel vs routes = Some (Raise e) →
  e = IndexError ∨ e = ValueError_index.
Proof.
  revert routes. induction vs as [|v vs IH]; intros routes; [discriminate|].
  simpl. destruct (decode_vehicle p sol fuel v) as [[r|e']|] eqn:Hv; [apply IH| |discriminate].
  intros [= <-]. by eapply decode_vehicle_Raise.
Qed.

(** Routes come one per vehicle, in the order of the vehicles. *)
Lemma decode_vehicles_Forall2 (fuel : nat) (vs : list nat) (acc rs : list (list string)) :
  Forall2 (λ v r, decode_vehicle p sol fuel v = Some (Ok r)) vs rs →
  decode_vehicles p sol fuel vs acc = Some (Ok (acc ++ rs)).
Proof.
  intros H. revert acc. induction H as [|v r vs rs Hv _ IH]; intros acc.
  - simpl. by rewrite app_nil_r.
  - simpl. rewrite Hv, IH. by rewrite <- app_assoc.
Qed.

Lemma decode_vehicles_inv (fuel : nat) (vs : list nat) (acc routes : list (list string)) :
  decode_vehicles p sol fuel vs acc = Some (Ok routes) →
  ∃ rs, routes = acc ++ rs
        ∧ Forall2 (λ v r, decode_vehicle p sol fuel v = Some (Ok r)) vs rs.
Proof.
  revert acc. induction vs as [|v vs IH]; intros acc; simpl.
  - intros [= <-]. exists []. by rewrite app_nil_r.
  - destruct (decode_vehicle p sol fuel v) as [[r|e]|] eqn:Hv; [|discriminate..].
    intros (rs & -> & Hrs)%IH. exists (r :: rs).
    split; [by rewrite <- app_assoc|]. by constructor.
Qed.

End decoder_facts.

(** The tests of an answer are those of its [ones]. *)
Lemma ones_tests {A} `{!Value A} (s : var → A) (x : var) :
  equals_1 (s x) = equals_1 (ones s x).
Proof. apply same_ones_tests, ones_same_ones. Qed.

(** A row without a value that equals 1. *)
Lemma dead_row_ones {float : Type} (p : VRPInstance float) {A} `{!Value A} (s : var → A)
    (v c : nat) :
  ¬ has_1 (edge_row p s v c) ↔ 1%Z ∉ edge_row p (ones s) v c.
Proof. by rewrite (has_1_tests p s (ones s) (ones_tests s)), has_1_Z. Qed.

(** [decode_vehicle] on integers. *)
Lemma decode_vehicle_Z {float : Type} (p : VRPInstance float) (sol : var → Z)
    (fuel v : nat) :
  decode_vehicle p sol fuel v
  = if bool_decide (num_customers p ≤ 0)%Z then Some (Raise IndexError)
    else if bool_decide (1%Z ∉ edge_row p sol v 0) then Some (Ok ["0"; "0"])
         else trace_route p sol fuel v 0 [str 0].
Proof.
  unfold decode_vehicle.
  by rewrite (bool_decide_ext _ _ (not_iff_compat (has_1_Z (edge_row p sol v 0)))).
Qed.

(** The decoder reads the instance for its two dimensions only. *)
Lemma decode_vehicles_dims {float float' : Type} (p : VRPInstance float)
    (p' : VRPInstance float') {A : Type} `{!Value A} (sol : var → A) (fuel : nat)
    (vs : list nat) (routes : list (list string)) :
  num_customers p = num_customers p' →
  decode_vehicles p sol fuel vs routes = decode_vehicles p' sol fuel vs routes.
Proof.
  intros Hn.
  assert (∀ v c, edge_row p sol v c = edge_row p' sol v c) as Hrow.
  { intros v c. unfold edge_row. by rewrite Hn. }
  assert (∀ f v c r, trace_route p sol f v c r = trace_route p' sol f v c r) as Htrace.
  { induction f as [|f IH]; intros v c r; [done|]. simpl. rewrite Hrow.
    destruct (index_1 _); [|done]. case_bool_decide; [done|apply IH]. }
  assert (∀ v, decode_vehicle p sol fuel v = decode_vehicle p' sol fuel v) as Hveh.
  { intros v. unfold decode_vehicle. by rewrite Hn, Hrow, Htrace. }
  revert routes. induction vs as [|v vs IH]; intros routes; [done|].
  simpl. rewrite Hveh. destruct (decode_vehicle p' sol fuel v) as [[r|e]|]; [apply IH|done..].
Qed.

Lemma index_1_edge_row {float : Type} (p : VRPInstance float) (sol : var → Z)
    (v current k : nat) :
  index_1 (edge_row p sol v current) = Ok k →
  (Z.of_nat k < num_customers p)%Z ∧ sol (edge_var v current k) = 1%Z.
Proof. intros [[Hk H1]%edge_row_lookup _]%index_1_Ok. done. Qed.

(** *** Tracing an assignment that satisfies the model *)

Section feasible_trace.
  Context {float : Type} (p : VRPInstance float) (sol : var → Z) (v : nat).
  Local Abbreviation n := (num_customers p).
  Hypothesis edge_01 : ∀ i j,
    (Z.of_nat i < n)%Z → (Z.of_nat j < n)%Z → (0 ≤ sol (edge_var v i j) ≤ 1)%Z.
  Hypothesis order_1n : ∀ i,
    1 ≤ i → (Z.of_nat i < n)%Z → (1 ≤ sol (order_var v i) ≤ n - 1)%Z.
  Hypothesis mtz_holds : ∀ i j,
    1 ≤ i → (Z.of_nat i < n)%Z → 1 ≤ j → (Z.of_nat j < n)%Z →
    (sol (order_var v j) + 1 - n * (1 - sol (edge_var v i j)) ≤ sol (order_var v i))%Z.
  Hypothesis conserved : ∀ c,
    (Z.of_nat c < n)%Z →
    sum_over (range n) (λ i, sol (edge_var v i c))
    = sum_over (range n) (λ j, sol (edge_var v c j)).

(** A node the vehicle enters has a selected arc out. *)
Lemma next_exists (prev current : nat) :
  (Z.of_nat prev < n)%Z → (Z.of_nat current < n)%Z →
  sol (edge_var v prev current) = 1%Z →
  ∃ next, index_1 (edge_row p sol v current) = Ok next.
Proof.
  intros Hprev Hcur Harc. apply index_1_elem_of, elem_of_edge_row.
  assert (1 ≤ sum_over (range n) (λ i, sol (edge_var v i current)))%Z as Hin.
  { rewrite <- Harc.
    apply (sum_over_member (range n) (λ i, sol (edge_var v i current)) prev).
    - intros i Hi%elem_of_range. by apply edge_01.
    - by apply elem_of_range. }
  rewrite conserved in Hin by done.
  destruct (sum_over_positive (range n) (λ j, sol (edge_var v current j)))
    as (j & Hj%elem_of_range & Hpos); [lia|].
  exists j. split; [done|]. pose proof (edge_01 current j Hcur Hj). lia.
Qed.

(** From a customer whose position is at most [fuel], the trace closes at the
    depot within [fuel] turns. *)
Lemma trace_closes (fuel prev current : nat) (route : list string) :
  1 ≤ current → (Z.of_nat current < n)%Z →
  (Z.of_nat prev < n)%Z → sol (edge_var v prev current) = 1%Z →
  (sol (order_var v current) ≤ Z.of_nat fuel)%Z →
  ∃ route', trace_route p sol fuel v current route = Some (Ok route')
            ∧ last route' = Some "0" ∧ length route' ≤ length route + fuel.
Proof.
  revert prev current route.
  induction fuel as [|fuel IH]; intros prev current route Hc Hcn Hprev Harc Hord.
  { pose proof (order_1n current Hc Hcn). lia. }
  destruct (next_exists prev current Hprev Hcn Harc) as [next Hnext].
  rewrite (trace_route_step p sol fuel v current next route Hnext).
  destruct (index_1_edge_row p sol v current next Hnext) as [Hlt H1].
  case_bool_decide as Hz.
  - subst next. eexists. split; [done|]. rewrite last_snoc, str_0, length_app. simpl.
    split; [done|lia].
  - destruct (IH current next (route ++ [str next])) as (route' & Hr & Hlast & Hlen);
      [lia|done|done|done| |].
    { pose proof (mtz_holds current next Hc Hcn ltac:(lia) Hlt). rewrite H1 in *. lia. }
    exists route'. split_and!; [done..|]. rewrite length_app in Hlen. simpl in Hlen. lia.
Qed.

Lemma decode_vehicle_closes :
  (0 < n)%Z →
  ∃ route, decode_vehicle p sol (Z.to_nat n) v = Some (Ok route)
           ∧ last route = Some "0" ∧ length route ≤ Z.to_nat n + 1.
Proof.
  intros Hn. rewrite decode_vehicle_Z. rewrite bool_decide_eq_false_2 by lia.
  case_bool_decide as Hrow.
  { eexists. split; [done|]. split; [done|]. simpl. lia. }
  destruct (index_1_elem_of _ Hrow) as [next Hnext].
  destruct (Z.to_nat n) as [|fuel] eqn:Hfuel; [lia|].
  rewrite (trace_route_step p sol fuel v 0 next _ Hnext).
  destruct (index_1_edge_row p sol v 0 next Hnext) as [Hlt H1].
  case_bool_decide as Hz.
  - subst next. eexists. split; [done|]. rewrite str_0. split; [done|]. simpl. lia.
  - destruct (trace_closes fuel 0 next ([str 0] ++ [str next]))
      as (route' & Hr & Hlast & Hlen); [lia|done|lia|done| |].
    { pose proof (order_1n next ltac:(lia) Hlt). lia. }
    exists route'. split_and!; [done..|]. simpl in Hlen. lia.
Qed.

End feasible_trace.




(** An answer that satisfies the model up to the rounding of the engine is
    not decoded as the tour it stands for: with the arc out of the depot
    reported as 0.9999999999999999 the vehicle gets the route of an unused
    vehicle, and with the arc 2 -> 1 reported as 1.0000000000000018
    [list.index] raises its ValueError. *)
Example rounded_answers :
  decode_vehicle toy_one_vehicle (exactly tour_021) 3 0 = Some (Ok ["0"; "2"; "1"; "0"])
  ∧ decode_vehicle toy_one_vehicle rounded_start 3 0 = Some (Ok ["0"; "0"])
  ∧ decode_vehicle toy_one_vehicle rounded_inside 3 0 = Some (Raise ValueError_index).
Proof. split_and!; vm_compute; reflexivity. Qed.

(** C6 (as amended).  From the current node the decoder follows the selected
    arc of smallest destination, whatever other arcs out of that node are
    selected, and reports nothing. *)
Theorem decoder_follows_first_arc {float : Type} (p : VRPInstance float)
    {A : Type} `{!Value A} (sol : var → A) (fuel v current next : nat)
    (route : list string) :
  (Z.of_nat next < num_customers p)%Z →
  equals_1 (sol (edge_var v current next)) = true →
  (∀ j, j < next → equals_1 (sol (edge_var v current j)) = false) →
  index_1 (edge_row p sol v current) = Ok next
  ∧ trace_route p sol (S fuel) v current route
    = if bool_decide (next = 0) then Some (Ok (route ++ [str next]))
      else trace_route p sol fuel v next (route ++ [str next]).
Proof.
  intros Hlt H1 Hfirst.
  assert (index_1 (edge_row p sol v current) = Ok next) as Hnext.
  { rewrite (index_1_tests p sol (ones sol) (ones_tests sol)).
    apply index_1_Ok. split.
    - apply edge_row_lookup. split; [done|]. unfold ones. by rewrite H1.
    - intros j Hj [_ Hrow]%edge_row_lookup. unfold ones in Hrow.
      by rewrite (Hfirst j Hj) in Hrow. }
  split; [done|]. by apply trace_route_step.
Qed.

(** C6, witness: arcs 0 -> 1 and 0 -> 2 both selected, 0 -> 1 is followed. *)
Lemma decoder_follows_first_arc_witness :
  index_1 (edge_row toy_one_vehicle (exactly two_ways) 0 0) = Ok 1
  ∧ trace_route toy_one_vehicle (exactly two_ways) (S 2) 0 0 ["0"]
    = if bool_decide (1 = 0) then Some (Ok (["0"] ++ [str 1]))
      else trace_route toy_one_vehicle (exactly two_ways) 2 0 1 (["0"] ++ [str 1]).
Proof.
  apply (decoder_follows_first_arc toy_one_vehicle (exactly two_ways) 2 0 0 1 ["0"]).
  - simpl. lia.
  - reflexivity.
  - intros j Hj. assert (j = 0) as -> by lia. reflexivity.
Defined.

(** C6 as stated fails: with the arcs 0 -> 1 and 0 -> 2 of vehicle 0 both
    selected, the route through 1 is decoded and printed, and no error is
    raised. *)
Lemma second_arc_is_ignored :
  exactly two_ways (edge_var 0 0 1) = 1%Q
  ∧ exactly two_ways (edge_var 0 0 2) = 1%Q
  ∧ decode_vehicle toy_one_vehicle (exactly two_ways) 3 0 = Some (Ok ["0"; "1"; "0"])
  ∧ solve toy_one_vehicle (Some (answer two_ways "0.0")) 3
    = Some (Ok ("0.0 1" +:+ nl +:+ "0 1 0" +:+ nl)).
Proof. split_and!; vm_compute; reflexivity. Qed.

(** C7 (as amended).  [solve] verifies nothing after decoding.  The decoded
    routes depend on the instance through its two dimensions only - not on
    demands, capacity or coordinates; once they are decoded they are printed
    under the objective value as reported; and the only errors are
    "no solution found", and the IndexError and [list.index] ValueError met
    while tracing. *)
Theorem solve_verifies_nothing {float float' : Type} (p : VRPInstance float)
    (p' : VRPInstance float') (s : Solution) (fuel : nat) :
  num_customers p = num_customers p' → num_vehicles p = num_vehicles p' →
  decoded p s fuel = decoded p' s fuel
  ∧ (∀ vehicle_routes,
       decoded p s fuel = Some (Ok vehicle_routes) →
       solve p (Some s) fuel = Some (Ok (sol_string (objective_text s) vehicle_routes)))
  ∧ (∀ e, solve p (Some s) fuel = Some (Raise e) → e = IndexError ∨ e = ValueError_index)
  ∧ solve p None fuel = Some (Raise (Exception "no solution found")).
Proof.
  intros Hn Hnv. split_and!.
  - unfold decoded. rewrite Hnv. by apply decode_vehicles_dims.
  - intros routes Hd. unfold solve. unfold decoded in Hd. by rewrite Hd.
  - intros e. unfold solve.
    destruct (decode_vehicles _ _ _ _ _) as [[routes|e']|] eqn:Hd; [discriminate| |discriminate].
    intros [= <-]. by eapply decode_vehicles_Raise.
  - done.
Qed.

(** C7, witness: the same assignment under demands 9, 9 and under demands 3, 3. *)
Lemma solve_verifies_nothing_witness :
  decoded toy_heavy (answer tour_01 "123.4") 3
  = decoded toy_one_vehicle (answer tour_01 "123.4") 3
  ∧ (∀ vehicle_routes,
       decoded toy_heavy (answer tour_01 "123.4") 3 = Some (Ok vehicle_routes) →
       solve toy_heavy (Some (answer tour_01 "123.4")) 3
       = Some (Ok (sol_string "123.4" vehicle_routes)))
  ∧ (∀ e, solve toy_heavy (Some (answer tour_01 "123.4")) 3 = Some (Raise e) →
          e = IndexError ∨ e = ValueError_index)
  ∧ solve toy_heavy None 3 = Some (Raise (Exception "no solution found")).
Proof.
  apply (solve_verifies_nothing toy_heavy toy_one_vehicle (answer tour_01 "123.4") 3);
    reflexivity.
Defined.

(** C7 as stated fails: customer 2 is in no route, the one route carries a
    load of 9 under capacity 5, all nodes sit at the same point while the
    reported objective is 123.4 - and [solve] returns the routes. *)
Lemma unchecked_routes_are_returned :
  solve toy_heavy (Some (answer tour_01 "123.4")) 3
  = Some (Ok ("123.4 1" +:+ nl +:+ "0 1 0" +:+ nl))
  ∧ decoded toy_heavy (answer tour_01 "123.4") 3 = Some (Ok [str <$> [0; 1; 0]])
  ∧ bool_decide (2 ∈ [0; 1; 0]) = false
  ∧ route_load toy_heavy [0; 1; 0] = 9%Z
  ∧ vehicle_capacity toy_heavy = 5%Z
  ∧ x_coord_of_customer toy_heavy = replicate 3 (Dec 0 0)
  ∧ y_coord_of_customer toy_heavy = replicate 3 (Dec 0 0).
Proof. split_and!; vm_compute; reflexivity. Qed.

(** C8 (as amended).  A vehicle of the built model for which no value of the
    depot row equals 1 gets exactly the route [["0", "0"]], for any fuel; the
    loop appends it to the routes and goes on with the next vehicle, so that
    every list of routes [solve] decodes has one route per vehicle and
    [["0", "0"]] as the route of this one, and that list, under the reported
    objective, is all that [solve] returns. *)
Theorem unused_vehicle_route {float : Type} `{!Platform float} (p : VRPInstance float)
    (m : Model) (s : Solution) (fuel v : nat) :
  build p = Ok m → (Z.of_nat v < num_vehicles p)%Z →
  (∀ j, (Z.of_nat j < num_customers p)%Z →
        equals_1 (solution_value s (edge_var v 0 j)) = false) →
  decode_vehicle p (solution_value s) fuel v = Some (Ok ["0"; "0"])
  ∧ (∀ vs vehicle_routes,
       decode_vehicles p (solution_value s) fuel (v :: vs) vehicle_routes
       = decode_vehicles p (solution_value s) fuel vs (vehicle_routes ++ [["0"; "0"]]))
  ∧ (∀ vs vehicle_routes routes,
       decode_vehicles p (solution_value s) fuel (v :: vs) vehicle_routes = Some (Ok routes) →
       ∃ rest, routes = vehicle_routes ++ ["0"; "0"] :: rest ∧ length rest = length vs)
  ∧ (∀ routes,
       decoded p s fuel = Some (Ok routes) →
       length routes = Z.to_nat (num_vehicles p)
       ∧ routes !! v = Some ["0"; "0"]
       ∧ solve p (Some s) fuel = Some (Ok (sol_string (objective_text s) routes))).
Proof.
  intros (_ & Hnv & Hn & Hn0)%build_Ok_inv Hv Hno.
  assert (decode_vehicle p (solution_value s) fuel v = Some (Ok ["0"; "0"])) as Hd.
  { unfold decode_vehicle. rewrite bool_decide_eq_false_2 by lia.
    rewrite bool_decide_eq_true_2; [done|].
    unfold has_1. rewrite Exists_exists.
    intros (x & (j & Hj & ->)%elem_of_edge_row & H1). by rewrite (Hno j Hj) in H1. }
  split_and!; [done|..].
  - intros vs acc. simpl. by rewrite Hd.
  - intros vs acc routes. simpl. rewrite Hd.
    intros (rs & -> & Hrs)%decode_vehicles_inv. exists rs.
    split; [by rewrite <- app_assoc|]. symmetry. by eapply Forall2_length.
  - intros routes Hdec. unfold decoded in Hdec. pose proof Hdec as Hdec'.
    apply decode_vehicles_inv in Hdec' as (rs & -> & Hrs). simpl.
    pose proof (Forall2_length _ _ _ Hrs) as Hlen. rewrite length_range in Hlen.
    split_and!.
    + done.
    + destruct (Forall2_lookup_l _ _ _ v v Hrs) as (r & Hr & Hvr);
        [apply lookup_range; lia|]. rewrite Hd in Hvr. by injection Hvr as <-.
    + unfold solve. by rewrite Hdec.
Qed.

(** C8, witness: vehicle 1 under the tour of vehicle 0. *)
Lemma unused_vehicle_route_witness :
  decode_vehicle toy_two_vehicles (solution_value (answer tour_021 "3.4")) 3 1
  = Some (Ok ["0"; "0"])
  ∧ (∀ vs vehicle_routes,
       decode_vehicles toy_two_vehicles (solution_value (answer tour_021 "3.4")) 3 (1 :: vs)
         vehicle_routes
       = decode_vehicles toy_two_vehicles (solution_value (answer tour_021 "3.4")) 3 vs
           (vehicle_routes ++ [["0"; "0"]]))
  ∧ (∀ vs vehicle_routes routes,
       decode_vehicles toy_two_vehicles (solution_value (answer tour_021 "3.4")) 3 (1 :: vs)
         vehicle_routes = Some (Ok routes) →
       ∃ rest, routes = vehicle_routes ++ ["0"; "0"] :: rest ∧ length rest = length vs)
  ∧ (∀ routes,
       decoded toy_two_vehicles (answer tour_021 "3.4") 3 = Some (Ok routes) →
       length routes = Z.to_nat 2
       ∧ routes !! 1 = Some ["0"; "0"]
       ∧ solve toy_two_vehicles (Some (answer tour_021 "3.4")) 3
         = Some (Ok (sol_string "3.4" routes))).
Proof.
  apply (unused_vehicle_route toy_two_vehicles (built_model toy_two_vehicles)
           (answer tour_021 "3.4") 3 1).
  - vm_compute. reflexivity.
  - simpl. lia.
  - intros j _. destruct j as [|[|[|j]]]; reflexivity.
Defined.

(** C8 as stated fails: for the unused vehicle 1 the decoder emits the two
    node names of the route and nothing else.  What [solve] decodes is the
    list of the routes, what it returns is the objective as the engine
    reported it and one line of node names per route; neither holds a
    distance or a load of a route, and both are the same for an instance with
    other demands and another capacity. *)
Lemma unused_vehicle_has_no_figures :
  decoded toy_two_vehicles (answer tour_021 "3.4") 3
  = Some (Ok [["0"; "2"; "1"; "0"]; ["0"; "0"]])
  ∧ solve toy_two_vehicles (Some (answer tour_021 "3.4")) 3
    = Some (Ok ("3.4 1" +:+ nl +:+ "0 2 1 0" +:+ nl +:+ "0 0" +:+ nl))
  ∧ solve (toy 3 2 1 [5; 7; 9]%Z) (Some (answer tour_021 "3.4")) 3
    = Some (Ok ("3.4 1" +:+ nl +:+ "0 2 1 0" +:+ nl +:+ "0 0" +:+ nl)).
Proof. split_and!; vm_compute; reflexivity. Qed.

(** * Further properties of the code *)

(** ** The instance reader: what it accepts and what it stores *)

Lemma for_r_ext {A S} (l : list A) (body body' : A → S → result S) (s : S) :
  (∀ a s, a ∈ l → body a s = body' a s) → for_r l body s = for_r l body' s.
Proof.
  revert s. induction l as [|a l IH]; intros s Hb; [done|].
  rewrite !for_r_cons, Hb by left. destruct (body' a s) as [s'|e]; [|done].
  simpl. apply IH. intros b s'' Hin. apply Hb. by right.
Qed.

Section vrp_instance_more.
  Context {float : Type} `{!Platform float} (float_zero : float).
  Context (py_int : pystr → parsed Z) (py_float : pystr → parsed float).

(** What the loop stores: the fields of every line it reads, at the index of
    the line; the other entries are left as they were. *)
Lemma parse_customers_values (lines : list pystr) (idx : list nat)
    (demand : list Z) (xs ys : list float) :
  NoDup idx →
  (∀ i line, i ∈ idx → lines !! (i + 1) = Some line →
             is_Ok (parse_customer_line py_int py_float line)) →
  ∃ demand' xs' ys',
    for_r idx (parse_customer py_int py_float lines) (demand, xs, ys)
    = Ok (demand', xs', ys')
    ∧ length demand' = length demand ∧ length xs' = length xs ∧ length ys' = length ys
    ∧ (∀ k, k ∉ idx →
         demand' !! k = demand !! k ∧ xs' !! k = xs !! k ∧ ys' !! k = ys !! k)
    ∧ (∀ i line d x y,
         i ∈ idx → i < length demand → i < length xs → i < length ys →
         lines !! (i + 1) = Some line →
         parse_customer_line py_int py_float line = Ok (d, x, y) →
         demand' !! i = Some d ∧ xs' !! i = Some x ∧ ys' !! i = Some y).
Proof.
  revert demand xs ys. induction idx as [|i0 idx IH]; intros demand xs ys Hnd Hok.
  { eexists _, _, _. split; [reflexivity|]. split_and!; [done..| |].
    - done.
    - intros i line d x y Hin. by apply elem_of_nil in Hin. }
  apply NoDup_cons in Hnd as [Hnotin Hnd].
  destruct (parse_customer py_int py_float lines i0 (demand, xs, ys))
    as [[[d1 x1] y1]|e] eqn:H1.
  2:{ exfalso. unfold parse_customer in H1. case_bool_decide as Hlt; [|discriminate].
      destruct (lookup_lt_is_Some_2 lines (i0 + 1) Hlt) as [line Hl].
      destruct (Hok i0 line ltac:(by left) Hl) as [[[d x] y] Hp].
      unfold getitem in H1. rewrite Hl in H1. simpl in H1. rewrite Hp in H1. discriminate. }
  assert (length d1 = length demand ∧ length x1 = length xs ∧ length y1 = length ys)
    as (Ld & Lx & Ly) by (apply parse_customer_length in H1; done).
  destruct (IH d1 x1 y1 Hnd) as (d2 & x2 & y2 & H2 & Ld2 & Lx2 & Ly2 & Hkeep & Hval).
  { intros j line Hj. apply Hok. by right. }
  exists d2, x2, y2. rewrite for_r_cons, H1, bind_Ok. split; [done|].
  split_and!; [congruence..| |].
  - intros k Hk. apply not_elem_of_cons in Hk as [Hne Hk].
    destruct (Hkeep k Hk) as (-> & -> & ->).
    unfold parse_customer in H1. case_bool_decide as Hlt; [|by injection H1 as <- <- <-].
    destruct (getitem lines (i0 + 1)) as [line|e]; simpl in H1; [|discriminate].
    destruct (parse_customer_line py_int py_float line) as [[[d x] y]|e];
      simpl in H1; [|discriminate].
    injection H1 as <- <- <-. by rewrite !list_lookup_insert_ne.
  - intros i line d x y Hin Hi Hix Hiy Hl Hp.
    apply elem_of_cons in Hin as [->|Hin].
    + destruct (Hkeep i0 Hnotin) as (-> & -> & ->).
      unfold parse_customer in H1. apply lookup_lt_Some in Hl as Hlt.
      rewrite bool_decide_eq_true_2 in H1 by done.
      unfold getitem in H1. rewrite Hl in H1. simpl in H1. rewrite Hp in H1. simpl in H1.
      injection H1 as <- <- <-. by rewrite !list_lookup_insert_eq.
    + apply (Hval i line d x y); [done|lia..|done|done].
Qed.

(** X1.  The reader accepts a file exactly when its first line parses, the
    three lists of [num_customers] zeros can be made, and every customer line
    it reads - line [i + 1] for [i < num_customers], when the file has it -
    parses. *)
Theorem reader_accepts_iff (file_name : pystr) (lines : list pystr) :
  is_Ok (VRPInstance_init float_zero py_int py_float file_name (Some lines))
  ↔ ∃ line0 n nv cap,
      lines !! 0 = Some line0
      ∧ parse_first_line py_int line0 = Ok (n, nv, cap)
      ∧ list_refused n = None
      ∧ ∀ i line, (Z.of_nat i < n)%Z → lines !! (i + 1) = Some line →
                  is_Ok (parse_customer_line py_int py_float line).
Proof.
  unfold VRPInstance_init. split.
  - intros [inst Hinst].
    destruct (read_instance float_zero py_int py_float lines) as [inst'|e0] eqn:Hr;
      [clear Hinst|discriminate].
    destruct (lines !! 0) as [line0|] eqn:H0.
    2:{ unfold read_instance, getitem in Hr. rewrite H0 in Hr. discriminate. }
    destruct (parse_first_line py_int line0) as [[[n nv] cap]|e] eqn:Hh.
    2:{ unfold read_instance, getitem in Hr. rewrite H0, bind_Ok, Hh in Hr. discriminate. }
    rewrite (read_instance_eq float_zero py_int py_float lines line0 n nv cap H0 Hh) in Hr.
    destruct (list_refused n) as [msg|] eqn:Hlist; [discriminate|].
    exists line0, n, nv, cap. split_and!; [done..|]. intros i line Hi Hl.
    destruct (parse_customer_line py_int py_float line) as [r|e] eqn:Hp; [by exists r|].
    destruct (for_r_raise (λ _, True) (range n) (parse_customer py_int py_float lines) i)
      with (s := (replicate (Z.to_nat n) 0%Z, replicate (Z.to_nat n) float_zero,
                  replicate (Z.to_nat n) float_zero)) as (e' & He' & _).
    + by apply elem_of_range.
    + intros st. exists e. by eapply parse_customer_bad.
    + done.
    + rewrite He' in Hr. discriminate.
  - intros (line0 & n & nv & cap & H0 & Hh & Hlist & Hok).
    destruct (parse_customers_Ok py_int py_float lines (range n) (replicate (Z.to_nat n) 0%Z)
                (replicate (Z.to_nat n) float_zero) (replicate (Z.to_nat n) float_zero))
      as (demand & xs & ys & Hloop & _).
    { intros i line Hi%elem_of_range. by apply Hok. }
    rewrite (read_instance_eq float_zero py_int py_float lines line0 n nv cap H0 Hh).
    rewrite Hlist, Hloop. by eexists.
Qed.

(** X2.  What an accepted file becomes, once the three lists of
    [num_customers] zeros are made: the three numbers of the first line,
    three lists of length [num_customers] (empty for a negative number), and
    at index [i] the demand and the coordinates read on line [i + 1]. *)
Theorem reader_stores_lines (file_name : pystr) (lines : list pystr)
    (line0 : pystr) (n nv cap : Z) :
  lines !! 0 = Some line0 →
  parse_first_line py_int line0 = Ok (n, nv, cap) →
  list_refused n = None →
  (∀ i line, (Z.of_nat i < n)%Z → lines !! (i + 1) = Some line →
             is_Ok (parse_customer_line py_int py_float line)) →
  ∃ inst,
    VRPInstance_init float_zero py_int py_float file_name (Some lines) = Ok inst
    ∧ num_customers inst = n ∧ num_vehicles inst = nv ∧ vehicle_capacity inst = cap
    ∧ sized inst
    ∧ ∀ i line d x y,
        (Z.of_nat i < n)%Z → lines !! (i + 1) = Some line →
        parse_customer_line py_int py_float line = Ok (d, x, y) →
        demand_of_customer inst !! i = Some d
        ∧ x_coord_of_customer inst !! i = Some x
        ∧ y_coord_of_customer inst !! i = Some y.
Proof.
  intros H0 Hh Hlist Hok.
  destruct (parse_customers_values lines (range n) (replicate (Z.to_nat n) 0%Z)
              (replicate (Z.to_nat n) float_zero) (replicate (Z.to_nat n) float_zero))
    as (demand & xs & ys & Hloop & Ld & Lx & Ly & _ & Hval).
  { apply NoDup_seq. }
  { intros i line Hi%elem_of_range. by apply Hok. }
  rewrite !length_replicate in *.
  exists (mkVRPInstance n nv cap demand xs ys).
  unfold VRPInstance_init.
  rewrite (read_instance_eq float_zero py_int py_float lines line0 n nv cap H0 Hh).
  rewrite Hlist, Hloop. simpl.
  split_and!; [done..|]. intros i line d x y Hi Hl Hp.
  apply (Hval i line d x y); [by apply elem_of_range|lia..|done|done].
Qed.

(** X3.  Lines after the last customer line are not read: a file with at
    least [num_customers + 1] lines gives the same result - instance or
    error - whatever follows them. *)
Theorem reader_ignores_extra_lines (file_name : pystr) (lines extra : list pystr)
    (line0 : pystr) (n nv cap : Z) :
  lines !! 0 = Some line0 →
  parse_first_line py_int line0 = Ok (n, nv, cap) →
  Z.to_nat n + 1 ≤ length lines →
  VRPInstance_init float_zero py_int py_float file_name (Some (lines ++ extra))
  = VRPInstance_init float_zero py_int py_float file_name (Some lines).
Proof.
  intros H0 Hh Hlen. unfold VRPInstance_init.
  rewrite (read_instance_eq float_zero py_int py_float (lines ++ extra) line0 n nv cap
             (lookup_app_l_Some _ _ _ _ H0) Hh).
  rewrite (read_instance_eq float_zero py_int py_float lines line0 n nv cap H0 Hh).
  destruct (list_refused n) as [msg|]; [done|].
  rewrite (for_r_ext _ (parse_customer py_int py_float (lines ++ extra))
             (parse_customer py_int py_float lines)); [done|].
  intros i [[demand xs] ys] Hi%elem_of_range. unfold parse_customer, getitem.
  rewrite length_app, !bool_decide_eq_true_2 by lia.
  by rewrite lookup_app_l by lia.
Qed.

End vrp_instance_more.

(** X2, witness. *)
Lemma reader_stores_lines_witness :
  ∃ inst,
    read_file "two.vrp" (Some ["2 1 10"; "0 0 0"; "7 2.5 4"]) = Ok inst
    ∧ num_customers inst = 2%Z ∧ num_vehicles inst = 1%Z ∧ vehicle_capacity inst = 10%Z
    ∧ sized inst
    ∧ ∀ i line d x y,
        (Z.of_nat i < 2)%Z →
        (["2 1 10"; "0 0 0"; "7 2.5 4"] : list pystr) !! (i + 1) = Some line →
        parse_customer_line ascii_int ascii_float line = Ok (d, x, y) →
        demand_of_customer inst !! i = Some d
        ∧ x_coord_of_customer inst !! i = Some x
        ∧ y_coord_of_customer inst !! i = Some y.
Proof.
  apply (reader_stores_lines (Dec 0 0) ascii_int ascii_float
           "two.vrp" ["2 1 10"; "0 0 0"; "7 2.5 4"] "2 1 10" 2 1 10).
  - reflexivity.
  - reflexivity.
  - reflexivity.
  - intros [|[|i]] line Hi Hl; [| |lia]; injection Hl as <-; eexists; reflexivity.
Defined.

(** X3, witness. *)
Lemma reader_ignores_extra_lines_witness :
  read_file "two.vrp" (Some ((["2 1 10"; "0 0 0"; "7 2.5 4"] : list pystr) ++ ["not"; "read"]))
  = read_file "two.vrp" (Some ["2 1 10"; "0 0 0"; "7 2.5 4"]).
Proof.
  apply (reader_ignores_extra_lines (Dec 0 0) ascii_int ascii_float
           "two.vrp" ["2 1 10"; "0 0 0"; "7 2.5 4"] ["not"; "read"] "2 1 10" 2 1 10).
  - reflexivity.
  - reflexivity.
  - simpl. lia.
Defined.

(** ** The model: variables, objective, the other constraints, its size *)

Lemma length_bind_const {A B} (l : list A) (f : A → list B) (k : nat) :
  (∀ a, a ∈ l → length (f a) = k) → length (l ≫= f) = length l * k.
Proof.
  induction l as [|a l IH]; intros Hf; [done|].
  rewrite bind_cons, length_app, Hf, IH by (try left; intros; apply Hf; by right).
  simpl. lia.
Qed.

Lemma fmap_bind {A B C} (f : B → C) (g : A → list B) (l : list A) :
  f <$> (l ≫= g) = l ≫= (λ a, f <$> g a).
Proof. induction l as [|a l IH]; [done|]. by rewrite !bind_cons, fmap_app, IH. Qed.

Section model_more.
  Context {float : Type} `{!Platform float} (p : VRPInstance float).
  Local Abbreviation nv := (num_vehicles p).
  Local Abbreviation n := (num_customers p).

Lemma elem_of_edge_variables (x : var) (b : Z * Z) :
  (x, b) ∈ edge_variables p
  ↔ ∃ v i j, (Z.of_nat v < nv)%Z ∧ (Z.of_nat i < n)%Z ∧ (Z.of_nat j < n)%Z
             ∧ x = edge_var v i j ∧ b = edge_bounds i j.
Proof.
  unfold edge_variables. split.
  - intros (v & (i & (j & Hx & Hj%elem_of_range)%list_elem_of_bind
                   & Hi%elem_of_range)%list_elem_of_bind
              & Hv%elem_of_range)%list_elem_of_bind.
    apply list_elem_of_singleton in Hx. injection Hx as -> ->. by exists v, i, j.
  - intros (v & i & j & Hv & Hi & Hj & -> & ->).
    apply list_elem_of_bind. exists v. split; [|by apply elem_of_range].
    apply list_elem_of_bind. exists i. split; [|by apply elem_of_range].
    apply list_elem_of_bind. exists j. split; [by left|by apply elem_of_range].
Qed.

Lemma elem_of_order_variables (x : var) (b : Z * Z) :
  (x, b) ∈ order_variables p
  ↔ ∃ v i, (Z.of_nat v < nv)%Z ∧ (Z.of_nat i < n)%Z
           ∧ x = order_var v i ∧ b = order_bounds p i.
Proof.
  unfold order_variables. split.
  - intros (v & (i & Hx & Hi%elem_of_range)%list_elem_of_bind
              & Hv%elem_of_range)%list_elem_of_bind.
    apply list_elem_of_singleton in Hx. injection Hx as -> ->. by exists v, i.
  - intros (v & i & Hv & Hi & -> & ->).
    apply list_elem_of_bind. exists v. split; [|by apply elem_of_range].
    apply list_elem_of_bind. exists i. split; [by left|by apply elem_of_range].
Qed.

Lemma NoDup_edge_variables : NoDup (edge_variables p).
Proof.
  unfold edge_variables.
  apply NoDup_bind; [| |apply NoDup_seq].
  { intros v1 v2 y _ _
      (i1 & (j1 & H1%list_elem_of_singleton & _)%list_elem_of_bind & _)%list_elem_of_bind
      (i2 & (j2 & H2%list_elem_of_singleton & _)%list_elem_of_bind & _)%list_elem_of_bind.
    congruence. }
  intros v _. apply NoDup_bind; [| |apply NoDup_seq].
  { intros i1 i2 y _ _ (j1 & H1%list_elem_of_singleton & _)%list_elem_of_bind
      (j2 & H2%list_elem_of_singleton & _)%list_elem_of_bind.
    congruence. }
  intros i _. apply NoDup_bind; [| |apply NoDup_seq].
  { intros j1 j2 y _ _ H1%list_elem_of_singleton H2%list_elem_of_singleton. congruence. }
  intros j _. apply NoDup_singleton.
Qed.

Lemma NoDup_order_variables : NoDup (order_variables p).
Proof.
  unfold order_variables.
  apply NoDup_bind; [| |apply NoDup_seq].
  { intros v1 v2 y _ _ (i1 & H1%list_elem_of_singleton & _)%list_elem_of_bind
      (i2 & H2%list_elem_of_singleton & _)%list_elem_of_bind.
    congruence. }
  intros v _. apply NoDup_bind; [| |apply NoDup_seq].
  { intros i1 i2 y _ _ H1%list_elem_of_singleton H2%list_elem_of_singleton. congruence. }
  intros i _. apply NoDup_singleton.
Qed.

Lemma length_edge_variables :
  length (edge_variables p) = Z.to_nat nv * (Z.to_nat n * Z.to_nat n).
Proof.
  unfold edge_variables. rewrite (length_bind_const _ _ (Z.to_nat n * Z.to_nat n)).
  { by rewrite length_range. }
  intros v _. rewrite (length_bind_const _ _ (Z.to_nat n)).
  { by rewrite length_range. }
  intros i _. rewrite (length_bind_const _ _ 1); [rewrite length_range; lia|done].
Qed.

Lemma length_order_variables : length (order_variables p) = Z.to_nat nv * Z.to_nat n.
Proof.
  unfold order_variables. rewrite (length_bind_const _ _ (Z.to_nat n)).
  { by rewrite length_range. }
  intros v _. rewrite (length_bind_const _ _ 1); [rewrite length_range; lia|done].
Qed.

(** X4.  The builder declares each variable once: an edge variable for every
    vehicle and every ordered pair of nodes, bounded by 0 and 1, and by 0 and
    0 on the diagonal; an order variable for every vehicle and node, fixed to
    0 at the depot and bounded by 1 and [num_customers - 1] elsewhere. *)
Theorem variables_built (m : Model) :
  build p = Ok m →
  NoDup (variables m).*1
  ∧ length (variables m) = Z.to_nat nv * (Z.to_nat n * Z.to_nat n) + Z.to_nat nv * Z.to_nat n
  ∧ ∀ x b,
      (x, b) ∈ variables m
      ↔ (∃ v i j, (Z.of_nat v < nv)%Z ∧ (Z.of_nat i < n)%Z ∧ (Z.of_nat j < n)%Z
                  ∧ x = edge_var v i j
                  ∧ b = if bool_decide (i ≠ j) then (0, 1)%Z else (0, 0)%Z)
        ∨ (∃ v i, (Z.of_nat v < nv)%Z ∧ (Z.of_nat i < n)%Z
                  ∧ x = order_var v i
                  ∧ b = if bool_decide (i = 0) then (0, 0)%Z else (1, n - 1)%Z).
Proof.
  intros [-> _]%build_Ok_inv. unfold built_model. cbn [variables].
  assert (∀ x b, (x, b) ∈ edge_variables p ++ order_variables p
                 ↔ (∃ v i j, (Z.of_nat v < nv)%Z ∧ (Z.of_nat i < n)%Z ∧ (Z.of_nat j < n)%Z
                             ∧ x = edge_var v i j ∧ b = edge_bounds i j)
                   ∨ (∃ v i, (Z.of_nat v < nv)%Z ∧ (Z.of_nat i < n)%Z
                             ∧ x = order_var v i ∧ b = order_bounds p i)) as Hmem.
  { intros x b. by rewrite elem_of_app, elem_of_edge_variables, elem_of_order_variables. }
  split_and!.
  - apply NoDup_fmap_fst.
    + intros x b1 b2 H1%Hmem H2%Hmem.
      destruct H1 as [(v & i & j & _ & _ & _ & -> & ->)|(v & i & _ & _ & -> & ->)];
        destruct H2 as [(v' & i' & j' & _ & _ & _ & Hx & ->)|(v' & i' & _ & _ & Hx & ->)];
        by simplify_eq.
    + apply NoDup_app. split_and!; [apply NoDup_edge_variables| |apply NoDup_order_variables].
      intros [x b] (v & i & j & _ & _ & _ & -> & _)%elem_of_edge_variables
        (v' & i' & _ & _ & Hx & _)%elem_of_order_variables.
      discriminate.
  - by rewrite length_app, length_edge_variables, length_order_variables.
  - apply Hmem.
Qed.

(** X5.  The objective has one term per edge variable, the diagonal included,
    in the order the edge variables were created; the term of
    [edge_var[v][i][j]] carries [distance(i, j)]. *)
Theorem objective_follows_edge_variables (m : Model) :
  build p = Ok m →
  objective m
  = (λ x, (x, arc_ends x))
      <$> take (Z.to_nat nv * (Z.to_nat n * Z.to_nat n)) (variables m).*1.
Proof.
  intros [-> _]%build_Ok_inv. unfold built_model. cbn [variables objective].
  rewrite fmap_app, <- length_edge_variables, <- (length_fmap fst (edge_variables p)).
  rewrite take_app_length. unfold objective_terms, edge_variables.
  rewrite !fmap_bind. apply list_bind_ext; [|done]. intros v.
  rewrite !fmap_bind. apply list_bind_ext; [|done]. intros i.
  rewrite !fmap_bind. by apply list_bind_ext.
Qed.

Lemma degree_in_model (c : nat) :
  1 ≤ c → (Z.of_nat c < n)%Z →
  incoming_degree p c ∈ constraints (built_model p)
  ∧ outgoing_degree p c ∈ constraints (built_model p).
Proof.
  intros Hc Hc'.
  assert (∀ x, x ∈ [incoming_degree p c; outgoing_degree p c] →
               x ∈ constraints (built_model p)) as Hin.
  { intros x Hx. unfold built_model. cbn [constraints]. apply elem_of_app. left.
    unfold flow_constraints. apply list_elem_of_bind.
    exists c. split; [|by apply elem_of_range].
    apply elem_of_app. left. rewrite bool_decide_eq_true_2 by lia. done. }
  split; apply Hin; [by left|right; by left].
Qed.

Lemma depot_balance_in_model :
  (0 < n)%Z → depot_balance p ∈ constraints (built_model p).
Proof.
  intros Hn. unfold built_model. cbn [constraints]. apply elem_of_app. left.
  unfold flow_constraints. apply list_elem_of_bind.
  exists 0. split; [|apply elem_of_range; lia].
  apply elem_of_app. left. by left.
Qed.

Lemma depot_in_model (v : nat) (c : constraint) :
  (Z.of_nat v < nv)%Z →
  c ∈ [leaves_once p v; returns_once p v; returns_if_leaves p v] →
  c ∈ constraints (built_model p).
Proof.
  intros Hv Hc. unfold built_model. cbn [constraints]. rewrite !elem_of_app. right. left.
  unfold depot_constraints. apply list_elem_of_bind. exists v.
  split; [done|by apply elem_of_range].
Qed.

(** X6.  Lines 41-48: the model holds the balance of the depot over all
    vehicles, and for every vehicle and every node the conservation of that
    vehicle's flow - what enters the node equals what leaves it. *)
Theorem conservation_constraints_built (m : Model) (v c : nat) :
  build p = Ok m → (Z.of_nat v < nv)%Z → (Z.of_nat c < n)%Z →
  conservation p v c ∈ constraints m
  ∧ depot_balance p ∈ constraints m
  ∧ ∀ sol,
      (holds sol (conservation p v c)
       ↔ sum_over (range n) (λ i, sol (edge_var v i c))
         = sum_over (range n) (λ j, sol (edge_var v c j)))
      ∧ (holds sol (depot_balance p)
         ↔ sum_over (range nv) (λ v, sum_over (range n) (λ i, sol (edge_var v i 0)))
           = sum_over (range nv) (λ v, sum_over (range n) (λ j, sol (edge_var v 0 j)))).
Proof.
  intros [-> _]%build_Ok_inv Hv Hc. split_and!.
  - by apply conservation_in_model.
  - apply depot_balance_in_model. lia.
  - intros sol. split; [apply holds_conservation|].
    unfold holds, depot_balance, ceq. cbn [csense lhs rhs].
    by rewrite eval_into_all, eval_from_all.
Qed.

(** X7.  Lines 51-54: for every vehicle the model holds the three depot
    constraints - at most one arc out of the depot, at most one arc into it,
    and as many out as in. *)
Theorem depot_constraints_built (m : Model) (v : nat) :
  build p = Ok m → (Z.of_nat v < nv)%Z →
  leaves_once p v ∈ constraints m
  ∧ returns_once p v ∈ constraints m
  ∧ returns_if_leaves p v ∈ constraints m
  ∧ ∀ sol,
      (holds sol (leaves_once p v)
       ↔ (sum_over (range n) (λ j, sol (edge_var v 0 j)) ≤ 1)%Z)
      ∧ (holds sol (returns_once p v)
         ↔ (sum_over (range n) (λ i, sol (edge_var v i 0)) ≤ 1)%Z)
      ∧ (holds sol (returns_if_leaves p v)
         ↔ sum_over (range n) (λ j, sol (edge_var v 0 j))
           = sum_over (range n) (λ i, sol (edge_var v i 0))).
Proof.
  intros [-> _]%build_Ok_inv Hv. split_and!.
  - apply (depot_in_model v); [done|]. by left.
  - apply (depot_in_model v); [done|]. right. by left.
  - apply (depot_in_model v); [done|]. do 2 right. by left.
  - intros sol. unfold holds, leaves_once, returns_once, returns_if_leaves, cle, ceq.
    cbn [csense lhs rhs]. by rewrite eval_into_of, eval_from_of, eval_lconst.
Qed.

Lemma length_flow_constraints :
  length (flow_constraints p) = Z.to_nat n * Z.to_nat nv + (2 * Z.to_nat n - 1).
Proof.
  assert (∀ c, length (range nv ≫= λ v, [conservation p v c]) = Z.to_nat nv) as Hcons.
  { intros c. rewrite (length_bind_const _ _ 1); [rewrite length_range; lia|done]. }
  unfold flow_constraints. assert (range n = seq 0 (Z.to_nat n)) as -> by done.
  destruct (Z.to_nat n) as [|k]; [done|].
  rewrite <- cons_seq, bind_cons, !length_app, Hcons.
  rewrite (length_bind_const _ _ (2 + Z.to_nat nv)).
  - rewrite length_seq. simpl. lia.
  - intros c [Hc _]%elem_of_seq. rewrite length_app, Hcons.
    rewrite bool_decide_eq_true_2 by lia. done.
Qed.

(** X8.  The size of the model: [n * nv + 2 * n - 1] flow constraints (none
    without nodes), 3 depot constraints and 1 capacity constraint per vehicle,
    and [(n - 1) * (n - 1)] MTZ constraints per vehicle. *)
Theorem constraint_count (m : Model) :
  build p = Ok m →
  length (constraints m)
  = Z.to_nat n * Z.to_nat nv + (2 * Z.to_nat n - 1)
    + 3 * Z.to_nat nv + Z.to_nat nv
    + Z.to_nat nv * ((Z.to_nat n - 1) * (Z.to_nat n - 1)).
Proof.
  intros [-> _]%build_Ok_inv. unfold built_model. cbn [constraints].
  rewrite !length_app, length_flow_constraints.
  unfold depot_constraints, capacity_constraints, mtz_constraints.
  rewrite (length_bind_const (range nv) _ 3) by done.
  rewrite (length_bind_const (range nv) _ 1) by done.
  rewrite (length_bind_const (range nv) _ ((Z.to_nat n - 1) * (Z.to_nat n - 1))).
  { rewrite length_range. lia. }
  intros v _. rewrite (length_bind_const _ _ (Z.to_nat n - 1)).
  { by rewrite length_seq. }
  intros i _. rewrite (length_bind_const _ _ 1); [rewrite length_seq; lia|done].
Qed.

End model_more.

(** X4, witness. *)
Lemma variables_built_witness :
  NoDup (variables (built_model toy_two_vehicles)).*1
  ∧ length (variables (built_model toy_two_vehicles))
    = Z.to_nat 2 * (Z.to_nat 3 * Z.to_nat 3) + Z.to_nat 2 * Z.to_nat 3
  ∧ ∀ x b,
      (x, b) ∈ variables (built_model toy_two_vehicles)
      ↔ (∃ v i j, (Z.of_nat v < 2)%Z ∧ (Z.of_nat i < 3)%Z ∧ (Z.of_nat j < 3)%Z
                  ∧ x = edge_var v i j
                  ∧ b = if bool_decide (i ≠ j) then (0, 1)%Z else (0, 0)%Z)
        ∨ (∃ v i, (Z.of_nat v < 2)%Z ∧ (Z.of_nat i < 3)%Z
                  ∧ x = order_var v i
                  ∧ b = if bool_decide (i = 0) then (0, 0)%Z else (1, 3 - 1)%Z).
Proof.
  apply (variables_built toy_two_vehicles (built_model toy_two_vehicles)).
  vm_compute. reflexivity.
Defined.

(** X5, witness. *)
Lemma objective_follows_edge_variables_witness :
  objective (built_model toy_two_vehicles)
  = (λ x, (x, arc_ends x))
      <$> take (Z.to_nat 2 * (Z.to_nat 3 * Z.to_nat 3))
               (variables (built_model toy_two_vehicles)).*1.
Proof.
  apply (objective_follows_edge_variables toy_two_vehicles (built_model toy_two_vehicles)).
  vm_compute. reflexivity.
Defined.

(** X6, witness: vehicle 1 at node 2. *)
Lemma conservation_constraints_built_witness :
  conservation toy_two_vehicles 1 2 ∈ constraints (built_model toy_two_vehicles)
  ∧ depot_balance toy_two_vehicles ∈ constraints (built_model toy_two_vehicles)
  ∧ ∀ sol,
      (holds sol (conservation toy_two_vehicles 1 2)
       ↔ sum_over (range 3) (λ i, sol (edge_var 1 i 2))
         = sum_over (range 3) (λ j, sol (edge_var 1 2 j)))
      ∧ (holds sol (depot_balance toy_two_vehicles)
         ↔ sum_over (range 2) (λ v, sum_over (range 3) (λ i, sol (edge_var v i 0)))
           = sum_over (range 2) (λ v, sum_over (range 3) (λ j, sol (edge_var v 0 j)))).
Proof.
  apply (conservation_constraints_built toy_two_vehicles (built_model toy_two_vehicles) 1 2).
  - vm_compute. reflexivity.
  - simpl. lia.
  - simpl. lia.
Defined.

(** X7, witness: vehicle 1. *)
Lemma depot_constraints_built_witness :
  leaves_once toy_two_vehicles 1 ∈ constraints (built_model toy_two_vehicles)
  ∧ returns_once toy_two_vehicles 1 ∈ constraints (built_model toy_two_vehicles)
  ∧ returns_if_leaves toy_two_vehicles 1 ∈ constraints (built_model toy_two_vehicles)
  ∧ ∀ sol,
      (holds sol (leaves_once toy_two_vehicles 1)
       ↔ (sum_over (range 3) (λ j, sol (edge_var 1 0 j)) ≤ 1)%Z)
      ∧ (holds sol (returns_once toy_two_vehicles 1)
         ↔ (sum_over (range 3) (λ i, sol (edge_var 1 i 0)) ≤ 1)%Z)
      ∧ (holds sol (returns_if_leaves toy_two_vehicles 1)
         ↔ sum_over (range 3) (λ j, sol (edge_var 1 0 j))
           = sum_over (range 3) (λ i, sol (edge_var 1 i 0))).
Proof.
  apply (depot_constraints_built toy_two_vehicles (built_model toy_two_vehicles) 1).
  - vm_compute. reflexivity.
  - simpl. lia.
Defined.

(** X8, witness: 3 nodes and 2 vehicles give 27 constraints. *)
Lemma constraint_count_witness :
  length (constraints (built_model toy_two_vehicles))
  = Z.to_nat 3 * Z.to_nat 2 + (2 * Z.to_nat 3 - 1)
    + 3 * Z.to_nat 2 + Z.to_nat 2
    + Z.to_nat 2 * ((Z.to_nat 3 - 1) * (Z.to_nat 3 - 1)).
Proof.
  apply (constraint_count toy_two_vehicles (built_model toy_two_vehicles)).
  vm_compute. reflexivity.
Defined.

(** ** Assignments that satisfy the model *)

Lemma sum_over_Permutation {A} (l k : list A) (f : A → Z) :
  l ≡ₚ k → sum_over l f = sum_over k f.
Proof.
  induction 1 as [|a l k _ IH|a b l|l k k' _ IH1 _ IH2].
  - done.
  - by rewrite !sum_over_cons, IH.
  - rewrite !sum_over_cons. lia.
  - by rewrite IH1.
Qed.

Lemma sum_over_le {A} (l : list A) (f g : A → Z) :
  (∀ a, a ∈ l → f a ≤ g a)%Z → (sum_over l f ≤ sum_over l g)%Z.
Proof.
  induction l as [|a l IH]; intros H; [done|]. rewrite !sum_over_cons.
  assert (f a ≤ g a)%Z by (apply H; by left).
  assert (sum_over l f ≤ sum_over l g)%Z by (apply IH; intros b Hb; apply H; by right). lia.
Qed.

(** Two different members of a sum of non-negative terms. *)
Lemma sum_over_two {A} (l : list A) (f : A → Z) (a b : A) :
  (∀ c, c ∈ l → 0 ≤ f c)%Z → a ∈ l → b ∈ l → a ≠ b →
  (f a + f b ≤ sum_over l f)%Z.
Proof.
  intros Hpos Ha Hb Hne. apply elem_of_Permutation in Ha as [k Hk].
  rewrite (sum_over_Permutation _ _ _ Hk), sum_over_cons.
  assert (b ∈ k) as Hbk.
  { rewrite Hk in Hb. apply elem_of_cons in Hb as [->|Hb]; done. }
  assert (f b ≤ sum_over k f)%Z; [|lia].
  apply sum_over_member; [|done]. intros c Hc. apply Hpos. rewrite Hk. by right.
Qed.

(** The sum over a list without repeats is at most the sum over a list that
    has its members, when the terms are non-negative. *)
Lemma sum_over_NoDup_subseteq {A} (l k : list A) (g : A → Z) :
  NoDup l → (∀ a, a ∈ l → a ∈ k) → (∀ a, a ∈ k → 0 ≤ g a)%Z →
  (sum_over l g ≤ sum_over k g)%Z.
Proof.
  revert k. induction l as [|a l IH]; intros k Hnd Hsub Hpos.
  { by apply sum_over_nonneg. }
  apply NoDup_cons in Hnd as [Ha Hnd].
  destruct (proj1 (elem_of_Permutation k a) (Hsub a ltac:(by left))) as [k' Hk].
  rewrite (sum_over_Permutation _ _ _ Hk), !sum_over_cons.
  assert (sum_over l g ≤ sum_over k' g)%Z; [|lia].
  apply IH; [done| |].
  - intros b Hb. assert (b ∈ k) as Hbk by (apply Hsub; by right).
    rewrite Hk in Hbk. apply elem_of_cons in Hbk as [->|Hbk]; done.
  - intros b Hb. apply Hpos. rewrite Hk. by right.
Qed.

(** A sum of terms 0 or 1 that is 1 has exactly one term 1. *)
Lemma sum_over_one_unique `{EqDecision A} (l : list A) (f : A → Z) :
  (∀ a, a ∈ l → 0 ≤ f a ≤ 1)%Z → sum_over l f = 1%Z →
  ∃ a, a ∈ l ∧ f a = 1%Z ∧ ∀ b, b ∈ l → f b = 1%Z → b = a.
Proof.
  intros H01 Hsum.
  destruct (sum_over_positive l f) as (a & Ha & Hpos); [lia|].
  exists a. pose proof (H01 a Ha). split_and!; [done|lia|].
  intros b Hb Hfb. destruct (decide (b = a)) as [|Hne]; [done|].
  pose proof (sum_over_two l f a b (λ c Hc, proj1 (H01 c Hc)) Ha Hb ltac:(done)). lia.
Qed.

Lemma elem_of_vehicle_nodes {float : Type} (p : VRPInstance float) (v i : nat) :
  (v, i) ∈ vehicle_nodes p
  ↔ (Z.of_nat v < num_vehicles p)%Z ∧ (Z.of_nat i < num_customers p)%Z.
Proof.
  unfold vehicle_nodes. rewrite list_elem_of_bind. split.
  - intros (v' & (i' & Hx%list_elem_of_singleton & Hi%elem_of_range)%list_elem_of_bind
               & Hv%elem_of_range). by simplify_eq.
  - intros [Hv Hi]. exists v. split; [|by apply elem_of_range].
    apply list_elem_of_bind. exists i. split; [by left|by apply elem_of_range].
Qed.

Lemma sum_over_vehicle_nodes {float : Type} (p : VRPInstance float) (f : nat → nat → Z) :
  sum_over (vehicle_nodes p) (λ vi, f vi.1 vi.2)
  = sum_over (range (num_vehicles p)) (λ v, sum_over (range (num_customers p)) (f v)).
Proof.
  unfold vehicle_nodes. rewrite sum_over_bind. apply sum_over_ext. intros v _.
  rewrite sum_over_bind. apply sum_over_ext. intros i _. unfold sum_over. simpl. lia.
Qed.

Section feasible_model.
  Context {float : Type} (p : VRPInstance float) (sol : var → Z).
  Local Abbreviation nv := (num_vehicles p).
  Local Abbreviation n := (num_customers p).
  Hypothesis Hfeas : feasible (built_model p) sol.

Lemma feas_holds (c : constraint) : c ∈ constraints (built_model p) → holds sol c.
Proof. destruct Hfeas as [_ Hc]. rewrite Forall_forall in Hc. apply Hc. Qed.

Lemma feas_bounds (x : var) (b : Z * Z) :
  (x, b) ∈ variables (built_model p) → (b.1 ≤ sol x ≤ b.2)%Z.
Proof.
  destruct Hfeas as [Hv _]. rewrite Forall_forall in Hv. intros Hx. apply (Hv _ Hx).
Qed.

Lemma feas_edge_01 (v i j : nat) :
  (Z.of_nat v < nv)%Z → (Z.of_nat i < n)%Z → (Z.of_nat j < n)%Z →
  (0 ≤ sol (edge_var v i j) ≤ 1)%Z.
Proof.
  intros Hv Hi Hj. pose proof (feas_bounds _ _ (edge_var_in_model p v i j Hv Hi Hj)) as Hb.
  unfold edge_bounds in Hb. case_bool_decide; simpl in Hb; lia.
Qed.

Lemma feas_edge_diagonal (v i : nat) :
  (Z.of_nat v < nv)%Z → (Z.of_nat i < n)%Z → sol (edge_var v i i) = 0%Z.
Proof.
  intros Hv Hi. pose proof (feas_bounds _ _ (edge_var_in_model p v i i Hv Hi Hi)) as Hb.
  unfold edge_bounds in Hb. rewrite bool_decide_eq_false_2 in Hb by auto. simpl in Hb. lia.
Qed.

Lemma feas_order (v i : nat) :
  (Z.of_nat v < nv)%Z → 1 ≤ i → (Z.of_nat i < n)%Z →
  (1 ≤ sol (order_var v i) ≤ n - 1)%Z.
Proof.
  intros Hv Hi Hi'. pose proof (feas_bounds _ _ (order_var_in_model p v i Hv Hi')) as Hb.
  unfold order_bounds in Hb. rewrite bool_decide_eq_false_2 in Hb by lia. done.
Qed.

Lemma feas_mtz (v i j : nat) :
  (Z.of_nat v < nv)%Z → 1 ≤ i → (Z.of_nat i < n)%Z → 1 ≤ j → (Z.of_nat j < n)%Z →
  (sol (order_var v j) + 1 - n * (1 - sol (edge_var v i j)) ≤ sol (order_var v i))%Z.
Proof. intros. apply holds_mtz, feas_holds. by apply mtz_in_model. Qed.

Lemma feas_conserved (v c : nat) :
  (Z.of_nat v < nv)%Z → (Z.of_nat c < n)%Z →
  sum_over (range n) (λ i, sol (edge_var v i c))
  = sum_over (range n) (λ j, sol (edge_var v c j)).
Proof. intros. apply holds_conservation, feas_holds. by apply conservation_in_model. Qed.

Lemma feas_in_degree (c : nat) :
  1 ≤ c → (Z.of_nat c < n)%Z →
  sum_over (vehicle_nodes p) (λ vi, sol (edge_var vi.1 vi.2 c)) = 1%Z.
Proof.
  intros Hc Hc'. pose proof (feas_holds _ (proj1 (degree_in_model p c Hc Hc'))) as H.
  unfold holds, incoming_degree, ceq in H. cbn [csense lhs rhs] in H.
  rewrite eval_into_all, eval_lconst in H.
  by rewrite (sum_over_vehicle_nodes p (λ v i, sol (edge_var v i c))).
Qed.

Lemma feas_out_degree (c : nat) :
  1 ≤ c → (Z.of_nat c < n)%Z →
  sum_over (vehicle_nodes p) (λ vj, sol (edge_var vj.1 c vj.2)) = 1%Z.
Proof.
  intros Hc Hc'. pose proof (feas_holds _ (proj2 (degree_in_model p c Hc Hc'))) as H.
  unfold holds, outgoing_degree, ceq in H. cbn [csense lhs rhs] in H.
  rewrite eval_from_all, eval_lconst in H.
  by rewrite (sum_over_vehicle_nodes p (λ v j, sol (edge_var v c j))).
Qed.

Lemma feas_leaves_once (v : nat) :
  (Z.of_nat v < nv)%Z → (sum_over (range n) (λ j, sol (edge_var v 0 j)) ≤ 1)%Z.
Proof.
  intros Hv. pose proof (feas_holds (leaves_once p v)) as H.
  unfold holds, leaves_once, cle in H. cbn [csense lhs rhs] in H.
  rewrite eval_from_of, eval_lconst in H. apply H.
  apply (depot_in_model p v); [done|by left].
Qed.

(** The arc into a customer is unique, over all vehicles and sources. *)
Lemma feas_unique_in (c v i v' i' : nat) :
  1 ≤ c → (Z.of_nat c < n)%Z →
  (Z.of_nat v < nv)%Z → (Z.of_nat i < n)%Z → sol (edge_var v i c) = 1%Z →
  (Z.of_nat v' < nv)%Z → (Z.of_nat i' < n)%Z → sol (edge_var v' i' c) = 1%Z →
  v' = v ∧ i' = i.
Proof.
  intros Hc Hc' Hv Hi H1 Hv' Hi' H1'.
  destruct (sum_over_one_unique (vehicle_nodes p) (λ vi, sol (edge_var vi.1 vi.2 c)))
    as ([v0 i0] & _ & _ & Huniq).
  - intros [a b] [Ha Hb]%elem_of_vehicle_nodes. by apply feas_edge_01.
  - by apply feas_in_degree.
  - pose proof (Huniq (v, i) (proj2 (elem_of_vehicle_nodes p v i) (conj Hv Hi)) H1).
    pose proof (Huniq (v', i') (proj2 (elem_of_vehicle_nodes p v' i') (conj Hv' Hi')) H1').
    by simplify_eq.
Qed.

(** The arc out of a customer is unique, over all vehicles and destinations. *)
Lemma feas_unique_out (c v j v' j' : nat) :
  1 ≤ c → (Z.of_nat c < n)%Z →
  (Z.of_nat v < nv)%Z → (Z.of_nat j < n)%Z → sol (edge_var v c j) = 1%Z →
  (Z.of_nat v' < nv)%Z → (Z.of_nat j' < n)%Z → sol (edge_var v' c j') = 1%Z →
  v' = v ∧ j' = j.
Proof.
  intros Hc Hc' Hv Hj H1 Hv' Hj' H1'.
  destruct (sum_over_one_unique (vehicle_nodes p) (λ vj, sol (edge_var vj.1 c vj.2)))
    as ([v0 j0] & _ & _ & Huniq).
  - intros [a b] [Ha Hb]%elem_of_vehicle_nodes. by apply feas_edge_01.
  - by apply feas_out_degree.
  - pose proof (Huniq (v, j) (proj2 (elem_of_vehicle_nodes p v j) (conj Hv Hj)) H1).
    pose proof (Huniq (v', j') (proj2 (elem_of_vehicle_nodes p v' j') (conj Hv' Hj')) H1').
    by simplify_eq.
Qed.

(** A vehicle has at most one arc out of the depot. *)
Lemma feas_unique_start (v j j' : nat) :
  (Z.of_nat v < nv)%Z →
  (Z.of_nat j < n)%Z → sol (edge_var v 0 j) = 1%Z →
  (Z.of_nat j' < n)%Z → sol (edge_var v 0 j') = 1%Z →
  j' = j.
Proof.
  intros Hv Hj H1 Hj' H1'. destruct (decide (j' = j)) as [|Hne]; [done|].
  assert (0 < n)%Z as Hn by lia.
  pose proof (sum_over_two (range n) (λ j, sol (edge_var v 0 j)) j j') as H2.
  pose proof (feas_leaves_once v Hv). simpl in H2. rewrite H1, H1' in H2.
  assert (1 + 1 ≤ sum_over (range n) (λ j, sol (edge_var v 0 j)))%Z; [|lia].
  apply H2; [|by apply elem_of_range..|done].
  intros c Hc%elem_of_range. apply feas_edge_01; [done|lia|done].
Qed.

(** A node a vehicle enters, that vehicle leaves. *)
Lemma feas_leaves_entered (v i c : nat) :
  (Z.of_nat v < nv)%Z → (Z.of_nat i < n)%Z → (Z.of_nat c < n)%Z →
  sol (edge_var v i c) = 1%Z →
  ∃ j, (Z.of_nat j < n)%Z ∧ sol (edge_var v c j) = 1%Z.
Proof.
  intros Hv Hi Hc H1.
  assert (1 ≤ sum_over (range n) (λ i, sol (edge_var v i c)))%Z as Hin.
  { rewrite <- H1. apply (sum_over_member (range n) (λ i, sol (edge_var v i c)) i).
    - intros k Hk%elem_of_range. by apply feas_edge_01.
    - by apply elem_of_range. }
  rewrite feas_conserved in Hin by done.
  destruct (sum_over_positive (range n) (λ j, sol (edge_var v c j)))
    as (j & Hj%elem_of_range & Hpos); [lia|].
  exists j. split; [done|]. pose proof (feas_edge_01 v c j Hv Hc Hj). lia.
Qed.

(** A node a vehicle leaves, that vehicle enters. *)
Lemma feas_enters_left (v c j : nat) :
  (Z.of_nat v < nv)%Z → (Z.of_nat c < n)%Z → (Z.of_nat j < n)%Z →
  sol (edge_var v c j) = 1%Z →
  ∃ i, (Z.of_nat i < n)%Z ∧ sol (edge_var v i c) = 1%Z.
Proof.
  intros Hv Hc Hj H1.
  assert (1 ≤ sum_over (range n) (λ j, sol (edge_var v c j)))%Z as Hout.
  { rewrite <- H1. apply (sum_over_member (range n) (λ j, sol (edge_var v c j)) j).
    - intros k Hk%elem_of_range. by apply feas_edge_01.
    - by apply elem_of_range. }
  rewrite <- feas_conserved in Hout by done.
  destruct (sum_over_positive (range n) (λ i, sol (edge_var v i c)))
    as (i & Hi%elem_of_range & Hpos); [lia|].
  exists i. split; [done|]. pose proof (feas_edge_01 v i c Hv Hi Hc). lia.
Qed.

End feasible_model.

(** X9.  In every assignment that satisfies the built model, each non-depot
    customer is entered by exactly one arc and left by exactly one arc, over
    all vehicles, and both arcs belong to the same vehicle. *)
Theorem feasible_visits_once {float : Type} `{!Platform float} (p : VRPInstance float) (m : Model)
    (sol : var → Z) (c : nat) :
  build p = Ok m → feasible m sol → 1 ≤ c → (Z.of_nat c < num_customers p)%Z →
  ∃ v i j,
    (Z.of_nat v < num_vehicles p)%Z
    ∧ (Z.of_nat i < num_customers p)%Z ∧ (Z.of_nat j < num_customers p)%Z
    ∧ sol (edge_var v i c) = 1%Z ∧ sol (edge_var v c j) = 1%Z
    ∧ (∀ v' i', (Z.of_nat v' < num_vehicles p)%Z → (Z.of_nat i' < num_customers p)%Z →
                sol (edge_var v' i' c) = 1%Z → v' = v ∧ i' = i)
    ∧ (∀ v' j', (Z.of_nat v' < num_vehicles p)%Z → (Z.of_nat j' < num_customers p)%Z →
                sol (edge_var v' c j') = 1%Z → v' = v ∧ j' = j).
Proof.
  intros [-> _]%build_Ok_inv Hfeas Hc Hc'.
  destruct (sum_over_one_unique (vehicle_nodes p) (λ vi, sol (edge_var vi.1 vi.2 c)))
    as ([v i] & [Hv Hi]%elem_of_vehicle_nodes & H1 & _).
  { intros [a b] [Ha Hb]%elem_of_vehicle_nodes. by apply (feas_edge_01 p sol Hfeas). }
  { by apply (feas_in_degree p sol Hfeas). }
  simpl in *.
  destruct (feas_leaves_entered p sol Hfeas v i c Hv Hi Hc' H1) as (j & Hj & H1').
  exists v, i, j. split_and!; [done..| |].
  - intros v' i' Hv' Hi' H'. by eapply (feas_unique_in p sol Hfeas c v i).
  - intros v' j' Hv' Hj' H'. by eapply (feas_unique_out p sol Hfeas c v j).
Qed.

(** X9, witness: customer 1 under the tour 0 -> 2 -> 1 -> 0. *)
Lemma feasible_visits_once_witness :
  ∃ v i j,
    (Z.of_nat v < 2)%Z ∧ (Z.of_nat i < 3)%Z ∧ (Z.of_nat j < 3)%Z
    ∧ tour_021 (edge_var v i 1) = 1%Z ∧ tour_021 (edge_var v 1 j) = 1%Z
    ∧ (∀ v' i', (Z.of_nat v' < 2)%Z → (Z.of_nat i' < 3)%Z →
                tour_021 (edge_var v' i' 1) = 1%Z → v' = v ∧ i' = i)
    ∧ (∀ v' j', (Z.of_nat v' < 2)%Z → (Z.of_nat j' < 3)%Z →
                tour_021 (edge_var v' 1 j') = 1%Z → v' = v ∧ j' = j).
Proof.
  apply (feasible_visits_once toy_two_vehicles (built_model toy_two_vehicles) tour_021 1).
  - vm_compute. reflexivity.
  - apply (bool_decide_unpack _). vm_compute. exact I.
  - lia.
  - simpl. lia.
Defined.

(** ** The decoder: the shape of a route *)

Section decoder_more.
  Context {float : Type} (p : VRPInstance float) (sol : var → Z).
  Local Abbreviation nv := (num_vehicles p).
  Local Abbreviation n := (num_customers p).

Lemma trace_route_chain (fuel v current : nat) (route r : list string) :
  trace_route p sol fuel v current route = Some (Ok r) →
  ∃ nodes, r = route ++ (str <$> (nodes ++ [0]))
           ∧ Forall (λ c, c ≠ 0) nodes
           ∧ chain p sol v current (nodes ++ [0]).
Proof.
  revert current route. induction fuel as [|fuel IH]; intros current route; [discriminate|].
  simpl. destruct (index_1 _) as [next|e] eqn:Hi; [|discriminate].
  case_bool_decide as Hz.
  - intros [= <-]. subst next. exists []. by split_and!.
  - intros (nodes & -> & Hnz & Hch)%IH. exists (next :: nodes). split_and!.
    + by rewrite <- app_assoc.
    + by constructor.
    + done.
Qed.

Lemma chain_lt (v current : nat) (l : list nat) :
  chain p sol v current l → Forall (λ c, (Z.of_nat c < n)%Z) l.
Proof.
  revert current. induction l as [|c l IH]; intros current; [by constructor|].
  intros [[Hc _]%index_1_edge_row Hch]. constructor; [done|by eapply IH].
Qed.

(** Every node of a chain is entered by a selected arc. *)
Lemma chain_entered (v current : nat) (l : list nat) :
  (Z.of_nat current < n)%Z → chain p sol v current l →
  Forall (λ c, ∃ prev, (Z.of_nat prev < n)%Z ∧ sol (edge_var v prev c) = 1%Z) l.
Proof.
  revert current. induction l as [|c l IH]; intros current Hcur; [by constructor|].
  intros [[Hc H1]%index_1_edge_row Hch]. constructor; [by exists current|by eapply IH].
Qed.

(** Every node of a chain that closes at the depot has its successor in it. *)
Lemma chain_successor (v current i : nat) (l : list nat) :
  chain p sol v current (l ++ [0]) → i ∈ l →
  ∃ next, index_1 (edge_row p sol v i) = Ok next ∧ next ∈ l ++ [0].
Proof.
  revert current. induction l as [|a l IH]; intros current Hch Hi.
  { by apply elem_of_nil in Hi. }
  destruct Hch as [_ Hch]. apply elem_of_cons in Hi as [->|Hi].
  - destruct l as [|b l]; destruct Hch as [Hnext _].
    + exists 0. split; [done|]. right. by left.
    + exists b. split; [done|]. right. by left.
  - destruct (IH a Hch Hi) as (next & Hnext & Hin). exists next. split; [done|by right].
Qed.

(** The shape of a route the decoder returns, as a chain. *)
Lemma decode_vehicle_shape (fuel v : nat) (route : list string) :
  decode_vehicle p sol fuel v = Some (Ok route) →
  ∃ nodes,
    route = route_of nodes
    ∧ Forall (λ c, 1 ≤ c ∧ (Z.of_nat c < n)%Z) nodes
    ∧ ((nodes = [] ∧ 1%Z ∉ edge_row p sol v 0) ∨ chain p sol v 0 (nodes ++ [0])).
Proof.
  rewrite decode_vehicle_Z. case_bool_decide as Hn; [discriminate|].
  case_bool_decide as Hrow.
  - intros [= <-]. exists []. split_and!; [by rewrite <- str_0|by constructor|by left].
  - intros (nodes & -> & Hnz & Hch)%trace_route_chain. exists nodes. split_and!.
    + done.
    + apply chain_lt, Forall_app in Hch as [Hlt _].
      apply Forall_forall. intros c Hc. rewrite Forall_forall in Hnz, Hlt.
      specialize (Hnz c Hc). specialize (Hlt c Hc). split; [lia|done].
    + by right.
Qed.

(** The consecutive nodes of a chain. *)
Lemma chain_arcs (v current : nat) (l : list nat) (i j : nat) :
  chain p sol v current l → (i, j) ∈ zip (current :: l) l →
  index_1 (edge_row p sol v i) = Ok j.
Proof.
  revert current. induction l as [|c l IH]; intros current; simpl.
  - intros _ Hin. by apply elem_of_nil in Hin.
  - intros [Hc Hl] [Heq|Hin]%elem_of_cons.
    + by injection Heq as -> ->.
    + by apply (IH c).
Qed.

End decoder_more.

(** X10.  Whatever the values of the answer, a route the decoder returns for
    a vehicle starts and ends at the depot and goes through nodes other than
    the depot; unless it is the route of an unused vehicle, each of its arcs
    leads from a node to the first node selected in that node's row. *)
Theorem decoded_route_shape {float : Type} (p : VRPInstance float) {A : Type} `{!Value A}
    (sol : var → A) (fuel v : nat) (route : list string) :
  decode_vehicle p sol fuel v = Some (Ok route) →
  ∃ nodes,
    route = route_of nodes
    ∧ Forall (λ c, 1 ≤ c ∧ (Z.of_nat c < num_customers p)%Z) nodes
    ∧ ((nodes = [] ∧ ¬ has_1 (edge_row p sol v 0))
       ∨ ∀ i j, (i, j) ∈ route_arcs (0 :: nodes ++ [0]) →
                index_1 (edge_row p sol v i) = Ok j
                ∧ equals_1 (sol (edge_var v i j)) = true).
Proof.
  rewrite (decode_vehicle_tests p sol (ones sol) (ones_tests sol)).
  intros (nodes & -> & Hnodes & Hcase)%decode_vehicle_shape.
  exists nodes. split_and!; [done..|].
  destruct Hcase as [[-> Hunused]|Hch]; [left|right].
  - split; [done|]. by rewrite (has_1_tests p sol (ones sol) (ones_tests sol)), has_1_Z.
  - intros i j Harc. unfold route_arcs in Harc. simpl in Harc.
    pose proof (chain_arcs p (ones sol) v 0 _ i j Hch Harc) as Hij.
    rewrite (index_1_tests p sol (ones sol) (ones_tests sol)).
    split; [done|]. apply index_1_edge_row in Hij as [_ H1]. by apply ones_same_ones.
Qed.

(** X10, witness: two arcs out of the depot, the one towards 1 is followed. *)
Lemma decoded_route_shape_witness :
  ∃ nodes,
    ["0"; "1"; "0"] = route_of nodes
    ∧ Forall (λ c, 1 ≤ c ∧ (Z.of_nat c < 3)%Z) nodes
    ∧ ((nodes = [] ∧ ¬ has_1 (edge_row toy_one_vehicle (exactly two_ways) 0 0))
       ∨ ∀ i j, (i, j) ∈ route_arcs (0 :: nodes ++ [0]) →
                index_1 (edge_row toy_one_vehicle (exactly two_ways) 0 i) = Ok j
                ∧ equals_1 (exactly two_ways (edge_var 0 i j)) = true).
Proof.
  apply (decoded_route_shape toy_one_vehicle (exactly two_ways) 3 0 ["0"; "1"; "0"]).
  vm_compute. reflexivity.
Defined.

(** ** The decoder on assignments that satisfy the model *)

Lemma filter_all {A} (P : A → Prop) `{∀ x, Decision (P x)} (l : list A) :
  Forall P l → filter P l = l.
Proof.
  induction 1 as [|a l Ha _ IH]; [done|]. rewrite filter_cons_True by done. by rewrite IH.
Qed.

Lemma exists_Forall2 {A B} (Q : A → B → Prop) (l : list A) :
  (∀ a, a ∈ l → ∃ b, Q a b) → ∃ k, Forall2 Q l k.
Proof.
  induction l as [|a l IH]; intros H; [by exists []|].
  destruct (H a ltac:(by left)) as [b Hb].
  destruct IH as [k Hk]; [intros a' Ha'; apply H; by right|].
  exists (b :: k). by constructor.
Qed.

Lemma capacity_in_model {float : Type} (p : VRPInstance float) (v : nat) :
  (Z.of_nat v < num_vehicles p)%Z →
  capacity_constraint p v ∈ constraints (built_model p).
Proof.
  intros Hv. unfold built_model. cbn [constraints]. rewrite !elem_of_app. do 2 right. left.
  unfold capacity_constraints. apply list_elem_of_bind. exists v.
  split; [by left|by apply elem_of_range].
Qed.

Lemma holds_capacity {float : Type} (p : VRPInstance float) (sol : var → Z) (v : nat) :
  holds sol (capacity_constraint p v)
  ↔ (sum_over (range (num_customers p)) (λ c,
       sum_over (range (num_customers p)) (λ j, demand_at p j * sol (edge_var v c j))%Z)
     ≤ vehicle_capacity p)%Z.
Proof.
  unfold holds. replace (csense (capacity_constraint p v)) with LE by reflexivity.
  rewrite eval_capacity_lhs.
  replace (rhs (capacity_constraint p v)) with (lconst (vehicle_capacity p)) by reflexivity.
  by rewrite eval_lconst.
Qed.

Section feasible_tour.
  Context {float : Type} (p : VRPInstance float) (sol : var → Z) (v : nat).
  Local Abbreviation nv := (num_vehicles p).
  Local Abbreviation n := (num_customers p).
  Hypothesis Hfeas : feasible (built_model p) sol.
  Hypothesis Hv : (Z.of_nat v < nv)%Z.
  Hypothesis Hn : (0 < n)%Z.

(** Along a chain of customers the positions go down, so no node repeats. *)
Lemma chain_decreasing (current : nat) (nodes : list nat) :
  1 ≤ current → (Z.of_nat current < n)%Z →
  Forall (λ c, c ≠ 0) nodes → chain p sol v current (nodes ++ [0]) →
  Forall (λ c, sol (order_var v c) < sol (order_var v current))%Z nodes ∧ NoDup nodes.
Proof.
  revert current. induction nodes as [|c rest IH]; intros current Hc Hcn Hnz Hch.
  { split; constructor. }
  apply Forall_cons in Hnz as [Hc0 Hnz]. destruct Hch as [Hnext Hch].
  destruct (index_1_edge_row p sol v current c Hnext) as [Hlt H1].
  pose proof (feas_mtz p sol Hfeas v current c Hv Hc Hcn ltac:(lia) Hlt) as Hmtz.
  rewrite H1 in Hmtz.
  destruct (IH c ltac:(lia) Hlt Hnz Hch) as [Hless Hnd]. split.
  - constructor; [lia|]. eapply Forall_impl; [exact Hless|]. simpl. intros d Hd. lia.
  - constructor; [|done]. intros Hin. rewrite Forall_forall in Hless.
    specialize (Hless c Hin). lia.
Qed.

(** The tour of the vehicle: the decoder returns its route within
    [num_customers] turns; no node repeats; every node is a customer the
    vehicle enters; and every customer the vehicle enters is on it. *)
Lemma feasible_tour :
  ∃ nodes,
    decode_vehicle p sol (Z.to_nat n) v = Some (Ok (route_of nodes))
    ∧ NoDup nodes
    ∧ Forall (λ c, 1 ≤ c ∧ (Z.of_nat c < n)%Z
                   ∧ ∃ prev, (Z.of_nat prev < n)%Z ∧ sol (edge_var v prev c) = 1%Z) nodes
    ∧ ∀ c i, 1 ≤ c → (Z.of_nat c < n)%Z → (Z.of_nat i < n)%Z →
             sol (edge_var v i c) = 1%Z → c ∈ nodes.
Proof.
  destruct (decode_vehicle_closes p sol v) as (route & Hd & _ & _); [| | | |done|].
  { intros i j Hi Hj. by apply (feas_edge_01 p sol Hfeas). }
  { intros i Hi Hi'. by apply (feas_order p sol Hfeas). }
  { intros i j Hi Hi' Hj Hj'. by apply (feas_mtz p sol Hfeas). }
  { intros c Hc. by apply (feas_conserved p sol Hfeas). }
  destruct (decode_vehicle_shape p sol _ _ _ Hd) as (nodes & -> & Hnodes & Hcase).
  exists nodes.
  assert (NoDup nodes) as Hnd.
  { destruct Hcase as [[-> _]|Hch]; [constructor|].
    destruct nodes as [|c rest]; [constructor|].
    apply Forall_cons in Hnodes as [[Hc Hcn] Hrest]. destruct Hch as [_ Hch].
    destruct (chain_decreasing c rest Hc Hcn) as [Hless Hnd]; [|done|].
    { eapply Forall_impl; [exact Hrest|]. simpl. intros d [Hd' _]. lia. }
    constructor; [|done]. intros Hin. rewrite Forall_forall in Hless.
    specialize (Hless c Hin). lia. }
  assert (Forall (λ c, ∃ prev, (Z.of_nat prev < n)%Z ∧ sol (edge_var v prev c) = 1%Z) nodes)
    as Hent.
  { destruct Hcase as [[-> _]|Hch]; [constructor|].
    apply chain_entered in Hch; [|lia]. by apply Forall_app in Hch as [Hch _]. }
  assert (∀ c, 1 ≤ c → (Z.of_nat c < n)%Z → sol (edge_var v 0 c) = 1%Z → c ∈ nodes) as Hstart.
  { intros c Hc Hcn H1. destruct Hcase as [[_ Hrow]|Hch].
    - destruct Hrow. apply elem_of_edge_row. by exists c.
    - destruct nodes as [|x rest]; destruct Hch as [Hnext _];
        destruct (index_1_edge_row p sol v 0 _ Hnext) as [Hx H1x].
      + pose proof (feas_unique_start p sol Hfeas v c 0 Hv Hcn H1 ltac:(lia) H1x). lia.
      + pose proof (feas_unique_start p sol Hfeas v c x Hv Hcn H1 Hx H1x) as ->. by left. }
  assert (∀ i c, i ∈ nodes → 1 ≤ c → (Z.of_nat c < n)%Z → sol (edge_var v i c) = 1%Z →
                 c ∈ nodes) as Hstep.
  { intros i c Hi Hc Hcn H1. destruct Hcase as [[-> _]|Hch].
    { by apply elem_of_nil in Hi. }
    destruct (chain_successor p sol v 0 i nodes Hch Hi) as (next & Hnext & Hin).
    destruct (index_1_edge_row p sol v i next Hnext) as [Hlt H1n].
    rewrite Forall_forall in Hnodes. destruct (Hnodes i Hi) as [Hi1 Hin'].
    destruct (feas_unique_out p sol Hfeas i v c v next Hi1 Hin' Hv Hcn H1 Hv Hlt H1n)
      as [_ ->].
    apply elem_of_app in Hin as [Hin|Hin]; [done|].
    apply list_elem_of_singleton in Hin. lia. }
  split_and!; [done|done| |].
  - apply Forall_forall. intros c Hc. rewrite Forall_forall in Hnodes, Hent.
    destruct (Hnodes c Hc). split_and!; [done..|]. by apply Hent.
  - assert (∀ k c i, (n - 1 - sol (order_var v c) ≤ Z.of_nat k)%Z →
                     1 ≤ c → (Z.of_nat c < n)%Z → (Z.of_nat i < n)%Z →
                     sol (edge_var v i c) = 1%Z → c ∈ nodes) as Hind.
    { induction k as [|k IH]; intros c i Hk Hc Hcn Hi H1.
      - destruct (decide (i = 0)) as [->|Hi0]; [by apply Hstart|].
        pose proof (feas_mtz p sol Hfeas v i c Hv ltac:(lia) Hi Hc Hcn) as Hmtz.
        rewrite H1 in Hmtz.
        pose proof (feas_order p sol Hfeas v i Hv ltac:(lia) Hi). lia.
      - destruct (decide (i = 0)) as [->|Hi0]; [by apply Hstart|].
        pose proof (feas_mtz p sol Hfeas v i c Hv ltac:(lia) Hi Hc Hcn) as Hmtz.
        rewrite H1 in Hmtz.
        destruct (feas_enters_left p sol Hfeas v i c Hv Hi Hcn H1) as (i' & Hi' & H1').
        apply (Hstep i c); [|done..].
        apply (IH i i'); [lia|lia|done..]. }
    intros c i Hc Hcn Hi H1.
    pose proof (feas_order p sol Hfeas v c Hv Hc Hcn).
    apply (Hind (Z.to_nat (n - 1 - sol (order_var v c))) c i); [lia|done..].
Qed.

(** The load of the tour is within the capacity when no demand is negative. *)
Lemma tour_load (nodes : list nat) :
  Forall (λ d, 0 ≤ d)%Z (demand_of_customer p) →
  NoDup nodes →
  Forall (λ c, 1 ≤ c ∧ (Z.of_nat c < n)%Z
               ∧ ∃ prev, (Z.of_nat prev < n)%Z ∧ sol (edge_var v prev c) = 1%Z) nodes →
  (route_load p (0%nat :: nodes ++ [0%nat]) ≤ vehicle_capacity p)%Z.
Proof.
  intros Hdem Hnd Hnodes.
  assert (∀ j, 0 ≤ demand_at p j)%Z as Hd.
  { intros j. unfold demand_at. destruct (demand_of_customer p !! j) as [d|] eqn:Hj; [|done].
    simpl. rewrite Forall_forall in Hdem. apply Hdem. by eapply list_elem_of_lookup_2. }
  assert (∀ j, (Z.of_nat j < n)%Z →
               0 ≤ sum_over (range n) (λ c, sol (edge_var v c j)))%Z as Hin.
  { intros j Hj. apply sum_over_nonneg. intros c Hc%elem_of_range.
    by apply (feas_edge_01 p sol Hfeas). }
  unfold route_load. cbn [tail]. rewrite filter_app, filter_all.
  2:{ eapply Forall_impl; [exact Hnodes|]. simpl. intros c [Hc _]. lia. }
  rewrite filter_cons_False, filter_nil, app_nil_r by auto.
  pose proof (feas_holds p sol Hfeas _ (capacity_in_model p v Hv)) as Hcap.
  apply holds_capacity in Hcap. rewrite sum_over_swap in Hcap.
  etrans; [|exact Hcap].
  etrans; [|apply (sum_over_NoDup_subseteq nodes (range n)); [done| |]].
  - apply sum_over_le. intros c Hc. rewrite sum_over_scale.
    rewrite Forall_forall in Hnodes. destruct (Hnodes c Hc) as (_ & Hcn & prev & Hp & H1).
    assert (1 ≤ sum_over (range n) (λ a, sol (edge_var v a c)))%Z.
    { rewrite <- H1.
      apply (sum_over_member (range n) (λ a, sol (edge_var v a c)) prev).
      - intros a Ha%elem_of_range. by apply (feas_edge_01 p sol Hfeas).
      - by apply elem_of_range. }
    pose proof (Hd c). nia.
  - intros c Hc. rewrite Forall_forall in Hnodes. destruct (Hnodes c Hc) as (_ & Hcn & _).
    by apply elem_of_range.
  - intros j Hj%elem_of_range. rewrite sum_over_scale.
    pose proof (Hd j). pose proof (Hin j Hj). nia.
Qed.

End feasible_tour.

(** The tours of all vehicles, in the order of the vehicles. *)
Lemma feasible_tours {float : Type} (p : VRPInstance float) (sol : var → Z) :
  feasible (built_model p) sol →
  (num_customers p = 0 → num_vehicles p = 0)%Z → (0 ≤ num_customers p)%Z →
  ∃ tours,
    Forall2 (λ v nodes,
      decode_vehicle p sol (Z.to_nat (num_customers p)) v = Some (Ok (route_of nodes))
      ∧ NoDup nodes
      ∧ Forall (λ c, 1 ≤ c ∧ (Z.of_nat c < num_customers p)%Z
                     ∧ ∃ prev, (Z.of_nat prev < num_customers p)%Z
                               ∧ sol (edge_var v prev c) = 1%Z) nodes
      ∧ ∀ c i, 1 ≤ c → (Z.of_nat c < num_customers p)%Z →
               (Z.of_nat i < num_customers p)%Z →
               sol (edge_var v i c) = 1%Z → c ∈ nodes)
      (range (num_vehicles p)) tours.
Proof.
  intros Hfeas Hn0 Hn. apply exists_Forall2. intros v Hv%elem_of_range.
  apply feasible_tour; [done|done|lia].
Qed.

Lemma decoded_tours {float : Type} (p : VRPInstance float) (s : Solution) (sol : var → Z)
    (fuel : nat) (tours : list (list nat)) :
  same_ones (solution_value s) sol →
  Forall2 (λ v nodes, decode_vehicle p sol fuel v = Some (Ok (route_of nodes)))
          (range (num_vehicles p)) tours →
  decoded p s fuel = Some (Ok (route_of <$> tours)).
Proof.
  intros Hs H. unfold decoded.
  rewrite (decode_vehicles_tests p _ sol (same_ones_tests _ _ Hs)).
  rewrite (decode_vehicles_Forall2 p sol fuel _ [] (route_of <$> tours)); [done|].
  by apply Forall2_fmap_r.
Qed.

(** X11.  On an answer that equals 1 exactly where an integer assignment
    satisfying the built model is 1, [solve] returns within [num_customers]
    turns per vehicle: it prints one route per vehicle, each from the depot
    through customers that do not repeat and back to the depot. *)
Theorem solve_feasible_returns {float : Type} `{!Platform float} (p : VRPInstance float)
    (m : Model) (s : Solution) (sol : var → Z) :
  build p = Ok m → feasible m sol → same_ones (solution_value s) sol →
  ∃ tours,
    solve p (Some s) (Z.to_nat (num_customers p))
    = Some (Ok (sol_string (objective_text s) (route_of <$> tours)))
    ∧ length tours = Z.to_nat (num_vehicles p)
    ∧ Forall (λ nodes,
        NoDup nodes ∧ Forall (λ c, 1 ≤ c ∧ (Z.of_nat c < num_customers p)%Z) nodes) tours.
Proof.
  intros (-> & Hnv & Hn & Hn0)%build_Ok_inv Hfeas Hs.
  destruct (feasible_tours p sol Hfeas Hn0 Hn) as [tours Htours].
  exists tours. split_and!.
  - unfold solve. fold (decoded p s (Z.to_nat (num_customers p))).
    rewrite (decoded_tours p s sol _ tours Hs); [done|].
    eapply Forall2_impl; [exact Htours|]. by intros v nodes [? _].
  - apply Forall2_length in Htours. by rewrite length_range in Htours.
  - apply Forall_forall. intros nodes Hin.
    apply list_elem_of_lookup_1 in Hin as [k Hk].
    destruct (Forall2_lookup_r _ _ _ _ _ Htours Hk) as (v & _ & _ & Hnd & Hnodes & _).
    split; [done|]. eapply Forall_impl; [exact Hnodes|]. by intros c (? & ? & _).
Qed.

(** X12.  When no demand is negative, every route decoded from an answer
    that equals 1 exactly where an integer assignment satisfying the built
    model is 1 carries at most the vehicle capacity. *)
Theorem feasible_routes_within_capacity {float : Type} `{!Platform float}
    (p : VRPInstance float) (m : Model) (s : Solution) (sol : var → Z) :
  build p = Ok m → feasible m sol → same_ones (solution_value s) sol →
  Forall (λ d, 0 ≤ d)%Z (demand_of_customer p) →
  ∃ tours,
    decoded p s (Z.to_nat (num_customers p)) = Some (Ok (route_of <$> tours))
    ∧ Forall (λ nodes,
        (route_load p (0%nat :: nodes ++ [0%nat]) ≤ vehicle_capacity p)%Z) tours.
Proof.
  intros (-> & Hnv & Hn & Hn0)%build_Ok_inv Hfeas Hs Hdem.
  destruct (feasible_tours p sol Hfeas Hn0 Hn) as [tours Htours].
  exists tours. split.
  - apply (decoded_tours p s sol _ tours Hs).
    eapply Forall2_impl; [exact Htours|]. by intros v nodes [? _].
  - apply Forall_forall. intros nodes Hin.
    apply list_elem_of_lookup_1 in Hin as [k Hk].
    destruct (Forall2_lookup_r _ _ _ _ _ Htours Hk)
      as (v & [-> Hv]%lookup_seq & _ & Hnd & Hnodes & _).
    apply (tour_load p sol (0 + k)); [done|lia|done..].
Qed.

(** X13.  Every non-depot customer is on the route of exactly one vehicle,
    in the routes decoded from an answer that equals 1 exactly where an
    integer assignment satisfying the built model is 1. *)
Theorem feasible_routes_cover {float : Type} `{!Platform float} (p : VRPInstance float)
    (m : Model) (s : Solution) (sol : var → Z) :
  build p = Ok m → feasible m sol → same_ones (solution_value s) sol →
  ∃ tours,
    decoded p s (Z.to_nat (num_customers p)) = Some (Ok (route_of <$> tours))
    ∧ ∀ c, 1 ≤ c → (Z.of_nat c < num_customers p)%Z →
        ∃ v nodes,
          tours !! v = Some nodes ∧ c ∈ nodes ∧ NoDup nodes
          ∧ ∀ v' nodes', tours !! v' = Some nodes' → c ∈ nodes' → v' = v.
Proof.
  intros (-> & Hnv & Hn & Hn0)%build_Ok_inv Hfeas Hs.
  destruct (feasible_tours p sol Hfeas Hn0 Hn) as [tours Htours].
  exists tours. split.
  { apply (decoded_tours p s sol _ tours Hs).
    eapply Forall2_impl; [exact Htours|]. by intros v nodes [? _]. }
  intros c Hc Hcn.
  destruct (sum_over_one_unique (vehicle_nodes p)
              (λ vi, sol (edge_var vi.1 vi.2 c)))
    as ([v i] & [Hv Hi]%elem_of_vehicle_nodes & H1 & _).
  { intros [a b] [Ha Hb]%elem_of_vehicle_nodes.
    by apply (feas_edge_01 p sol Hfeas). }
  { by apply (feas_in_degree p sol Hfeas). }
  simpl in H1.
  destruct (Forall2_lookup_l _ _ _ v v Htours) as (nodes & Hnodes & _ & Hnd & _ & Hall).
  { by apply lookup_range. }
  exists v, nodes. split_and!; [done|by apply (Hall c i)|done|].
  intros v' nodes' Hk' Hin'.
  destruct (Forall2_lookup_r _ _ _ _ _ Htours Hk')
    as (v'' & [-> Hv']%lookup_seq & _ & _ & Hent & _).
  rewrite Forall_forall in Hent. destruct (Hent c Hin') as (_ & _ & prev & Hprev & H1').
  simpl in H1'.
  by destruct (feas_unique_in p sol Hfeas c v i v' prev Hc Hcn Hv Hi H1
                 ltac:(lia) Hprev H1').
Qed.

(** X11, witness: the tour 0 -> 2 -> 1 -> 0 of vehicle 0, vehicle 1 unused. *)
Lemma solve_feasible_returns_witness :
  ∃ tours,
    solve toy_two_vehicles (Some (answer tour_021 "7.5")) (Z.to_nat 3)
    = Some (Ok (sol_string "7.5" (route_of <$> tours)))
    ∧ length tours = Z.to_nat 2
    ∧ Forall (λ nodes, NoDup nodes ∧ Forall (λ c, 1 ≤ c ∧ (Z.of_nat c < 3)%Z) nodes) tours.
Proof.
  apply (solve_feasible_returns toy_two_vehicles (built_model toy_two_vehicles)
           (answer tour_021 "7.5") tour_021).
  - vm_compute. reflexivity.
  - apply (bool_decide_unpack _). vm_compute. exact I.
  - apply exactly_same_ones.
Defined.

(** X12, witness: demands 4 and 6 on one route under capacity 10. *)
Lemma feasible_routes_within_capacity_witness :
  ∃ tours,
    decoded toy_two_vehicles (answer tour_021 "7.5") (Z.to_nat 3)
    = Some (Ok (route_of <$> tours))
    ∧ Forall (λ nodes,
        (route_load toy_two_vehicles (0%nat :: nodes ++ [0%nat]) ≤ 10)%Z) tours.
Proof.
  apply (feasible_routes_within_capacity toy_two_vehicles (built_model toy_two_vehicles)
           (answer tour_021 "7.5") tour_021).
  - vm_compute. reflexivity.
  - apply (bool_decide_unpack _). vm_compute. exact I.
  - apply exactly_same_ones.
  - repeat constructor; done.
Defined.

(** X13, witness. *)
Lemma feasible_routes_cover_witness :
  ∃ tours,
    decoded toy_two_vehicles (answer tour_021 "7.5") (Z.to_nat 3)
    = Some (Ok (route_of <$> tours))
    ∧ ∀ c, 1 ≤ c → (Z.of_nat c < 3)%Z →
        ∃ v nodes,
          tours !! v = Some nodes ∧ c ∈ nodes ∧ NoDup nodes
          ∧ ∀ v' nodes', tours !! v' = Some nodes' → c ∈ nodes' → v' = v.
Proof.
  apply (feasible_routes_cover toy_two_vehicles (built_model toy_two_vehicles)
           (answer tour_021 "7.5") tour_021).
  - vm_compute. reflexivity.
  - apply (bool_decide_unpack _). vm_compute. exact I.
  - apply exactly_same_ones.
Defined.

(** ** The whole run ([main.py]) *)

Section main_facts.
  Context {float : Type} `{!Platform float} (float_zero : float).
  Context (py_int : pystr → parsed Z) (py_float : pystr → parsed float).
  Context (files : pystr → option (list pystr)) (engine : Model → option Solution).

Lemma VRPInstance_init_file (file_name : pystr) (file : option (list pystr))
    (inst : VRPInstance float) :
  VRPInstance_init float_zero py_int py_float file_name file = Ok inst →
  ∃ lines, file = Some lines.
Proof.
  destruct file as [lines|]; [by exists lines|]. discriminate.
Qed.

Lemma main_run (argv : list pystr) (input_file : pystr) (inst : VRPInstance float)
    (m : Model) (fuel : nat) :
  argv !! 1 = Some input_file →
  VRPInstance_init float_zero py_int py_float input_file (files input_file) = Ok inst →
  build inst = Ok m →
  main float_zero py_int py_float files engine argv fuel
  = match solve inst (engine m) fuel with
    | None => None
    | Some (Raise e) => Some (Raise e)
    | Some (Ok sol_string) => Some (Ok (Some sol_string))
    end.
Proof.
  intros Hargv Hread Hbuild. unfold main.
  assert (1 < length argv) by (by eapply lookup_lt_Some).
  rewrite bool_decide_eq_false_2 by lia.
  unfold getitem. rewrite Hargv. simpl. rewrite Hread. simpl. by rewrite Hbuild.
Qed.

(** X14.  A run on a file the reader accepts and the builder makes a model
    of: when the engine finds no solution the run ends with the exception of
    [solve] and writes nothing; when its answer equals 1 exactly where an
    integer assignment that satisfies the model is 1, the run ends within
    [num_customers] loop turns per vehicle and writes the header line and one
    closed route per vehicle. *)
Theorem main_writes_routes (argv : list pystr) (input_file : pystr)
    (inst : VRPInstance float) (m : Model) :
  argv !! 1 = Some input_file →
  VRPInstance_init float_zero py_int py_float input_file (files input_file) = Ok inst →
  build inst = Ok m →
  (engine m = None →
   ∀ fuel, main float_zero py_int py_float files engine argv fuel
           = Some (Raise (Exception "no solution found")))
  ∧ (∀ s sol, engine m = Some s → feasible m sol → same_ones (solution_value s) sol →
          ∃ tours,
            main float_zero py_int py_float files engine argv
                 (Z.to_nat (num_customers inst))
            = Some (Ok (Some (sol_string (objective_text s) (route_of <$> tours))))
            ∧ length tours = Z.to_nat (num_vehicles inst)
            ∧ Forall (λ nodes,
                NoDup nodes
                ∧ Forall (λ c, 1 ≤ c ∧ (Z.of_nat c < num_customers inst)%Z) nodes) tours).
Proof.
  intros Hargv Hread Hbuild.
  pose proof (build_Ok_inv _ _ Hbuild) as (-> & Hnv & Hn & Hn0).
  split.
  - intros Hnone fuel. rewrite (main_run argv input_file inst _ fuel Hargv Hread Hbuild).
    by rewrite Hnone.
  - intros s sol Hs Hfeas Hones.
    destruct (feasible_tours inst sol Hfeas Hn0 Hn) as [tours Htours].
    exists tours. split_and!.
    + rewrite (main_run argv input_file inst _ _ Hargv Hread Hbuild), Hs.
      unfold solve. fold (decoded inst s (Z.to_nat (num_customers inst))).
      rewrite (decoded_tours inst s sol _ tours Hones); [done|].
      eapply Forall2_impl; [exact Htours|]. by intros v nodes [? _].
    + apply Forall2_length in Htours. by rewrite length_range in Htours.
    + apply Forall_forall. intros nodes Hin.
      apply list_elem_of_lookup_1 in Hin as [k Hk].
      destruct (Forall2_lookup_r _ _ _ _ _ Htours Hk) as (v & _ & _ & Hnd & Hnodes & _).
      split; [done|]. eapply Forall_impl; [exact Hnodes|]. by intros c (? & ? & _).
Qed.

(** X15.  [./vrp.sol] is written only at the end of a complete run: the
    command line names a file, the file exists and the reader accepts it, the
    builder accepts the instance, the engine answers, and the decoder returns
    for every vehicle; the text written is then the header line followed by
    one line per vehicle. *)
Theorem main_writes_only_decoded (argv : list pystr) (fuel : nat) (text : string) :
  main float_zero py_int py_float files engine argv fuel = Some (Ok (Some text)) →
  ∃ input_file lines inst s vehicle_routes,
    argv !! 1 = Some input_file
    ∧ files input_file = Some lines
    ∧ VRPInstance_init float_zero py_int py_float input_file (Some lines) = Ok inst
    ∧ build inst = Ok (built_model inst)
    ∧ engine (built_model inst) = Some s
    ∧ Forall2 (λ v vehicle_i_route,
                 decode_vehicle inst (solution_value s) fuel v = Some (Ok vehicle_i_route))
              (range (num_vehicles inst)) vehicle_routes
    ∧ text = sol_string (objective_text s) vehicle_routes.
Proof.
  unfold main. case_bool_decide; [discriminate|].
  intros Hmain.
  destruct (getitem argv 1) as [input_file|e] eqn:Hargv; simpl in Hmain; [|discriminate].
  unfold getitem in Hargv. destruct (argv !! 1) as [x|] eqn:Hx; [|discriminate].
  injection Hargv as ->.
  destruct (VRPInstance_init _ _ _ input_file (files input_file)) as [inst|e] eqn:Hread;
    simpl in Hmain; [|discriminate].
  destruct (VRPInstance_init_file _ _ _ Hread) as [lines Hlines].
  destruct (build inst) as [m|e] eqn:Hbuild; simpl in Hmain; [|discriminate].
  pose proof (build_Ok_inv _ _ Hbuild) as (-> & _).
  destruct (engine (built_model inst)) as [s|] eqn:Hs; [|discriminate].
  unfold solve in Hmain. fold (decoded inst s fuel) in Hmain.
  destruct (decoded inst s fuel) as [[vehicle_routes|e]|] eqn:Hdec; [|discriminate..].
  injection Hmain as <-.
  exists input_file, lines, inst, s, vehicle_routes. rewrite <- Hlines.
  split_and!; try done.
  unfold decoded in Hdec. by apply decode_vehicles_inv in Hdec as (rs & -> & Hrs).
Qed.

End main_facts.

(** X14, witness: the file of three nodes and two vehicles. *)
Lemma main_writes_routes_witness :
  (toy_engine (built_model toy_read) = None →
   ∀ fuel, main (Dec 0 0) ascii_int ascii_float (λ _, Some toy_file) toy_engine
                ["main.py"; "toy.vrp"] fuel
           = Some (Raise (Exception "no solution found")))
  ∧ (∀ s sol, toy_engine (built_model toy_read) = Some s →
          feasible (built_model toy_read) sol → same_ones (solution_value s) sol →
          ∃ tours,
            main (Dec 0 0) ascii_int ascii_float (λ _, Some toy_file) toy_engine
                 ["main.py"; "toy.vrp"] (Z.to_nat (num_customers toy_read))
            = Some (Ok (Some (sol_string (objective_text s) (route_of <$> tours))))
            ∧ length tours = Z.to_nat (num_vehicles toy_read)
            ∧ Forall (λ nodes,
                NoDup nodes
                ∧ Forall (λ c, 1 ≤ c ∧ (Z.of_nat c < num_customers toy_read)%Z) nodes) tours).
Proof.
  apply (main_writes_routes (Dec 0 0) ascii_int ascii_float (λ _, Some toy_file) toy_engine
           ["main.py"; "toy.vrp"] "toy.vrp" toy_read (built_model toy_read)).
  - reflexivity.
  - vm_compute. reflexivity.
  - vm_compute. reflexivity.
Defined.

(** X15, witness. *)
Lemma main_writes_only_decoded_witness :
  ∃ input_file lines inst s vehicle_routes,
    (["main.py"; "toy.vrp"] : list pystr) !! 1 = Some input_file
    ∧ (λ _ : pystr, Some toy_file) input_file = Some lines
    ∧ read_file input_file (Some lines) = Ok inst
    ∧ build inst = Ok (built_model inst)
    ∧ toy_engine (built_model inst) = Some s
    ∧ Forall2 (λ v vehicle_i_route,
                 decode_vehicle inst (solution_value s) 3 v = Some (Ok vehicle_i_route))
              (range (num_vehicles inst)) vehicle_routes
    ∧ "3.4 1" +:+ nl +:+ "0 2 1 0" +:+ nl +:+ "0 0" +:+ nl
      = sol_string (objective_text s) vehicle_routes.
Proof.
  apply (main_writes_only_decoded (Dec 0 0) ascii_int ascii_float (λ _, Some toy_file)
           toy_engine ["main.py"; "toy.vrp"] 3).
  vm_compute. reflexivity.
Defined.

(** ** The printed routes read back *)

Lemma append_String (a : ascii) (s t : string) : String a s +:+ t = String a (s +:+ t).
Proof. reflexivity. Qed.

Lemma append_nil_r (s : string) : s +:+ "" = s.
Proof. induction s as [|a s IH]; [done|]. by rewrite append_String, IH. Qed.

Lemma append_assoc (s t u : string) : (s +:+ t) +:+ u = s +:+ t +:+ u.
Proof. induction s as [|a s IH]; [done|]. by rewrite !append_String, IH. Qed.

Lemma length_append (s t : string) :
  String.length (s +:+ t) = String.length s + String.length t.
Proof. induction s as [|a s IH]; [done|]. rewrite append_String. simpl. by rewrite IH. Qed.

Lemma foldl_join_prefix (sep a b : string) (l : list string) :
  foldl (λ acc y, acc +:+ sep +:+ y) (a +:+ b) l
  = a +:+ foldl (λ acc y, acc +:+ sep +:+ y) b l.
Proof.
  revert b. induction l as [|z l IH]; intros b; simpl; [done|].
  by rewrite append_assoc, IH.
Qed.

Lemma join_cons (sep x y : string) (l : list string) :
  join sep (x :: y :: l) = x +:+ sep +:+ join sep (y :: l).
Proof.
  unfold join. simpl. by rewrite !foldl_join_prefix.
Qed.

Lemma text_String (a : ascii) (s : string) : text (String a s) = chr a :: text s.
Proof. reflexivity. Qed.

Lemma text_app (s t : string) : text (s +:+ t) = text s ++ text t.
Proof. induction s as [|a s IH]; [done|]. by rewrite append_String, !text_String, IH. Qed.

Lemma chr_inj (a b : ascii) : chr a = chr b → a = b.
Proof.
  unfold chr. intros H. by rewrite <- (ascii_N_embedding a), <- (ascii_N_embedding b), H.
Qed.

Lemma text_inj (s t : string) : text s = text t → s = t.
Proof.
  revert t. induction s as [|a s IH]; intros [|b t]; try done.
  rewrite !text_String. intros [= Hab%chr_inj Hst%IH]. by subst.
Qed.

Lemma split_go_token (cur t rest : pystr) :
  blank_free t = true → split_go cur (t ++ rest) = split_go (cur ++ t) rest.
Proof.
  revert cur. induction t as [|a t IH]; intros cur Ht.
  - by rewrite app_nil_r.
  - simpl in Ht. apply andb_true_iff in Ht as [Ha Ht].
    simpl. apply negb_true_iff in Ha. rewrite Ha.
    rewrite IH by done. f_equal. by rewrite <- app_assoc.
Qed.

Lemma flush_token (t : pystr) : token t → flush t = [t].
Proof. intros [Ht _]. by destruct t. Qed.

(** [split] undoes [' '.join] on tokens. *)
Lemma split_join (tokens : list string) :
  Forall (λ t, token (text t)) tokens → split (join " " tokens) = text <$> tokens.
Proof.
  unfold split. induction 1 as [|t tokens Ht Htokens IH]; [done|].
  destruct tokens as [|u tokens].
  - simpl. rewrite <- (app_nil_r (text t)) at 1.
    rewrite split_go_token by apply Ht. simpl. by rewrite flush_token.
  - rewrite join_cons, text_app, split_go_token by apply Ht.
    rewrite text_app. change (text " ") with [32%N].
    cbn [app split_go]. change (py_isspace 32) with true. cbn match.
    by rewrite IH, flush_token.
Qed.

Lemma pretty_N_char_no_blank (d : N) : py_isspace (chr (pretty_N_char d)) = false.
Proof. unfold pretty_N_char. by repeat case_match. Qed.

Lemma pretty_N_go_token (x : N) (s : string) :
  blank_free (text s) = true → (s ≠ "" ∨ (0 < x)%N) →
  token (text (pretty_N_go x s)).
Proof.
  revert s. induction (N.lt_wf_0 x) as [x _ IH]; intros s Hs Hne.
  destruct (decide (x = 0)%N) as [->|Hx].
  - rewrite pretty_N_go_0. split; [|done]. destruct Hne as [Hne|?]; [|lia].
    by destruct s.
  - rewrite pretty_N_go_step by lia. apply IH.
    + apply N.div_lt; lia.
    + rewrite text_String. simpl. by rewrite pretty_N_char_no_blank.
    + by left.
Qed.

Lemma token_str (k : nat) : token (text (str k)).
Proof.
  unfold str, pretty, pretty_nat, pretty, pretty_N.
  case_decide as Hk.
  - by split.
  - apply pretty_N_go_token; [done|]. right. lia.
Qed.

Global Instance text_Inj : Inj (=) (=) text.
Proof. intros s t. apply text_inj. Qed.

Lemma str_inj (k k' : nat) : str k = str k' → k = k'.
Proof. unfold str. apply pretty_nat_inj. Qed.

(** X16.  A route line that [solve] writes splits back, with the [split] of
    the instance reader, into the node numbers it was joined from, and no two
    tours are written as the same line. *)
Theorem route_line_reads_back (nodes : list nat) :
  split (join " " (route_of nodes)) = text <$> route_of nodes
  ∧ ∀ nodes', join " " (route_of nodes') = join " " (route_of nodes) → nodes' = nodes.
Proof.
  assert (∀ l, split (join " " (route_of l)) = text <$> route_of l) as Hsplit.
  { intros l. apply split_join. unfold route_of. apply Forall_fmap, Forall_true.
    intros k. apply token_str. }
  split; [done|].
  intros nodes' Heq. apply (f_equal (λ line : string, split line)) in Heq.
  rewrite !Hsplit in Heq.
  apply (inj (fmap text)) in Heq. unfold route_of in Heq.
  apply (inj (fmap str)) in Heq. injection Heq as Heq. by apply app_inj_tail in Heq as [? _].
Qed.

(** ** Printing a matrix ([pretty_print_matrix]) *)

Lemma comprehension_Ok_inv {A B} (f : A → result B) (l : list A) (bs : list B) :
  comprehension f l = Ok bs → Forall2 (λ a b, f a = Ok b) l bs.
Proof.
  revert bs. induction l as [|a l IH]; intros bs; simpl.
  - intros [= <-]. constructor.
  - destruct (f a) as [b|e] eqn:Ha; simpl; [|discriminate].
    destruct (comprehension f l) as [bs'|e] eqn:Hl; simpl; [|discriminate].
    intros [= <-]. constructor; [done|]. by apply IH.
Qed.

Lemma comprehension_Ok {A B} (f : A → result B) (l : list A) (bs : list B) :
  Forall2 (λ a b, f a = Ok b) l bs → comprehension f l = Ok bs.
Proof.
  induction 1 as [|a b l bs Ha _ IH]; simpl; [done|]. by rewrite Ha, IH.
Qed.

Lemma comprehension_Raise_inv {A B} (f : A → result B) (l : list A) (e : exn) :
  comprehension f l = Raise e → ∃ a, a ∈ l ∧ f a = Raise e.
Proof.
  induction l as [|a l IH]; simpl; [discriminate|].
  destruct (f a) as [b|e'] eqn:Ha; simpl.
  - destruct (comprehension f l) as [bs'|e'] eqn:Hl; simpl; [discriminate|].
    intros [= <-]. destruct IH as (a' & ? & ?); [done|].
    exists a'. split; [by right|done].
  - intros [= <-]. exists a. split; [by left|done].
Qed.

Lemma length_blanks (k : nat) : String.length (blanks k) = k.
Proof. induction k as [|k IH]; simpl; [done|]. by rewrite IH. Qed.

Lemma length_rjust (s : string) (width : nat) :
  String.length (rjust s width) = width `max` String.length s.
Proof. unfold rjust. rewrite length_append, length_blanks. lia. Qed.

Lemma length_join (sep : string) (cells : list string) :
  String.length (join sep cells)
  = sum_list (String.length <$> cells) + (length cells - 1) * String.length sep.
Proof.
  induction cells as [|x [|y cells] IH]; [done|simpl; lia|].
  rewrite join_cons, !length_append, IH. simpl. lia.
Qed.

Lemma lookup_enumerate {A} (row : list A) (i : nat) (val : A) :
  row !! i = Some val → enumerate row !! i = Some (i, val).
Proof. intros H. unfold enumerate. by rewrite list_lookup_imap, H. Qed.

Section pretty_print_facts.
  Context {A : Type} (str_of : A → string).

Lemma col_width_Ok_inv (matrix : list (list A)) (col w : nat) :
  col_width str_of matrix col = Ok w →
  (∀ row, row ∈ matrix →
     ∃ val, row !! col = Some val ∧ String.length (str_of val) ≤ w)
  ∧ (matrix ≠ [] →
     ∃ row val, row ∈ matrix ∧ row !! col = Some val ∧ String.length (str_of val) = w).
Proof.
  unfold col_width.
  destruct (comprehension _ matrix) as [lens|e] eqn:Hlens; simpl; [|discriminate].
  intros [= <-]. apply comprehension_Ok_inv in Hlens.
  assert (∀ row len, getitem row col ≫= (λ val, Ok (String.length (str_of val))) = Ok len →
                     ∃ val, row !! col = Some val ∧ String.length (str_of val) = len) as Hcell.
  { intros row len. unfold getitem. destruct (row !! col) as [val|]; simpl; [|discriminate].
    intros [= <-]. by exists val. }
  split.
  - intros row [k Hk]%list_elem_of_lookup_1.
    destruct (Forall2_lookup_l _ _ _ _ _ Hlens Hk) as (len & Hlen & Hrow).
    apply Hcell in Hrow as (val & Hval & <-). exists val. split; [done|].
    apply max_list_elem_of_le. by eapply list_elem_of_lookup_2.
  - intros Hne.
    assert (lens ≠ []) as Hlens_ne.
    { intros ->. apply Forall2_nil_inv_r in Hlens. done. }
    apply max_list_elem_of in Hlens_ne. apply list_elem_of_lookup_1 in Hlens_ne as [k Hk].
    destruct (Forall2_lookup_r _ _ _ _ _ Hlens Hk) as (row & Hrow & Hlen).
    apply Hcell in Hlen as (val & Hval & Hw). exists row, val.
    split; [by eapply list_elem_of_lookup_2|done].
Qed.

Lemma col_width_is_Ok (matrix : list (list A)) (col : nat) :
  Forall (λ row, col < length row) matrix → is_Ok (col_width str_of matrix col).
Proof.
  intros Hrows. unfold col_width.
  assert (∃ lens, comprehension
            (λ row, getitem row col ≫= (λ val, Ok (String.length (str_of val)))) matrix
          = Ok lens) as [lens ->].
  { induction Hrows as [|row matrix Hrow _ [lens IH]]; [by exists []|].
    apply getitem_Ok in Hrow as [val Hval].
    exists (String.length (str_of val) :: lens). cbn [comprehension].
    rewrite Hval. simpl. by rewrite IH. }
  by eexists.
Qed.

Lemma col_width_Raise (matrix : list (list A)) (col : nat) (e : exn) :
  col_width str_of matrix col = Raise e → e = IndexError.
Proof.
  unfold col_width.
  destruct (comprehension _ matrix) as [lens|e'] eqn:Hlens; simpl; [discriminate|].
  intros [= <-]. apply comprehension_Raise_inv in Hlens as (row & _ & Hrow).
  unfold getitem in Hrow. destruct (row !! col); simpl in Hrow; congruence.
Qed.

Lemma print_row_Ok (col_widths : list nat) (sep : string) (row : list A) :
  length row ≤ length col_widths →
  print_row str_of col_widths sep row
  = Ok (join sep (zip_with (λ val w, rjust (str_of val) w) row col_widths)).
Proof.
  intros Hlen. unfold print_row.
  rewrite (comprehension_Ok _ _ (zip_with (λ val w, rjust (str_of val) w) row col_widths));
    [done|].
  apply Forall2_same_length_lookup_2.
  - unfold enumerate. rewrite length_imap, length_zip_with. lia.
  - intros i [i' val] cell Hi Hcell. unfold enumerate in Hi.
    rewrite list_lookup_imap in Hi.
    destruct (row !! i) as [val'|] eqn:Hval; simplify_eq/=.
    apply lookup_zip_with_Some in Hcell as (val'' & w & -> & Hval' & Hw).
    unfold getitem. rewrite Hw. simpl. congruence.
Qed.

Lemma print_row_Raise (col_widths : list nat) (sep : string) (row : list A) :
  length col_widths < length row →
  print_row str_of col_widths sep row = Raise IndexError.
Proof.
  intros Hlen. unfold print_row.
  destruct (comprehension _ (enumerate row)) as [cells|e] eqn:Hcells; simpl.
  - apply comprehension_Ok_inv in Hcells.
    destruct (lookup_lt_is_Some_2 row (length col_widths)) as [val Hval]; [done|].
    apply lookup_enumerate in Hval.
    destruct (Forall2_lookup_l _ _ _ _ _ Hcells Hval) as (cell & _ & Hcell).
    simpl in Hcell. unfold getitem in Hcell.
    rewrite lookup_ge_None_2 in Hcell by lia. discriminate.
  - apply comprehension_Raise_inv in Hcells as ([i val] & _ & Hcell).
    simpl in Hcell. unfold getitem in Hcell.
    destruct (col_widths !! i); simpl in Hcell; congruence.
Qed.

Lemma print_rows_Ok (col_widths : list nat) (sep : string) (rows : list (list A)) :
  Forall (λ row, length row ≤ length col_widths) rows →
  print_rows str_of col_widths sep rows
  = ((λ row, join sep (zip_with (λ val w, rjust (str_of val) w) row col_widths)) <$> rows,
     Ok ()).
Proof.
  induction 1 as [|row rows Hrow _ IH]; [done|].
  simpl. by rewrite print_row_Ok, IH.
Qed.

Lemma print_rows_end (col_widths : list nat) (sep : string) (rows : list (list A)) :
  ((print_rows str_of col_widths sep rows).2 = Ok ()
   ∧ Forall (λ row, length row ≤ length col_widths) rows)
  ∨ ((print_rows str_of col_widths sep rows).2 = Raise IndexError
     ∧ Exists (λ row, length col_widths < length row) rows).
Proof.
  induction rows as [|row rows IH]; [left; by split|].
  simpl. destruct (decide (length row ≤ length col_widths)) as [Hrow|Hrow].
  - rewrite print_row_Ok by done. simpl.
    destruct IH as [[-> ?]|[-> ?]]; [left|right]; split; try done.
    + by constructor.
    + by right.
  - rewrite print_row_Raise by lia. right. split; [done|]. left. lia.
Qed.

(** The widths of the columns of a matrix whose rows all have [num_cols]
    cells. *)
Lemma col_widths_Ok (matrix : list (list A)) (num_cols : nat) :
  Forall (λ row, length row = num_cols) matrix →
  ∃ col_widths,
    comprehension (col_width str_of matrix) (seq 0 num_cols) = Ok col_widths
    ∧ length col_widths = num_cols.
Proof.
  intros Hrows.
  assert (∀ cols, Forall (λ col, col < num_cols) cols →
            ∃ col_widths, comprehension (col_width str_of matrix) cols = Ok col_widths
                          ∧ length col_widths = length cols) as Hcols.
  { induction 1 as [|col cols Hcol _ (ws & IH & Hlen)]; [by exists []|].
    destruct (col_width_is_Ok matrix col) as [w Hw].
    { eapply Forall_impl; [exact Hrows|]. simpl. intros row ->. done. }
    exists (w :: ws). simpl. rewrite Hw, IH. simpl. by rewrite Hlen. }
  destruct (Hcols (seq 0 num_cols)) as (ws & ? & Hlen).
  { apply Forall_forall. intros col ?%elem_of_seq. lia. }
  exists ws. by rewrite Hlen, length_seq in *.
Qed.

Lemma pretty_print_matrix_Ok_inv (matrix : list (list A)) (sep : string) :
  (pretty_print_matrix str_of matrix sep).2 = Ok () →
  ∃ row0, matrix !! 0 = Some row0 ∧ Forall (λ row, length row = length row0) matrix.
Proof.
  unfold pretty_print_matrix, getitem.
  destruct (matrix !! 0) as [row0|] eqn:Hrow0; simpl; [|discriminate].
  destruct (comprehension _ (seq 0 (length row0))) as [col_widths|e] eqn:Hws;
    [|discriminate].
  intros Hend. exists row0. split; [done|].
  apply comprehension_Ok_inv in Hws.
  pose proof (Forall2_length _ _ _ Hws) as Hlen. rewrite length_seq in Hlen.
  destruct (print_rows_end col_widths sep matrix) as [[_ Hle]|[Hraise _]]; [|congruence].
  apply Forall_forall. intros row Hrow.
  rewrite Forall_forall in Hle. specialize (Hle row Hrow).
  destruct (decide (length row0 = 0)) as [H0|H0]; [lia|].
  assert (seq 0 (length row0) !! (length row0 - 1) = Some (length row0 - 1)) as Hlast.
  { apply lookup_seq. lia. }
  destruct (Forall2_lookup_l _ _ _ _ _ Hws Hlast) as (w & _ & Hw).
  apply col_width_Ok_inv in Hw as [Hw _].
  destruct (Hw row Hrow) as (val & Hval%lookup_lt_Some & _). lia.
Qed.

(** X17.  [pretty_print_matrix] returns exactly on a matrix that has a first
    row and whose rows all have as many cells as the first; on any other
    matrix it raises IndexError - before it prints anything when the matrix
    is empty or a row is too short. *)
Theorem pretty_print_matrix_returns_iff (matrix : list (list A)) (sep : string) :
  ((pretty_print_matrix str_of matrix sep).2 = Ok ()
   ↔ ∃ row0, matrix !! 0 = Some row0 ∧ Forall (λ row, length row = length row0) matrix)
  ∧ ((pretty_print_matrix str_of matrix sep).2 = Ok ()
     ∨ (pretty_print_matrix str_of matrix sep).2 = Raise IndexError)
  ∧ ((∀ row0, matrix !! 0 = Some row0 → Exists (λ row, length row < length row0) matrix) →
     pretty_print_matrix str_of matrix sep = ([], Raise IndexError)).
Proof.
  split_and!.
  - split; [apply pretty_print_matrix_Ok_inv|].
    intros (row0 & Hrow0 & Hrows).
    destruct (col_widths_Ok matrix (length row0) Hrows) as (col_widths & Hws & Hlen).
    unfold pretty_print_matrix, getitem. rewrite Hrow0. simpl. rewrite Hws.
    rewrite print_rows_Ok; [done|].
    eapply Forall_impl; [exact Hrows|]. simpl. intros row ->. lia.
  - unfold pretty_print_matrix, getitem.
    destruct (matrix !! 0) as [row0|]; simpl; [|by right].
    destruct (comprehension _ (seq 0 (length row0))) as [col_widths|e] eqn:Hws.
    + destruct (print_rows_end col_widths sep matrix) as [[-> _]|[-> _]]; auto.
    + right. simpl. apply comprehension_Raise_inv in Hws as (col & _ & Hcol).
      by apply col_width_Raise in Hcol as ->.
  - intros Hshort. unfold pretty_print_matrix, getitem.
    destruct (matrix !! 0) as [row0|] eqn:Hrow0; simpl; [|done].
    destruct (comprehension _ (seq 0 (length row0))) as [col_widths|e] eqn:Hws.
    + exfalso. apply comprehension_Ok_inv in Hws.
      specialize (Hshort row0 eq_refl).
      apply Exists_exists in Hshort as (row & Hrow & Hlt).
      assert (seq 0 (length row0) !! (length row0 - 1) = Some (length row0 - 1)) as Hlast.
      { apply lookup_seq. lia. }
      destruct (Forall2_lookup_l _ _ _ _ _ Hws Hlast) as (w & _ & Hw).
      apply col_width_Ok_inv in Hw as [Hw _].
      destruct (Hw row Hrow) as (val & Hval%lookup_lt_Some & _). lia.
    + apply comprehension_Raise_inv in Hws as (col & _ & Hcol).
      by apply col_width_Raise in Hcol as ->.
Qed.

(** X18.  On a matrix whose rows all have as many cells as the first,
    [pretty_print_matrix] prints one line per row: the cells of the row, each
    padded on the left to the width of its column - the longest text in that
    column - and joined by [sep]; so all the lines have the same length. *)
Theorem pretty_print_matrix_aligned (matrix : list (list A)) (sep : string)
    (row0 : list A) :
  matrix !! 0 = Some row0 →
  Forall (λ row, length row = length row0) matrix →
  ∃ col_widths,
    pretty_print_matrix str_of matrix sep
    = ((λ row, join sep (zip_with (λ val w, rjust (str_of val) w) row col_widths))
         <$> matrix, Ok ())
    ∧ length col_widths = length row0
    ∧ (∀ col w, col_widths !! col = Some w →
         (∀ row val, row ∈ matrix → row !! col = Some val →
                     String.length (rjust (str_of val) w) = w)
         ∧ ∃ row val, row ∈ matrix ∧ row !! col = Some val
                      ∧ String.length (str_of val) = w)
    ∧ Forall (λ line,
        String.length line
        = sum_list col_widths + (length row0 - 1) * String.length sep)
        (pretty_print_matrix str_of matrix sep).1.
Proof.
  intros Hrow0 Hrows.
  destruct (col_widths_Ok matrix (length row0) Hrows) as (col_widths & Hws & Hlen).
  assert (∀ col w, col_widths !! col = Some w →
            (∀ row val, row ∈ matrix → row !! col = Some val →
                        String.length (str_of val) ≤ w)
            ∧ ∃ row val, row ∈ matrix ∧ row !! col = Some val
                         ∧ String.length (str_of val) = w) as Hwidth.
  { intros col w Hw. pose proof (comprehension_Ok_inv _ _ _ Hws) as Hall.
    destruct (Forall2_lookup_r _ _ _ _ _ Hall Hw) as (col' & Hcol & Hcw).
    apply lookup_seq in Hcol as [-> _]. simpl in Hcw.
    apply col_width_Ok_inv in Hcw as [Hle Hmax]. split.
    - intros row val Hrow Hval. destruct (Hle row Hrow) as (val' & ? & ?). congruence.
    - apply Hmax. intros ->. done. }
  assert (pretty_print_matrix str_of matrix sep
          = ((λ row, join sep (zip_with (λ val w, rjust (str_of val) w) row col_widths))
               <$> matrix, Ok ())) as Hprint.
  { unfold pretty_print_matrix, getitem. rewrite Hrow0. simpl. rewrite Hws.
    apply print_rows_Ok. eapply Forall_impl; [exact Hrows|]. simpl. intros row ->. lia. }
  exists col_widths. split_and!; [done|done|..].
  - intros col w Hw. destruct (Hwidth col w Hw) as [Hle Hmax]. split; [|done].
    intros row val Hrow Hval. rewrite length_rjust. specialize (Hle row val Hrow Hval). lia.
  - rewrite Hprint. simpl. apply Forall_fmap, Forall_forall. intros row Hrow. simpl.
    rewrite Forall_forall in Hrows. specialize (Hrows row Hrow).
    rewrite length_join, length_zip_with. f_equal; [|f_equal; lia].
    f_equal. apply list_eq_same_length with (length col_widths).
    + done.
    + rewrite length_fmap, length_zip_with. lia.
    + intros i len w Hi Hlen' Hw.
      apply list_lookup_fmap_Some in Hlen' as (cell & -> & Hcell).
      apply lookup_zip_with_Some in Hcell as (val & w' & -> & Hval & Hw').
      assert (w' = w) as -> by congruence.
      rewrite length_rjust. destruct (Hwidth i w Hw) as [Hle _].
      specialize (Hle row val Hrow Hval). lia.
Qed.

End pretty_print_facts.

(** X19.  The matrix [solve] prints for a vehicle is square: the print fails
    exactly when the instance has no node, and prints [num_customers] lines
    otherwise - whatever the assignment and the text of its values. *)
Theorem solve_prints_square_matrix {float : Type} (p : VRPInstance float)
    {A : Type} (sol : var → A) (str_of : A → string) (v : nat) :
  ((num_customers p ≤ 0)%Z ∧
     pretty_print_matrix str_of (edge_matrix p sol v) "  " = ([], Raise IndexError))
  ∨ ((0 < num_customers p)%Z
     ∧ (pretty_print_matrix str_of (edge_matrix p sol v) "  ").2 = Ok ()
     ∧ length (pretty_print_matrix str_of (edge_matrix p sol v) "  ").1
       = Z.to_nat (num_customers p)).
Proof.
  destruct (decide (num_customers p ≤ 0)%Z) as [Hn|Hn]; [left|right].
  - split; [done|]. unfold edge_matrix, range.
    replace (Z.to_nat (num_customers p)) with 0 by lia. done.
  - assert (edge_matrix p sol v !! 0 = Some (edge_row p sol v 0)) as Hrow0.
    { unfold edge_matrix. rewrite list_lookup_fmap, lookup_range by lia. done. }
    assert (Forall (λ row, length row = length (edge_row p sol v 0)) (edge_matrix p sol v))
      as Hrows.
    { unfold edge_matrix. apply Forall_fmap, Forall_true. intros i.
      unfold compose, edge_row. by rewrite !length_fmap. }
    destruct (col_widths_Ok str_of _ _ Hrows) as (col_widths & Hws & Hlen).
    assert (pretty_print_matrix str_of (edge_matrix p sol v) "  "
            = ((λ row, join "  " (zip_with (λ val w, rjust (str_of val) w) row col_widths))
                 <$> edge_matrix p sol v, Ok ())) as ->.
    { unfold pretty_print_matrix, getitem. rewrite Hrow0. simpl. rewrite Hws.
      apply print_rows_Ok. eapply Forall_impl; [exact Hrows|]. simpl. intros row ->. lia. }
    split; [lia|]. split; [done|]. simpl.
    unfold edge_matrix. by rewrite !length_fmap, length_range.
Qed.

(** X18, witness: two rows of three numbers. *)
Lemma pretty_print_matrix_aligned_witness :
  ∃ col_widths,
    pretty_print_matrix str [[1; 20; 3]; [100; 2; 3]] "  "
    = ((λ row, join "  " (zip_with (λ val w, rjust (str val) w) row col_widths))
         <$> [[1; 20; 3]; [100; 2; 3]], Ok ())
    ∧ length col_widths = length [1; 20; 3]
    ∧ (∀ col w, col_widths !! col = Some w →
         (∀ row val, row ∈ [[1; 20; 3]; [100; 2; 3]] → row !! col = Some val →
                     String.length (rjust (str val) w) = w)
         ∧ ∃ row val, row ∈ [[1; 20; 3]; [100; 2; 3]] ∧ row !! col = Some val
                      ∧ String.length (str val) = w)
    ∧ Forall (λ line,
        String.length line
        = sum_list col_widths + (length [1; 20; 3] - 1) * String.length "  ")
        (pretty_print_matrix str [[1; 20; 3]; [100; 2; 3]] "  ").1.
Proof.
  apply (pretty_print_matrix_aligned str [[1; 20; 3]; [100; 2; 3]] "  " [1; 20; 3]).
  - reflexivity.
  - repeat constructor.
Defined.

(** ** The decoded routes and the selected arcs *)

Lemma zip_pred {A} (a x : A) (k : list A) : x ∈ k → ∃ y, (y, x) ∈ zip (a :: k) k.
Proof.
  revert a. induction k as [|c k IH]; intros a Hin.
  - by apply elem_of_nil in Hin.
  - apply elem_of_cons in Hin as [->|Hin].
    + exists a. by left.
    + destruct (IH c Hin) as [y Hy]. exists y. by right.
Qed.

Lemma zip_succ {A} (a x z : A) (k : list A) :
  x ∈ k → ∃ y, (x, y) ∈ zip (a :: k ++ [z]) (k ++ [z]).
Proof.
  revert a. induction k as [|c k IH]; intros a Hin.
  - by apply elem_of_nil in Hin.
  - apply elem_of_cons in Hin as [->|Hin].
    + destruct k as [|c' k]; [exists z|exists c']; right; by left.
    + destruct (IH c Hin) as [y Hy]. exists y. by right.
Qed.

(** The arcs an assignment that satisfies the built model selects for a
    vehicle are the arcs of the tour decoded for it. *)
Lemma feasible_arcs {float : Type} (p : VRPInstance float) (sol : var → Z) :
  feasible (built_model p) sol →
  (num_customers p = 0 → num_vehicles p = 0)%Z → (0 ≤ num_customers p)%Z →
  ∃ tours,
    Forall2 (λ v nodes,
      decode_vehicle p sol (Z.to_nat (num_customers p)) v = Some (Ok (route_of nodes)))
      (range (num_vehicles p)) tours
    ∧ ∀ v nodes i j,
        tours !! v = Some nodes →
        (Z.of_nat i < num_customers p)%Z → (Z.of_nat j < num_customers p)%Z →
        (sol (edge_var v i j) = 1%Z
         ↔ nodes ≠ [] ∧ (i, j) ∈ route_arcs (0 :: nodes ++ [0])).
Proof.
  intros Hfeas Hn0 Hn.
  destruct (feasible_tours p sol Hfeas Hn0 Hn) as [tours Htours].
  exists tours. split.
  { eapply Forall2_impl; [exact Htours|]. by intros v nodes [? _]. }
  intros v nodes i j Hk Hi Hj.
  destruct (Forall2_lookup_r _ _ _ _ _ Htours Hk)
    as (v' & [-> Hv]%lookup_seq & Hdec & _ & Hent & Hall).
  simpl in Hdec, Hent, Hall.
  assert (Z.of_nat v < num_vehicles p)%Z as Hv' by lia.
  apply decode_vehicle_shape in Hdec as (nodes' & Heq & Hnodes & Hcase).
  assert (nodes' = nodes) as ->.
  { unfold route_of in Heq. apply (inj (fmap str)) in Heq.
    injection Heq as Heq. by apply app_inj_tail in Heq as [? _]. }
  assert (nodes ≠ [] → ∀ a b, (a, b) ∈ route_arcs (0 :: nodes ++ [0]) →
            (Z.of_nat b < num_customers p)%Z
            ∧ sol (edge_var v a b) = 1%Z) as Harcs.
  { intros Hne a b Harc. destruct Hcase as [[-> _]|Hch]; [done|].
    unfold route_arcs in Harc. simpl in Harc.
    by apply (chain_arcs p sol v 0 _ a b Hch), index_1_edge_row in Harc. }
  split.
  - intros H1.
    assert (i ≠ j) as Hij.
    { intros ->. rewrite (feas_edge_diagonal p _ Hfeas v j Hv' Hj) in H1. done. }
    destruct (decide (j = 0)) as [->|Hj0].
    + destruct (feas_enters_left p _ Hfeas v i 0 Hv' Hi Hj H1) as (i0 & Hi0 & H10).
      assert (i ∈ nodes) as Hin by (apply (Hall i i0); [lia|done..]).
      assert (nodes ≠ []) as Hne by (intros ->; by apply elem_of_nil in Hin).
      split; [done|].
      destruct (zip_succ 0 i 0 nodes Hin) as [j' Hj'].
      destruct (Harcs Hne i j' Hj') as [Hlt H1'].
      by destruct (feas_unique_out p _ Hfeas i v 0 v j' ltac:(lia) Hi Hv' Hj H1 Hv' Hlt H1')
        as [_ ->].
    + assert (j ∈ nodes) as Hin by (apply (Hall j i); [lia|done..]).
      assert (nodes ≠ []) as Hne by (intros ->; by apply elem_of_nil in Hin).
      split; [done|].
      destruct (zip_pred 0 j (nodes ++ [0])) as [i' Hi'].
      { apply elem_of_app. by left. }
      destruct (Harcs Hne i' j Hi') as [_ H1'].
      assert (Z.of_nat i' < num_customers p)%Z as Hi'lt.
      { apply elem_of_zip_l in Hi'. apply elem_of_cons in Hi' as [->|Hi']; [lia|].
        apply elem_of_app in Hi' as [Hi'|Hi']; [|apply list_elem_of_singleton in Hi'; lia].
        rewrite Forall_forall in Hnodes. by destruct (Hnodes i' Hi'). }
      by destruct (feas_unique_in p _ Hfeas j v i v i' ltac:(lia) Hj Hv' Hi H1 Hv' Hi'lt H1')
        as [_ ->].
  - intros [Hne Harc]. by destruct (Harcs Hne i j Harc).
Qed.

(** X20.  Decoding loses nothing of an answer that equals 1 exactly where an
    integer assignment satisfying the built model is 1: the arcs on which a
    vehicle's values equal 1 are exactly the arcs of the route decoded for
    that vehicle, and none when the route is that of an unused vehicle. *)
Theorem feasible_routes_are_the_arcs {float : Type} `{!Platform float}
    (p : VRPInstance float) (m : Model) (s : Solution) (sol : var → Z) :
  build p = Ok m → feasible m sol → same_ones (solution_value s) sol →
  ∃ tours,
    decoded p s (Z.to_nat (num_customers p)) = Some (Ok (route_of <$> tours))
    ∧ ∀ v nodes i j,
        tours !! v = Some nodes →
        (Z.of_nat i < num_customers p)%Z → (Z.of_nat j < num_customers p)%Z →
        (equals_1 (solution_value s (edge_var v i j)) = true
         ↔ nodes ≠ [] ∧ (i, j) ∈ route_arcs (0 :: nodes ++ [0])).
Proof.
  intros (-> & Hnv & Hn & Hn0)%build_Ok_inv Hfeas Hs.
  destruct (feasible_arcs p sol Hfeas Hn0 Hn) as (tours & Htours & Harcs).
  exists tours. split; [by apply (decoded_tours p s sol _ tours Hs)|].
  intros v nodes i j Hk Hi Hj. rewrite (Hs (edge_var v i j)). by apply Harcs.
Qed.

(** X20, witness. *)
Lemma feasible_routes_are_the_arcs_witness :
  ∃ tours,
    decoded toy_two_vehicles (answer tour_021 "7.5") (Z.to_nat 3)
    = Some (Ok (route_of <$> tours))
    ∧ ∀ v nodes i j,
        tours !! v = Some nodes →
        (Z.of_nat i < 3)%Z → (Z.of_nat j < 3)%Z →
        (equals_1 (solution_value (answer tour_021 "7.5") (edge_var v i j)) = true
         ↔ nodes ≠ [] ∧ (i, j) ∈ route_arcs (0 :: nodes ++ [0])).
Proof.
  apply (feasible_routes_are_the_arcs toy_two_vehicles (built_model toy_two_vehicles)
           (answer tour_021 "7.5") tour_021).
  - vm_compute. reflexivity.
  - apply (bool_decide_unpack _). vm_compute. exact I.
  - apply exactly_same_ones.
Defined.

(** ** When the decoder raises *)

Section decoder_errors.
  Context {float : Type} (p : VRPInstance float) (sol : var → Z).

Lemma trace_route_dead_end (fuel v current : nat) (route : list string) (e : exn) :
  trace_route p sol fuel v current route = Some (Raise e) →
  1%Z ∉ edge_row p sol v current
  ∨ ∃ path c, chain p sol v current (path ++ [c])
              ∧ Forall (λ x, x ≠ 0) (path ++ [c])
              ∧ 1%Z ∉ edge_row p sol v c.
Proof.
  revert current route. induction fuel as [|fuel IH]; intros current route; [discriminate|].
  simpl. destruct (index_1 (edge_row p sol v current)) as [next|e'] eqn:Hnext.
  - case_bool_decide as Hz; [discriminate|]. intros Hrec. right.
    destruct (IH _ _ Hrec) as [Hdead|(path & c & Hch & Hnz & Hdead)].
    + exists [], next. split; [by split|]. split; [|done]. by repeat constructor.
    + exists (next :: path), c. split; [by split|]. split; [|done]. by constructor.
  - intros _. left. by apply index_1_Raise in Hnext as [_ ?].
Qed.

Lemma trace_route_raises (v current c : nat) (path : list nat) (route : list string) :
  chain p sol v current (path ++ [c]) → Forall (λ x, x ≠ 0) (path ++ [c]) →
  1%Z ∉ edge_row p sol v c →
  trace_route p sol (length path + 2) v current route = Some (Raise ValueError_index).
Proof.
  intros Hch Hnz Hdead. revert current route Hch Hnz.
  induction path as [|x path IH]; intros current route; simpl.
  - intros [Hc _] [Hc0 _]%Forall_cons. rewrite Hc.
    rewrite bool_decide_eq_false_2 by done.
    destruct (index_1 (edge_row p sol v c)) as [k|e] eqn:Hk.
    + apply index_1_Ok in Hk as [Hk _]. destruct Hdead. by eapply list_elem_of_lookup_2.
    + by apply index_1_Raise in Hk as [-> _].
  - intros [Hx Hch] [Hx0 Hnz]%Forall_cons. rewrite Hx.
    rewrite bool_decide_eq_false_2 by done. by apply IH.
Qed.

(** On integers: the decoder raises at a dead end. *)
Lemma dead_end_Z (v : nat) :
  ((∃ fuel, decode_vehicle p sol fuel v = Some (Raise ValueError_index))
   ↔ ∃ path c, chain p sol v 0 (path ++ [c])
               ∧ Forall (λ x, x ≠ 0) (path ++ [c])
               ∧ 1%Z ∉ edge_row p sol v c)
  ∧ ∀ fuel e, decode_vehicle p sol fuel v = Some (Raise e) →
              (e = IndexError ∧ (num_customers p ≤ 0)%Z)
              ∨ (e = ValueError_index ∧ (0 < num_customers p)%Z).
Proof.
  split; [split|].
  - intros [fuel Hd]. rewrite decode_vehicle_Z in Hd.
    case_bool_decide as Hn; [discriminate|].
    case_bool_decide as Hrow; [discriminate|].
    apply trace_route_dead_end in Hd as [Hdead|Hd]; [|done].
    by destruct Hdead.
  - intros (path & c & Hch & Hnz & Hdead).
    exists (length path + 2). rewrite decode_vehicle_Z.
    assert (∃ x, index_1 (edge_row p sol v 0) = Ok x) as [x Hx].
    { destruct path; simpl in Hch; destruct Hch as [Hx _]; by eexists. }
    pose proof (index_1_edge_row _ _ _ _ _ Hx) as [Hlt H1].
    rewrite bool_decide_eq_false_2 by lia.
    rewrite bool_decide_eq_false_2.
    + by apply trace_route_raises with c.
    + intros Hrow. apply Hrow. apply elem_of_edge_row. by exists x.
  - intros fuel e. rewrite decode_vehicle_Z.
    case_bool_decide as Hn; [intros [= <-]; by left|].
    case_bool_decide as Hrow; [discriminate|].
    intros ->%trace_route_Raise. right. split; [done|lia].
Qed.

End decoder_errors.

(** X21.  The decoder raises ValueError for a vehicle exactly when the first
    selected arcs lead from the depot, through nodes other than the depot,
    to a node whose row selects no arc; its only other exception is the
    IndexError of an instance without nodes. *)
Theorem decoder_raises_at_dead_end {float : Type} (p : VRPInstance float)
    {A : Type} `{!Value A} (sol : var → A) (v : nat) :
  ((∃ fuel, decode_vehicle p sol fuel v = Some (Raise ValueError_index))
   ↔ ∃ path c, chain p sol v 0 (path ++ [c])
               ∧ Forall (λ x, x ≠ 0) (path ++ [c])
               ∧ ¬ has_1 (edge_row p sol v c))
  ∧ ∀ fuel e, decode_vehicle p sol fuel v = Some (Raise e) →
              (e = IndexError ∧ (num_customers p ≤ 0)%Z)
              ∨ (e = ValueError_index ∧ (0 < num_customers p)%Z).
Proof.
  destruct (dead_end_Z p (ones sol) v) as [Hiff Herr]. split.
  - split.
    + intros [fuel Hd]. rewrite (decode_vehicle_tests p sol (ones sol) (ones_tests sol)) in Hd.
      destruct (proj1 Hiff (ex_intro _ fuel Hd)) as (path & c & Hch & Hnz & Hdead).
      exists path, c. split_and!; [|done|by apply dead_row_ones].
      by apply (chain_tests p sol (ones sol) (ones_tests sol)).
    + intros (path & c & Hch & Hnz & Hdead).
      destruct (proj2 Hiff) as [fuel Hd].
      { exists path, c. split_and!; [|done|by apply dead_row_ones].
        by apply (chain_tests p sol (ones sol) (ones_tests sol)). }
      exists fuel. by rewrite (decode_vehicle_tests p sol (ones sol) (ones_tests sol)).
  - intros fuel e. rewrite (decode_vehicle_tests p sol (ones sol) (ones_tests sol)).
    apply Herr.
Qed.

(** ** When the decoder does not return *)

Lemma repeated_element {A} `{EqDecision A} (l : list A) :
  ¬ NoDup l → ∃ a x b d, l = a ++ x :: b ++ x :: d.
Proof.
  induction l as [|y l IH]; intros Hdup.
  - destruct Hdup. constructor.
  - destruct (decide (y ∈ l)) as [Hin|Hnotin].
    + apply list_elem_of_split in Hin as (b & d & ->). by exists [], y, b, d.
    + destruct IH as (a & x & b & d & ->).
      { intros Hnd. apply Hdup. by constructor. }
      by exists (y :: a), x, b, d.
Qed.

Lemma pigeonhole (l : list nat) (bound : nat) :
  Forall (λ x, x < bound) l → bound < length l → ¬ NoDup l.
Proof.
  intros Hlt Hlen Hnd.
  assert (l ⊆+ seq 0 bound) as Hsub.
  { apply NoDup_submseteq; [done|]. intros x Hx. rewrite Forall_forall in Hlt.
    apply elem_of_seq. specialize (Hlt x Hx). lia. }
  apply submseteq_length in Hsub. rewrite length_seq in Hsub. lia.
Qed.

Section decoder_hangs.
  Context {float : Type} (p : VRPInstance float) (sol : var → Z).

Lemma chain_app (v current : nat) (l l' : list nat) :
  chain p sol v current (l ++ l')
  ↔ chain p sol v current l ∧ chain p sol v (default current (last l)) l'.
Proof.
  revert current. induction l as [|x l IH]; intros current.
  - simpl. tauto.
  - cbn [app chain]. rewrite IH, last_cons.
    destruct (last l); simpl; tauto.
Qed.

Lemma trace_route_None (fuel v current : nat) (route : list string) :
  trace_route p sol fuel v current route = None →
  ∃ l, length l = fuel ∧ chain p sol v current l ∧ Forall (λ x, x ≠ 0) l.
Proof.
  revert current route. induction fuel as [|fuel IH]; intros current route.
  - intros _. exists []. by repeat split.
  - simpl. destruct (index_1 (edge_row p sol v current)) as [next|e] eqn:Hnext;
      [|discriminate].
    case_bool_decide as Hz; [discriminate|].
    intros (l & Hlen & Hch & Hnz)%IH. exists (next :: l).
    split; [by rewrite <- Hlen|]. split; [by split|by constructor].
Qed.

Lemma trace_route_long_chain (fuel v current : nat) (route : list string) (l : list nat) :
  chain p sol v current l → Forall (λ x, x ≠ 0) l → fuel ≤ length l →
  trace_route p sol fuel v current route = None.
Proof.
  revert current route l. induction fuel as [|fuel IH]; intros current route l; [done|].
  destruct l as [|x l]; simpl; [lia|].
  intros [Hx Hch] [Hx0 Hnz]%Forall_cons Hlen. rewrite Hx.
  rewrite bool_decide_eq_false_2 by done. apply (IH _ _ l); [done..|lia].
Qed.

(** Around a cycle as often as wanted. *)
Lemma chain_cycle (v c : nat) (cycle : list nat) (k : nat) :
  chain p sol v c (cycle ++ [c]) →
  chain p sol v c (mjoin (replicate k (cycle ++ [c]))).
Proof.
  intros Hcyc. induction k as [|k IH]; simpl; [done|].
  apply chain_app. split; [done|]. by rewrite last_snoc.
Qed.

(** On integers: the loop never ends on a cycle. *)
Lemma cycle_Z (v : nat) :
  (∀ fuel, decode_vehicle p sol fuel v = None)
  ↔ ∃ path c, chain p sol v 0 (path ++ [c])
              ∧ Forall (λ x, x ≠ 0) (path ++ [c])
              ∧ c ∈ path.
Proof.
  split.
  - intros Hhang.
    specialize (Hhang (S (Z.to_nat (num_customers p)))).
    rewrite decode_vehicle_Z in Hhang.
    case_bool_decide as Hn; [discriminate|].
    case_bool_decide as Hrow; [discriminate|].
    apply trace_route_None in Hhang as (l & Hlen & Hch & Hnz).
    destruct (repeated_element l) as (a & x & b & d & ->).
    { apply pigeonhole with (Z.to_nat (num_customers p)); [|lia].
      eapply Forall_impl; [exact (chain_lt p sol v 0 l Hch)|]. simpl. lia. }
    exists (a ++ x :: b), x.
    replace (a ++ x :: b ++ x :: d) with (((a ++ x :: b) ++ [x]) ++ d) in Hch, Hnz
      by (by rewrite <- !app_assoc).
    apply chain_app in Hch as [Hch _]. apply Forall_app in Hnz as [Hnz _].
    split_and!; [done..|]. apply elem_of_app. right. by left.
  - intros (path & c & Hch & Hnz & [a [b ->]]%list_elem_of_split) fuel.
    replace ((a ++ c :: b) ++ [c]) with ((a ++ [c]) ++ (b ++ [c])) in Hch, Hnz
      by (by rewrite <- !app_assoc).
    apply chain_app in Hch as [Hstart Hcyc]. rewrite last_snoc in Hcyc. simpl in Hcyc.
    apply Forall_app in Hnz as [Hnz_start Hnz_cyc].
    assert (∃ x, index_1 (edge_row p sol v 0) = Ok x) as [x Hx].
    { destruct a; simpl in Hstart; destruct Hstart as [Hx _]; by eexists. }
    pose proof (index_1_edge_row _ _ _ _ _ Hx) as [Hlt H1].
    rewrite decode_vehicle_Z.
    rewrite bool_decide_eq_false_2 by lia.
    rewrite bool_decide_eq_false_2.
    2:{ intros Hrow. apply Hrow. apply elem_of_edge_row. by exists x. }
    apply trace_route_long_chain with ((a ++ [c]) ++ mjoin (replicate fuel (b ++ [c]))).
    + apply chain_app. split; [done|]. rewrite last_snoc. simpl. by apply chain_cycle.
    + apply Forall_app. split; [done|]. apply Forall_forall.
      intros y (cyc & Hy & [-> _]%elem_of_replicate)%list_elem_of_join.
      rewrite Forall_forall in Hnz_cyc. by apply Hnz_cyc.
    + rewrite length_app.
      assert (fuel ≤ length (mjoin (replicate fuel (b ++ [c])))); [|lia].
      clear. induction fuel as [|k IH]; [simpl; lia|].
      change (mjoin (replicate (S k) (b ++ [c])))
        with ((b ++ [c]) ++ mjoin (replicate k (b ++ [c]))).
      rewrite !length_app. simpl. lia.
Qed.

End decoder_hangs.

(** X22.  The loop of the decoder never ends for a vehicle exactly when the
    first selected arcs lead from the depot, through nodes other than the
    depot, back to a node they have passed already. *)
Theorem decoder_hangs_on_cycle {float : Type} (p : VRPInstance float)
    {A : Type} `{!Value A} (sol : var → A) (v : nat) :
  (∀ fuel, decode_vehicle p sol fuel v = None)
  ↔ ∃ path c, chain p sol v 0 (path ++ [c])
              ∧ Forall (λ x, x ≠ 0) (path ++ [c])
              ∧ c ∈ path.
Proof.
  pose proof (cycle_Z p (ones sol) v) as Hiff. split.
  - intros Hhang. destruct (proj1 Hiff) as (path & c & Hch & Hnz & Hin).
    { intros fuel. by rewrite <- (decode_vehicle_tests p sol (ones sol) (ones_tests sol)). }
    exists path, c. split_and!; [|done..].
    by apply (chain_tests p sol (ones sol) (ones_tests sol)).
  - intros (path & c & Hch & Hnz & Hin) fuel.
    rewrite (decode_vehicle_tests p sol (ones sol) (ones_tests sol)).
    apply (proj2 Hiff). exists path, c. split_and!; [|done..].
    by apply (chain_tests p sol (ones sol) (ones_tests sol)).
Qed.

(** ** Every plan satisfies the model *)

Lemma sum_over_none {A} (l : list A) (f : A → Z) :
  (∀ b, b ∈ l → f b = 0%Z) → sum_over l f = 0%Z.
Proof. intros H. rewrite (sum_over_ext l f (λ _, 0%Z)) by done. apply sum_over_zero. Qed.

Lemma sum_over_app {A} (l k : list A) (f : A → Z) :
  sum_over (l ++ k) f = (sum_over l f + sum_over k f)%Z.
Proof. unfold sum_over. by rewrite fmap_app, Zsum_app. Qed.

Lemma sum_over_single {A} (l : list A) (f : A → Z) (a : A) :
  NoDup l → a ∈ l → (∀ b, b ∈ l → b ≠ a → f b = 0%Z) → sum_over l f = f a.
Proof.
  intros Hnd [l1 [l2 ->]]%list_elem_of_split Hzero.
  apply NoDup_app in Hnd as (_ & Hl1 & [Hl2 _]%NoDup_cons).
  rewrite sum_over_app, sum_over_cons, !sum_over_none; [lia| |].
  - intros b Hb. apply Hzero; [|by intros ->]. apply elem_of_app. right. by right.
  - intros b Hb. apply Hzero; [|intros ->; apply (Hl1 a Hb); by left].
    apply elem_of_app. by left.
Qed.

Lemma sum_over_indicator {A} `{EqDecision A} (k l : list A) (g : A → Z) :
  NoDup k → NoDup l → (∀ a, a ∈ l → a ∈ k) →
  sum_over k (λ a, if bool_decide (a ∈ l) then g a else 0%Z) = sum_over l g.
Proof.
  revert k. induction l as [|a l IH]; intros k Hk Hl Hsub.
  { apply sum_over_none. intros b _. rewrite bool_decide_eq_false_2; [done|].
    apply not_elem_of_nil. }
  apply NoDup_cons in Hl as [Ha Hl].
  destruct (proj1 (elem_of_Permutation k a) (Hsub a ltac:(by left))) as [k' Hperm].
  rewrite (sum_over_Permutation _ _ _ Hperm), !sum_over_cons.
  rewrite Hperm in Hk. apply NoDup_cons in Hk as [Ha' Hk'].
  rewrite bool_decide_eq_true_2 by (by left). f_equal.
  rewrite <- (IH k' Hk' Hl).
  - apply sum_over_ext. intros b Hb.
    assert (b ≠ a) by (by intros ->).
    destruct (decide (b ∈ l)) as [Hin|Hout].
    + rewrite !bool_decide_eq_true_2; [done..|by right].
    + rewrite !bool_decide_eq_false_2; [done..|].
      by intros [->|?]%elem_of_cons.
  - intros b Hb. assert (b ∈ k) as Hbk by (apply Hsub; by right).
    rewrite Hperm in Hbk. apply elem_of_cons in Hbk as [->|?]; done.
Qed.

Lemma sum_over_lookup {A} (l : list A) (d : A) (f : A → Z) :
  sum_over (seq 0 (length l)) (λ k, f (default d (l !! k))) = sum_over l f.
Proof.
  induction l as [|a l IH]; [done|].
  cbn [length seq]. rewrite !sum_over_cons. simpl. f_equal.
  rewrite <- fmap_S_seq, sum_over_fmap. done.
Qed.

(** In how many tours a customer is, when no customer is in two. *)
Lemma sum_over_tours (tours : list (list nat)) (c : nat) :
  NoDup (mjoin tours) →
  sum_over tours (λ nodes, if bool_decide (c ∈ nodes) then 1%Z else 0%Z)
  = if bool_decide (c ∈ mjoin tours) then 1%Z else 0%Z.
Proof.
  induction tours as [|nodes tours IH]; intros Hnd.
  { rewrite bool_decide_eq_false_2; [done|]. apply not_elem_of_nil. }
  change (mjoin (nodes :: tours)) with (nodes ++ mjoin tours) in *.
  apply NoDup_app in Hnd as (Hnodes & Hdisj & Htours).
  rewrite sum_over_cons, IH by done.
  destruct (decide (c ∈ nodes)) as [Hin|Hout].
  - rewrite bool_decide_eq_true_2 by done.
    rewrite (bool_decide_eq_false_2 (c ∈ mjoin tours)) by (by apply Hdisj).
    rewrite bool_decide_eq_true_2; [done|]. apply elem_of_app. by left.
  - rewrite (bool_decide_eq_false_2 (c ∈ nodes)) by done.
    destruct (decide (c ∈ mjoin tours)) as [Hin'|Hout'].
    + rewrite !bool_decide_eq_true_2; [done| |done]. apply elem_of_app. by right.
    + rewrite !bool_decide_eq_false_2; [done| |done].
      by intros [?|?]%elem_of_app.
Qed.

Lemma zip_snoc_l {A B} (l : list A) (k : list B) (x : A) :
  length k ≤ length l → zip (l ++ [x]) k = zip l k.
Proof.
  revert k. induction l as [|a l IH]; intros [|b k] Hlen; simpl in *; try done; [lia|].
  f_equal. apply IH. lia.
Qed.

Lemma tour_arcs_eq (nodes : list nat) :
  nodes ≠ [] → tour_arcs nodes = zip (0 :: nodes) (nodes ++ [0]).
Proof.
  intros Hne. unfold tour_arcs, route_arcs. destruct nodes as [|c rest]; [done|].
  cbn [tail]. rewrite !app_comm_cons. apply zip_snoc_l.
  rewrite length_app. simpl. lia.
Qed.

Section tour_facts.
  Context (nodes : list nat) (bound : nat).
  Hypothesis Hnd : NoDup nodes.
  Hypothesis Hrange : Forall (λ c, 1 ≤ c < bound) nodes.

Lemma tour_node (k c : nat) : nodes !! k = Some c → 1 ≤ c < bound.
Proof.
  intros Hk. pose proof Hrange as Hr. rewrite Forall_forall in Hr. apply Hr.
  by eapply list_elem_of_lookup_2.
Qed.

Lemma tour_length : length nodes ≤ bound - 1.
Proof.
  assert (nodes ⊆+ seq 1 (bound - 1)) as Hsub.
  { apply NoDup_submseteq; [done|]. intros c Hc. pose proof Hrange as Hr.
    rewrite Forall_forall in Hr. specialize (Hr c Hc). apply elem_of_seq. lia. }
  apply submseteq_length in Hsub. by rewrite length_seq in Hsub.
Qed.

Lemma elem_of_tour_arcs (i j : nat) :
  (i, j) ∈ tour_arcs nodes
  ↔ nodes ≠ [] ∧ ∃ k, (0 :: nodes) !! k = Some i ∧ (nodes ++ [0]) !! k = Some j.
Proof.
  destruct (decide (nodes = [])) as [Hn|Hn].
  { rewrite Hn. split; [by intros ?%elem_of_nil|by intros [? _]]. }
  rewrite tour_arcs_eq by done. rewrite elem_of_lookup_zip_with. split.
  - intros (k & x & y & [= -> ->] & Hx & Hy). split; [done|]. by exists k.
  - intros (_ & k & Hx & Hy). by exists k, i, j.
Qed.

Lemma tour_first : nodes ≠ [] → ∃ c, nodes !! 0 = Some c ∧ 1 ≤ c < bound.
Proof.
  intros Hne. destruct (lookup_lt_is_Some_2 nodes 0) as [c Hc].
  { assert (length nodes ≠ 0) by (by intros ?%nil_length_inv). lia. }
  exists c. split; [done|]. by eapply tour_node.
Qed.

Lemma tour_arc_ends (i j : nat) :
  (i, j) ∈ tour_arcs nodes → i < bound ∧ j < bound ∧ i ≠ j.
Proof.
  intros (Hne & k & Hi & Hj)%elem_of_tour_arcs.
  destruct (tour_first Hne) as (c & Hc & Hc1).
  assert (i = 0 ∨ 1 ≤ i < bound) as Hi'.
  { destruct k as [|k]; simpl in Hi; [left; congruence|right; by eapply tour_node]. }
  assert (j = 0 ∨ 1 ≤ j < bound) as Hj'.
  { apply lookup_app_Some in Hj as [Hj|[_ Hj]]; [right; by eapply tour_node|].
    left. apply list_lookup_singleton_Some in Hj as [_ ?]. done. }
  split_and!; [lia..|]. intros ->.
  destruct k as [|k]; simpl in Hi.
  - injection Hi as <-. rewrite lookup_app_l in Hj by (by eapply lookup_lt_Some).
    rewrite Hc in Hj. injection Hj as ->. lia.
  - pose proof (tour_node _ _ Hi).
    apply lookup_app_Some in Hj as [Hj|[_ Hj]].
    + pose proof (NoDup_lookup _ _ _ _ Hnd Hi Hj). lia.
    + apply list_lookup_singleton_Some in Hj as [_ ?]. lia.
Qed.

Lemma NoDup_firsts : NoDup (0 :: nodes).
Proof.
  constructor; [|done]. intros Hin. pose proof Hrange as Hr.
  rewrite Forall_forall in Hr. specialize (Hr 0 Hin). lia.
Qed.

Lemma NoDup_seconds : NoDup (nodes ++ [0]).
Proof.
  apply NoDup_app. split_and!; [done| |apply NoDup_singleton].
  intros c Hc Hc0%list_elem_of_singleton. subst c.
  pose proof Hrange as Hr. rewrite Forall_forall in Hr. specialize (Hr 0 Hc). lia.
Qed.

Lemma tour_arc_unique_pred (i i' j : nat) :
  (i, j) ∈ tour_arcs nodes → (i', j) ∈ tour_arcs nodes → i' = i.
Proof.
  intros (_ & k & Hi & Hj)%elem_of_tour_arcs (_ & k' & Hi' & Hj')%elem_of_tour_arcs.
  pose proof (NoDup_lookup _ _ _ _ NoDup_seconds Hj Hj') as ->. congruence.
Qed.

Lemma tour_arc_unique_succ (i j j' : nat) :
  (i, j) ∈ tour_arcs nodes → (i, j') ∈ tour_arcs nodes → j' = j.
Proof.
  intros (_ & k & Hi & Hj)%elem_of_tour_arcs (_ & k' & Hi' & Hj')%elem_of_tour_arcs.
  pose proof (NoDup_lookup _ _ _ _ NoDup_firsts Hi Hi') as ->. congruence.
Qed.

Lemma tour_arc_pred (j : nat) :
  nodes ≠ [] → j ∈ nodes ++ [0] → ∃ i, (i, j) ∈ tour_arcs nodes.
Proof.
  intros Hne [k Hk]%list_elem_of_lookup_1.
  destruct (lookup_lt_is_Some_2 (0 :: nodes) k) as [i Hi].
  { apply lookup_lt_Some in Hk. rewrite length_app in Hk. simpl in *. lia. }
  exists i. apply elem_of_tour_arcs. split; [done|]. by exists k.
Qed.

Lemma tour_arc_succ (i : nat) :
  nodes ≠ [] → i ∈ 0 :: nodes → ∃ j, (i, j) ∈ tour_arcs nodes.
Proof.
  intros Hne [k Hk]%list_elem_of_lookup_1.
  destruct (lookup_lt_is_Some_2 (nodes ++ [0]) k) as [j Hj].
  { apply lookup_lt_Some in Hk. rewrite length_app. simpl in *. lia. }
  exists j. apply elem_of_tour_arcs. split; [done|]. by exists k.
Qed.

(** How many arcs of the tour enter a node, and how many leave it. *)
Lemma tour_in_degree (c : nat) :
  sum_over (seq 0 bound) (λ i, if bool_decide ((i, c) ∈ tour_arcs nodes) then 1%Z else 0%Z)
  = if bool_decide (nodes ≠ [] ∧ c ∈ 0 :: nodes) then 1%Z else 0%Z.
Proof.
  case_bool_decide as Hc.
  - destruct Hc as [Hne Hc].
    destruct (tour_arc_pred c Hne) as [i Hi].
    { apply elem_of_cons in Hc as [->|Hc]; apply elem_of_app; [right; by left|by left]. }
    rewrite (sum_over_single _ _ i).
    + by rewrite bool_decide_eq_true_2.
    + apply NoDup_seq.
    + apply elem_of_seq. apply tour_arc_ends in Hi. lia.
    + intros i' _ Hne'. rewrite bool_decide_eq_false_2; [done|].
      intros Hi'. by apply Hne', (tour_arc_unique_pred i i' c).
  - apply sum_over_none. intros i _. rewrite bool_decide_eq_false_2; [done|].
    intros (Hne & k & _ & Hk)%elem_of_tour_arcs. apply Hc. split; [done|].
    apply list_elem_of_lookup_2 in Hk.
    apply elem_of_app in Hk as [?|Hk]; [by right|].
    apply list_elem_of_singleton in Hk as ->. by left.
Qed.

Lemma tour_out_degree (c : nat) :
  sum_over (seq 0 bound) (λ j, if bool_decide ((c, j) ∈ tour_arcs nodes) then 1%Z else 0%Z)
  = if bool_decide (nodes ≠ [] ∧ c ∈ 0 :: nodes) then 1%Z else 0%Z.
Proof.
  case_bool_decide as Hc.
  - destruct Hc as [Hne Hc].
    destruct (tour_arc_succ c Hne Hc) as [j Hj].
    rewrite (sum_over_single _ _ j).
    + by rewrite bool_decide_eq_true_2.
    + apply NoDup_seq.
    + apply elem_of_seq. apply tour_arc_ends in Hj. lia.
    + intros j' _ Hne'. rewrite bool_decide_eq_false_2; [done|].
      intros Hj'. by apply Hne', (tour_arc_unique_succ c j j').
  - apply sum_over_none. intros j _. rewrite bool_decide_eq_false_2; [done|].
    intros (Hne & k & Hk & _)%elem_of_tour_arcs. apply Hc. split; [done|].
    by eapply list_elem_of_lookup_2.
Qed.

Lemma place_lookup (k i : nat) :
  nodes !! k = Some i → place nodes i = Z.of_nat (length nodes - k).
Proof.
  intros Hk. unfold place.
  destruct (list_find (λ c, c = i) nodes) as [[k' x]|] eqn:Hfind.
  - apply list_find_Some in Hfind as (Hk' & -> & _).
    by rewrite (NoDup_lookup _ _ _ _ Hnd Hk Hk').
  - apply list_find_None in Hfind. rewrite Forall_forall in Hfind.
    destruct (Hfind i); [by eapply list_elem_of_lookup_2|done].
Qed.

Lemma place_bounds (i : nat) : 2 ≤ bound → (1 ≤ place nodes i ≤ Z.of_nat bound - 1)%Z.
Proof.
  intros Hb. pose proof tour_length. unfold place.
  destruct (list_find (λ c, c = i) nodes) as [[k x]|] eqn:Hfind; [|lia].
  apply list_find_Some in Hfind as (Hk%lookup_lt_Some & _). lia.
Qed.

(** Along an arc between two customers the place goes down by one. *)
Lemma place_arc (i j : nat) :
  1 ≤ i → 1 ≤ j → (i, j) ∈ tour_arcs nodes → (place nodes j + 1 = place nodes i)%Z.
Proof.
  intros Hi1 Hj1 (_ & k & Hi & Hj)%elem_of_tour_arcs.
  destruct k as [|k]; simpl in Hi; [injection Hi as <-; lia|].
  apply lookup_app_Some in Hj as [Hj|[_ Hj]].
  - rewrite (place_lookup _ _ Hi), (place_lookup _ _ Hj).
    apply lookup_lt_Some in Hj. lia.
  - apply list_lookup_singleton_Some in Hj as [_ ?]. lia.
Qed.

End tour_facts.

Section plan_facts.
  Context {float : Type} (p : VRPInstance float) (tours : list (list nat)).
  Local Abbreviation nv := (num_vehicles p).
  Local Abbreviation n := (num_customers p).
  Local Abbreviation sol := (plan_assignment tours).
  Local Abbreviation tour v := (default [] (tours !! v)).

  Hypothesis Hvalid : valid_plan p tours.

Lemma plan_NoDup : NoDup (mjoin tours).
Proof. destruct Hvalid as (_ & Hperm & _). rewrite Hperm. apply NoDup_seq. Qed.

Lemma plan_customer (c : nat) : c ∈ mjoin tours ↔ 1 ≤ c < Z.to_nat n.
Proof. destruct Hvalid as (_ & Hperm & _). rewrite Hperm, elem_of_seq. lia. Qed.

Lemma plan_tour (v : nat) :
  NoDup (tour v) ∧ Forall (λ c, 1 ≤ c < Z.to_nat n) (tour v).
Proof.
  destruct (tours !! v) as [nodes|] eqn:Hv; simpl; [|split; constructor].
  apply list_elem_of_split_length in Hv as (t1 & t2 & Heq & _).
  pose proof plan_NoDup as Hnd. split.
  - rewrite Heq, join_app in Hnd. apply NoDup_app in Hnd as (_ & _ & Hnd).
    change (mjoin (nodes :: t2)) with (nodes ++ mjoin t2) in Hnd.
    by apply NoDup_app in Hnd as (? & _).
  - apply Forall_forall. intros c Hc. apply plan_customer.
    apply list_elem_of_join. exists nodes. split; [done|].
    rewrite Heq. apply elem_of_app. right. by left.
Qed.

Lemma plan_tour_load (v : nat) :
  (route_load p (0%nat :: tour v ++ [0%nat]) ≤ vehicle_capacity p)%Z
  ∨ tours !! v = None.
Proof.
  destruct Hvalid as (_ & _ & Hload).
  destruct (tours !! v) as [nodes|] eqn:Hv; [left|by right]. simpl.
  rewrite Forall_forall in Hload. apply Hload. by eapply list_elem_of_lookup_2.
Qed.

Lemma plan_in_degree (v c : nat) :
  sum_over (range n) (λ i, sol (edge_var v i c))
  = if bool_decide (tour v ≠ [] ∧ c ∈ 0 :: tour v) then 1%Z else 0%Z.
Proof. destruct (plan_tour v). by apply tour_in_degree. Qed.

Lemma plan_out_degree (v c : nat) :
  sum_over (range n) (λ j, sol (edge_var v c j))
  = if bool_decide (tour v ≠ [] ∧ c ∈ 0 :: tour v) then 1%Z else 0%Z.
Proof. destruct (plan_tour v). by apply tour_out_degree. Qed.

(** A customer is entered once over all the vehicles. *)
Lemma plan_degree (c : nat) :
  1 ≤ c → (Z.of_nat c < n)%Z →
  sum_over (range nv)
    (λ v, if bool_decide (tour v ≠ [] ∧ c ∈ 0 :: tour v) then 1%Z else 0%Z) = 1%Z.
Proof.
  intros Hc Hcn. destruct Hvalid as (Hlen & _ & _).
  unfold range. rewrite <- Hlen.
  trans (sum_over tours (λ nodes, if bool_decide (c ∈ nodes) then 1 else 0)%Z).
  - rewrite <- (sum_over_lookup tours []). apply sum_over_ext. intros v _. cbv beta.
    destruct (decide (c ∈ tour v)) as [Hin|Hout].
    + rewrite !bool_decide_eq_true_2; [done..|]. split; [|by right].
      intros Hnil. rewrite Hnil in Hin. by apply elem_of_nil in Hin.
    + rewrite !bool_decide_eq_false_2; [done..|].
      intros [_ [?|?]%elem_of_cons]; [lia|done].
  - rewrite sum_over_tours by apply plan_NoDup.
    rewrite bool_decide_eq_true_2; [done|]. apply plan_customer. lia.
Qed.

Lemma plan_bounds : Forall (in_bounds sol) (variables (built_model p)).
Proof.
  apply Forall_forall. intros [x b] Hx. unfold built_model in Hx. cbn [variables] in Hx.
  unfold in_bounds. cbn [fst snd].
  apply elem_of_app in Hx as [Hx|Hx].
  - apply elem_of_edge_variables in Hx as (v & i & j & Hv & Hi & Hj & -> & ->).
    unfold edge_bounds. cbn [plan_assignment].
    destruct (decide ((i, j) ∈ tour_arcs (tour v))) as [Harc|Harc].
    + destruct (plan_tour v) as [Hnd Hr].
      pose proof (tour_arc_ends _ _ Hnd Hr i j Harc) as (_ & _ & Hij).
      rewrite !bool_decide_eq_true_2 by done. simpl. lia.
    + rewrite (bool_decide_eq_false_2 _ Harc). case_bool_decide; simpl; lia.
  - apply elem_of_order_variables in Hx as (v & i & Hv & Hi & -> & ->).
    unfold order_bounds. cbn [plan_assignment].
    case_bool_decide as Hi0; simpl; [lia|].
    destruct (plan_tour v) as [Hnd Hr].
    pose proof (place_bounds _ (Z.to_nat n) Hnd Hr i ltac:(lia)). lia.
Qed.

Lemma plan_flow (c : constraint) : c ∈ flow_constraints p → holds sol c.
Proof.
  unfold flow_constraints.
  intros (c0 & Hc & Hc0%elem_of_range)%list_elem_of_bind.
  apply elem_of_app in Hc as [Hc|Hc].
  - case_bool_decide as Hz.
    + assert (holds sol (incoming_degree p c0) ∧ holds sol (outgoing_degree p c0)) as [??].
      { unfold holds, incoming_degree, outgoing_degree, ceq. cbn [csense lhs rhs].
        rewrite eval_into_all, eval_from_all, eval_lconst.
        rewrite (sum_over_ext _ _ _ (λ v _, plan_in_degree v c0)).
        rewrite (sum_over_ext _ (λ v, sum_over _ (λ j, sol (edge_var v c0 j))) _
                   (λ v _, plan_out_degree v c0)).
        split; apply plan_degree; lia. }
      apply elem_of_cons in Hc as [->|Hc]; [done|].
      by apply list_elem_of_singleton in Hc as ->.
    + apply list_elem_of_singleton in Hc as ->.
      unfold holds, depot_balance, ceq. cbn [csense lhs rhs].
      rewrite eval_into_all, eval_from_all.
      apply sum_over_ext. intros v _. by rewrite plan_in_degree, plan_out_degree.
  - apply list_elem_of_bind in Hc as (v & Hc & Hv).
    apply list_elem_of_singleton in Hc as ->.
    apply holds_conservation. by rewrite plan_in_degree, plan_out_degree.
Qed.

Lemma plan_depot (c : constraint) : c ∈ depot_constraints p → holds sol c.
Proof.
  unfold depot_constraints. intros (v & Hc & Hv)%list_elem_of_bind.
  assert (∀ x y : linexpr, eval sol x = eval sol y →
            (eval sol x ≤ 1)%Z → holds sol (cle x (lconst 1)) ∧ holds sol (ceq x y)) as H.
  { intros x y Hxy Hx. unfold holds, cle, ceq. cbn [csense lhs rhs].
    by rewrite eval_lconst. }
  pose proof (eval_from_of p sol v 0) as Hfrom. pose proof (eval_into_of p sol v 0) as Hinto.
  rewrite plan_out_degree in Hfrom. rewrite plan_in_degree in Hinto.
  assert (eval sol (sum_vars (from_of p v 0)) ≤ 1)%Z as Hle.
  { rewrite Hfrom. case_bool_decide; lia. }
  destruct (H (sum_vars (from_of p v 0)) (sum_vars (into_of p v 0))) as [H1 H3];
    [congruence|done|].
  destruct (H (sum_vars (into_of p v 0)) (sum_vars (from_of p v 0))) as [H2 _];
    [congruence|congruence|].
  repeat (apply elem_of_cons in Hc as [->|Hc]; [done|]).
  by apply elem_of_nil in Hc.
Qed.

Lemma plan_mtz (c : constraint) : c ∈ mtz_constraints p → holds sol c.
Proof.
  unfold mtz_constraints. intros (v & Hc & Hv)%list_elem_of_bind.
  apply list_elem_of_bind in Hc as (i & Hc & Hi%elem_of_seq).
  apply list_elem_of_bind in Hc as (j & Hc & Hj%elem_of_seq).
  apply list_elem_of_singleton in Hc as ->. apply holds_mtz.
  cbn [plan_assignment].
  rewrite (bool_decide_eq_false_2 (i = 0)), (bool_decide_eq_false_2 (j = 0)) by lia.
  destruct (plan_tour v) as [Hnd Hr].
  pose proof (place_bounds _ (Z.to_nat n) Hnd Hr i ltac:(lia)).
  pose proof (place_bounds _ (Z.to_nat n) Hnd Hr j ltac:(lia)).
  case_bool_decide as Harc.
  - pose proof (place_arc _ Hnd i j ltac:(lia) ltac:(lia) Harc). lia.
  - nia.
Qed.

Lemma plan_capacity (c : constraint) :
  demand_at p 0 = 0%Z → c ∈ capacity_constraints p → holds sol c.
Proof.
  intros Hdepot. unfold capacity_constraints. intros (v & Hc & Hv%elem_of_range)%list_elem_of_bind.
  apply list_elem_of_singleton in Hc as ->. apply holds_capacity.
  rewrite sum_over_swap.
  rewrite (sum_over_ext _ _
             (λ j, if bool_decide (j ∈ tour v) then demand_at p j else 0%Z)).
  2:{ intros j Hj. rewrite sum_over_scale, plan_in_degree.
      destruct (decide (j ∈ tour v)) as [Hin|Hout].
      - rewrite !bool_decide_eq_true_2; [lia|done|]. split; [|by right].
        intros Hnil. rewrite Hnil in Hin. by apply elem_of_nil in Hin.
      - rewrite (bool_decide_eq_false_2 (j ∈ tour v)) by done.
        case_bool_decide as Hj0; [|lia].
        destruct Hj0 as [_ [->|?]%elem_of_cons]; [lia|done]. }
  destruct (plan_tour v) as [Hnd Hr].
  rewrite sum_over_indicator; [|apply NoDup_seq|done|].
  2:{ intros j Hj. rewrite Forall_forall in Hr. specialize (Hr j Hj).
      apply elem_of_seq. lia. }
  destruct (plan_tour_load v) as [Hload|Hnone].
  - unfold route_load in Hload. cbn [tail] in Hload.
    rewrite filter_app, filter_all in Hload.
    2:{ eapply Forall_impl; [exact Hr|]. simpl. lia. }
    by rewrite filter_cons_False, filter_nil, app_nil_r in Hload by auto.
  - destruct Hvalid as (Hlen & _). apply lookup_ge_None in Hnone. lia.
Qed.

Lemma plan_feasible : demand_at p 0 = 0%Z → feasible (built_model p) sol.
Proof.
  intros Hdepot. split; [apply plan_bounds|].
  apply Forall_forall. intros c Hc. unfold built_model in Hc. cbn [constraints] in Hc.
  rewrite !elem_of_app in Hc.
  destruct Hc as [Hc|[Hc|[Hc|Hc]]];
    eauto using plan_flow, plan_depot, plan_capacity, plan_mtz.
Qed.

End plan_facts.

(** X23.  The model leaves no plan out: for an instance whose depot has
    demand 0, every plan - one tour per vehicle, every customer on exactly
    one tour, no tour above the capacity - gives an assignment, 1 on the
    arcs of the tours, that satisfies the built model. *)
Theorem plan_satisfies_model {float : Type} `{!Platform float} (p : VRPInstance float) (m : Model)
    (tours : list (list nat)) :
  build p = Ok m → demand_at p 0 = 0%Z → valid_plan p tours →
  feasible m (plan_assignment tours)
  ∧ ∀ v i j, plan_assignment tours (edge_var v i j) = 1%Z
             ↔ ∃ nodes, tours !! v = Some nodes ∧ nodes ≠ []
                        ∧ (i, j) ∈ route_arcs (0 :: nodes ++ [0]).
Proof.
  intros (-> & _)%build_Ok_inv Hdepot Hvalid. split; [by apply plan_feasible|].
  intros v i j. cbn [plan_assignment]. split.
  - case_bool_decide as Harc; [|done]. intros _.
    destruct (tours !! v) as [nodes|] eqn:Hv; simpl in Harc;
      [|by apply elem_of_nil in Harc].
    exists nodes. split; [done|]. unfold tour_arcs in Harc.
    destruct nodes; [by apply elem_of_nil in Harc|done].
  - intros (nodes & Hv & Hne & Harc). rewrite Hv. simpl.
    rewrite bool_decide_eq_true_2; [done|]. unfold tour_arcs. by destruct nodes.
Qed.

(** X23, witness: vehicle 0 visits 2 then 1, vehicle 1 stays. *)
Lemma plan_satisfies_model_witness :
  feasible (built_model toy_two_vehicles) (plan_assignment [[2; 1]; []])
  ∧ ∀ v i j, plan_assignment [[2; 1]; []] (edge_var v i j) = 1%Z
             ↔ ∃ nodes, [[2; 1]; []] !! v = Some nodes ∧ nodes ≠ []
                        ∧ (i, j) ∈ route_arcs (0 :: nodes ++ [0]).
Proof.
  apply (plan_satisfies_model toy_two_vehicles (built_model toy_two_vehicles) [[2; 1]; []]).
  - vm_compute. reflexivity.
  - reflexivity.
  - split_and!.
    + reflexivity.
    + apply perm_swap.
    + repeat constructor; vm_compute; discriminate.
Defined.

(** ** Every plan is decoded back *)

Section plan_decoded.
  Context {float : Type} (p : VRPInstance float) (tours : list (list nat)).
  Local Abbreviation nv := (num_vehicles p).
  Local Abbreviation n := (num_customers p).
  Local Abbreviation sol := (plan_assignment tours).
  Local Abbreviation tour v := (default [] (tours !! v)).

  Hypothesis Hvalid : valid_plan p tours.





End plan_decoded.


